(** * Amphipod (Advent of Code 2021, day 23, part 1)

    A shallow embedding of [2021/23/src/python/main/amphipod.py]: the
    location graph ([Regular] and [Home] locations joined by weighted
    links), the lower-bound table [DISTANCES] with [get_estimation], and the
    best-first search loop of [main], followed by the properties of the
    search.

    Conventions.  Python integers are [Z]; a Python list used as an array is
    a [list Z] read with [!!] and written with [py_setitem] (an index out of
    range raises, which is [None] here); the [dict] keyed by tuples is a
    [gmap (list Z) Z]; the [set] of locations, hashed and compared by index,
    is a [gset nat]; an exception is [None] in the option monad. *)

From stdpp Require Import base option list strings gmap sets.
From Stdlib Require Import ZArith Lia Ascii Wellfounded.

Local Open Scope Z_scope.

(** ** Python primitives *)

(** [l[k]] for a Python sequence and an integer [k]: negative indices count
    from the end, anything else out of range raises [IndexError]. *)
Definition py_getitem {A} (l : list A) (k : Z) : option A :=
  if 0 <=? k then l !! Z.to_nat k
  else if - Z.of_nat (length l) <=? k
       then l !! Z.to_nat (Z.of_nat (length l) + k)
       else None.

(** [l[i] = v] for a natural index. *)
Definition py_setitem {A} (l : list A) (i : nat) (v : A) : option (list A) :=
  if decide (i < length l)%nat then Some (<[i := v]> l) else None.

(** [10 ** k]; a negative exponent gives a float in Python, which is outside
    of the integer model and is treated as a failure. *)
Definition py_pow10 (k : Z) : option Z :=
  if k <? 0 then None else Some (10 ^ k).

(** [l1 < l2] on lists of integers (lexicographic). *)
Fixpoint list_ltb (l1 l2 : list Z) : bool :=
  match l1, l2 with
  | [], [] => false
  | [], _ :: _ => true
  | _ :: _, [] => false
  | x :: l1', y :: l2' => (x <? y) || ((x =? y) && list_ltb l1' l2')
  end.

(** A [for] loop that threads an accumulator and may raise. *)
Fixpoint for_each {A B} (f : B → A → option B) (acc : B) (l : list A)
  : option B :=
  match l with
  | [] => Some acc
  | x :: l' => acc' ← f acc x; for_each f acc' l'
  end.

(** ** Locations *)

(** The two subclasses of [Location]; [Home] carries [_amphipod]. *)
Inductive Kind := KRegular | KHome (amphipod : Z).

(** The identity of a location object: [_index] and its class.  The list
    [_links], which is filled in after the objects are created, lives in a
    [LinkTable] indexed by [_index].  This is exact where no two objects
    have the same [_index], as for the fifteen locations that [main]
    creates: two objects with the same index would share a row here, and
    own a list each in the program. *)
Record Location := { index : nat; kind : Kind }.

#[global] Instance Kind_eq_dec : EqDecision Kind.
Proof. solve_decision. Defined.

#[global] Instance Location_eq_dec : EqDecision Location.
Proof. solve_decision. Defined.

Definition LinkTable := list (list (Location * Z)).

Module Regular.
Definition is_active (self : nat) (data : list Z) : option bool :=
  v ← data !! self; Some (0 <? v).

Definition get (self : nat) (data : list Z) : option Z :=
  data !! self.

Definition accepts (self : nat) (data : list Z) (amphipod : Z)
  : option bool :=
  v ← data !! self; Some (v =? 0).

Definition put (self : nat) (data : list Z) (amphipod : Z)
  : option (list Z * Z) :=
  data' ← py_setitem data self amphipod; Some (data', 0).
End Regular.

Module Home.
Definition is_active (self : nat) (_amphipod : Z) (data : list Z)
  : option bool :=
  v ← data !! self;
  Some ((0 <? v) && negb (v =? _amphipod)
        && negb (v =? 5 * _amphipod + _amphipod)).

Definition get (self : nat) (data : list Z) : option Z :=
  aa ← data !! self;
  let a := aa / 5 in
  if 0 <? a then Some a else Some (aa mod 5).

Definition accepts (self : nat) (_amphipod : Z) (data : list Z)
  (amphipod : Z) : option bool :=
  aa ← data !! self;
  let a := aa / 5 in
  if 0 <? a then Some false else Some (_amphipod =? amphipod).

Definition put (self : nat) (data : list Z) (amphipod : Z)
  : option (list Z * Z) :=
  aa ← data !! self;
  if amphipod =? 0 then
    let a := aa / 5 in
    if a =? 0 then data' ← py_setitem data self 0; Some (data', 1)
    else data' ← py_setitem data self (aa mod 5); Some (data', 0)
  else
    let a := aa mod 5 in
    if a =? 0 then data' ← py_setitem data self amphipod; Some (data', 1)
    else data' ← py_setitem data self (amphipod * 5 + a); Some (data', 0).
End Home.

(** Dynamic dispatch on the class of the location. *)
Definition is_active (self : Location) (data : list Z) : option bool :=
  match kind self with
  | KRegular => Regular.is_active (index self) data
  | KHome t => Home.is_active (index self) t data
  end.

Definition get (self : Location) (data : list Z) : option Z :=
  match kind self with
  | KRegular => Regular.get (index self) data
  | KHome _ => Home.get (index self) data
  end.

Definition accepts (self : Location) (data : list Z) (amphipod : Z)
  : option bool :=
  match kind self with
  | KRegular => Regular.accepts (index self) data amphipod
  | KHome t => Home.accepts (index self) t data amphipod
  end.

Definition put (self : Location) (data : list Z) (amphipod : Z)
  : option (list Z * Z) :=
  match kind self with
  | KRegular => Regular.put (index self) data amphipod
  | KHome _ => Home.put (index self) data amphipod
  end.

(** [add_link] and [connect] on the table of [_links]. *)
Definition add_link (tbl : LinkTable) (self place : Location) (weight : Z)
  : LinkTable :=
  match tbl !! index self with
  | Some ls => <[index self := ls ++ [(place, weight)]]> tbl
  | None => tbl
  end.

Definition connect (tbl : LinkTable) (p1 p2 : Location) (weight : Z)
  : LinkTable :=
  add_link (add_link tbl p1 p2 weight) p2 p1 weight.

Definition links_of (tbl : LinkTable) (self : Location)
  : list (Location * Z) :=
  default [] (tbl !! index self).

(** [candidate_moves]: the links whose far end accepts the amphipod that
    can leave [self]. *)
Definition candidate_moves (tbl : LinkTable) (self : Location)
  (data : list Z) : option (list (Location * Z)) :=
  a ← get self data;
  if a =? 0 then Some []
  else for_each (λ result link,
                  b ← accepts link.1 data a;
                  Some (if b : bool then result ++ [link] else result))
                [] (links_of tbl self).

(** ** The board of [main] *)

Definition locations : list Location :=
  ((λ i, {| index := i; kind := KRegular |}) <$> seq 0 11)
  ++ ((λ i, {| index := i + 11; kind := KHome (Z.of_nat i + 1) |})
        <$> seq 0 4).

Definition loc (i : nat) : Location :=
  default {| index := i; kind := KRegular |} (locations !! i).

Definition board_links : LinkTable :=
  let tbl := replicate 15 [] in
  let tbl := connect tbl (loc 0) (loc 1) 1 in
  let tbl := connect tbl (loc 1) (loc 3) 2 in
  let tbl := connect tbl (loc 1) (loc 11) 2 in
  let tbl := connect tbl (loc 11) (loc 3) 2 in
  let tbl := connect tbl (loc 3) (loc 5) 2 in
  let tbl := connect tbl (loc 3) (loc 12) 2 in
  let tbl := connect tbl (loc 12) (loc 5) 2 in
  let tbl := connect tbl (loc 5) (loc 7) 2 in
  let tbl := connect tbl (loc 5) (loc 13) 2 in
  let tbl := connect tbl (loc 13) (loc 7) 2 in
  let tbl := connect tbl (loc 7) (loc 9) 2 in
  let tbl := connect tbl (loc 7) (loc 14) 2 in
  let tbl := connect tbl (loc 14) (loc 9) 2 in
  let tbl := connect tbl (loc 9) (loc 10) 1 in
  tbl.

(** ** The heuristic *)

Definition DISTANCES : list (list Z) :=
  [ [0; 3; 50; 700; 9000];
    [0; 2; 40; 600; 8000];
    [0; 1; 30; 500; 7000];
    [0; 2; 20; 400; 6000];
    [0; 3; 10; 300; 5000];
    [0; 4; 20; 200; 4000];
    [0; 5; 30; 100; 3000];
    [0; 6; 40; 200; 2000];
    [0; 7; 50; 300; 1000];
    [0; 8; 60; 400; 2000];
    [0; 9; 70; 500; 3000];
    [0; 0; 40; 600; 8000];
    [0; 4; 0; 400; 6000];
    [0; 6; 40; 0; 4000];
    [0; 8; 60; 400; 0];
    [0; 0; 50; 700; 9000];
    [0; 5; 0; 500; 7000];
    [0; 7; 50; 0; 5000];
    [0; 9; 70; 500; 0] ].

(** [DISTANCES[i][k]]. *)
Definition distance (i : nat) (k : Z) : option Z :=
  row ← DISTANCES !! i; py_getitem row k.

Definition get_estimation (data : list Z) : option Z :=
  result ← for_each (λ result i,
                       v ← data !! i;
                       d ← distance i v;
                       Some (result + d))
                    0 (seq 0 11);
  for_each (λ result i,
              v ← data !! (i + 11)%nat;
              d1 ← distance (i + 11) (v / 5);
              v' ← data !! (i + 11)%nat;
              d2 ← distance (i + 15) (v' mod 5);
              Some (result + d1 + d2))
           result (seq 0 4).

(** ** States and the frontier *)

Record State := { data : list Z; active_locations : gset nat }.

Definition clone (self : State) : State :=
  {| data := data self; active_locations := active_locations self |}.

(** A frontier entry [(estimate, energy, state)]. *)
Definition Entry : Type := Z * Z * State.

(** The order of the entries in the priority queue: tuples compare
    lexicographically and [State.__lt__] compares the arrays. *)
Definition entry_ltb (x y : Entry) : bool :=
  let '(est1, e1, s1) := x in
  let '(est2, e2, s2) := y in
  (est1 <? est2)
  || ((est1 =? est2)
      && ((e1 <? e2) || ((e1 =? e2) && list_ltb (data s1) (data s2)))).

(** [queue.PriorityQueue]: [put] adds an entry, [get] removes a least one. *)
Definition pq_put (x : Entry) (q : list Entry) : list Entry := x :: q.

Fixpoint pq_get (q : list Entry) : option (Entry * list Entry) :=
  match q with
  | [] => None
  | x :: q' =>
      match pq_get q' with
      | None => Some (x, [])
      | Some (m, r) => if entry_ltb m x then Some (m, x :: r) else Some (x, q')
      end
  end.

(** [s.remove(i)], which raises [KeyError] when [i] is not in the set. *)
Definition set_remove (s : gset nat) (i : nat) : option (gset nat) :=
  if decide (i ∈ s) then Some (s ∖ {[i]}) else None.

(** ** The search loop of [main] *)

(** One move of the amphipod at [source] along a link: the new array and the
    energy it costs, [10 ** (a - 1) * (weight + source.put(..., 0) +
    target.put(..., a))]. *)
Definition apply_move (source target : Location) (weight : Z)
  (data : list Z) : option (list Z * Z) :=
  a ← get source data;
  m ← py_pow10 (a - 1);
  '(d1, x1) ← put source data 0;
  '(d2, x2) ← put target d1 a;
  Some (d2, m * (weight + x1 + x2)).

(** The body of the innermost loop: the successor entry for one candidate
    move. *)
Definition successor (state : State) (energy : Z) (source : Location)
  (link : Location * Z) : option Entry :=
  let new_s := clone state in
  '(d, cost) ← apply_move source link.1 link.2 (data new_s);
  let new_e := energy + cost in
  sa ← is_active source d;
  act ← (if sa : bool then Some (active_locations new_s)
         else set_remove (active_locations new_s) (index source));
  ta ← is_active link.1 d;
  let act := if ta : bool then act ∪ {[index link.1]} else act in
  h ← get_estimation d;
  Some (h + new_e, new_e, {| data := d; active_locations := act |}).

(** The two nested [for] loops that push the successors of a state. *)
Definition expand (tbl : LinkTable) (state : State) (energy : Z)
  (todo : list Entry) : option (list Entry) :=
  for_each (λ todo i,
              source ← locations !! i;
              moves ← candidate_moves tbl source (data state);
              for_each (λ todo link,
                          e ← successor state energy source link;
                          Some (pq_put e todo))
                       todo moves)
           todo (elements (active_locations state)).

Record Config := {
  result : Z;
  states : gmap (list Z) Z;
  todo : list Entry
}.

Inductive Iteration :=
| Exit (r : Z)          (* the queue is empty: [print(result)] *)
| Continue (c : Config) (* the next iteration starts from [c] *)
| Raise.                (* an exception escapes *)

(** One iteration of [while not todo.empty()]. *)
Definition iteration (tbl : LinkTable) (c : Config) : Iteration :=
  match pq_get (todo c) with
  | None => Exit (result c)
  | Some ((estimate, energy, state), rest) =>
      if result c <=? estimate then
        Continue {| result := result c; states := states c; todo := rest |}
      else
        let tdata := data state in
        let prev_energy := states c !! tdata in
        if match prev_energy with
           | Some p => p <=? energy
           | None => false
           end
        then
          Continue {| result := result c; states := states c; todo := rest |}
        else
          let states' := <[tdata := energy]> (states c) in
          let result' :=
            if bool_decide (size (active_locations state) = 0%nat)
               && (energy <? result c)
            then energy else result c in
          match expand tbl state energy rest with
          | Some todo' =>
              Continue {| result := result'; states := states'; todo := todo' |}
          | None => Raise
          end
  end.

Inductive Outcome :=
| Printed (r : Z)
| Crashed
| OutOfFuel.

Fixpoint run (tbl : LinkTable) (fuel : nat) (c : Config) : Outcome :=
  match fuel with
  | O => OutOfFuel
  | S fuel' =>
      match iteration tbl c with
      | Exit r => Printed r
      | Raise => Crashed
      | Continue c' => run tbl fuel' c'
      end
  end.

(** [{p for p in locations if p.is_active(data)}] *)
Definition active_set (data : list Z) : option (gset nat) :=
  for_each (λ s p, b ← is_active p data;
                   Some (if b : bool then s ∪ {[index p]} else s))
           ∅ locations.

Definition initial (data : list Z) : option Config :=
  h ← get_estimation data;
  act ← active_set data;
  Some {| result := 2 ^ 63;
          states := ∅;
          todo := pq_put (h, 0, {| data := data; active_locations := act |})
                         [] |}.

(** The search of [main], from the parsed array to the printed number. *)
Definition search (fuel : nat) (data : list Z) : Outcome :=
  match initial data with
  | Some c => run board_links fuel c
  | None => Crashed
  end.

(** ** Reading the board *)

Definition AMPHIPODS (c : ascii) : option Z :=
  if decide (c = "."%char) then Some 0
  else if decide (c = "A"%char) then Some 1
  else if decide (c = "B"%char) then Some 2
  else if decide (c = "C"%char) then Some 3
  else if decide (c = "D"%char) then Some 4
  else None.

(** [AMPHIPODS[lines[r][c]]] *)
Definition cell (lines : list string) (r c : nat) : option Z :=
  line ← lines !! r; ch ← String.get c line; AMPHIPODS ch.

Definition parse (lines : list string) : option (list Z) :=
  let data := replicate 15 0 in
  data ← for_each (λ data i, v ← cell lines 1 i; py_setitem data i v)
                  data (seq 1 11);
  top ← cell lines 2 3; bot ← cell lines 3 3;
  data ← py_setitem data 11 (5 * top + bot);
  top ← cell lines 2 5; bot ← cell lines 3 5;
  data ← py_setitem data 12 (5 * top + bot);
  top ← cell lines 2 7; bot ← cell lines 3 7;
  data ← py_setitem data 13 (5 * top + bot);
  top ← cell lines 2 9; bot ← cell lines 3 9;
  py_setitem data 14 (5 * top + bot).

(** [main]: five lines are read from the standard input, then the board is
    parsed and searched. *)
Definition main (fuel : nat) (stdin : list string) : Outcome :=
  if decide (length stdin < 5)%nat then Crashed
  else match parse (take 5 stdin) with
       | Some data => search fuel data
       | None => Crashed
       end.

(** ** Legal moves and their cost *)

(** A goal array: no location is active. *)
Definition is_goal (data : list Z) : Prop := active_set data = Some ∅.

(** One legal move, as the loops of [main] enumerate them: an active source,
    one of its candidate links, and the array and the energy that
    [apply_move] gives. *)
Definition legal_move (data : list Z) (cost : Z) (data' : list Z) : Prop :=
  ∃ source moves link,
    source ∈ locations ∧
    is_active source data = Some true ∧
    candidate_moves board_links source data = Some moves ∧
    link ∈ moves ∧
    apply_move source link.1 link.2 data = Some (data', cost).

(** A sequence of legal moves and its total energy. *)
Inductive path : list Z → Z → list Z → Prop :=
| path_nil d : path d 0 d
| path_cons d c d' c' d'' :
    legal_move d c d' → path d' c' d'' → path d (c + c') d''.

(** [c] is the least energy of a sequence of legal moves from [data] to a
    goal array. *)
Definition min_cost (data : list Z) (c : Z) : Prop :=
  (∃ g, is_goal g ∧ path data c g) ∧
  ∀ g c', is_goal g → path data c' g → c ≤ c'.

(** The configurations that the loop of [main] goes through. *)
Definition loop_step (c c' : Config) : Prop :=
  iteration board_links c = Continue c'.

Definition reachable (data : list Z) (c : Config) : Prop :=
  ∃ c0, initial data = Some c0 ∧ rtc loop_step c0 c.

(** Well-formed arrays: fifteen slots, a hallway slot holds a type in
    [0..4] and a room slot a code in [0..24]. *)
Definition slot_bound (i : nat) : Z := if (i <? 11)%nat then 4 else 24.

Definition wf_datab (data : list Z) : bool :=
  (length data =? 15)%nat
  && forallb (λ '(i, v), (0 <=? v) && (v <=? slot_bound i))
             (zip (seq 0 15) data).

Definition wf_data (data : list Z) : Prop := wf_datab data = true.

(** * Properties *)

(** ** Locations, slot by slot *)

(** What the four methods compute from the value [v] of their own slot. *)
Definition slot_is_active (k : Kind) (v : Z) : bool :=
  match k with
  | KRegular => 0 <? v
  | KHome t => (0 <? v) && negb (v =? t) && negb (v =? 5 * t + t)
  end.

Definition slot_get (k : Kind) (v : Z) : Z :=
  match k with
  | KRegular => v
  | KHome _ => if 0 <? v / 5 then v / 5 else v mod 5
  end.

Definition slot_accepts (k : Kind) (v a : Z) : bool :=
  match k with
  | KRegular => v =? 0
  | KHome t => if 0 <? v / 5 then false else t =? a
  end.

Definition slot_put (k : Kind) (v a : Z) : Z * Z :=
  match k with
  | KRegular => (a, 0)
  | KHome _ =>
      if a =? 0 then if v / 5 =? 0 then (0, 1) else (v mod 5, 0)
      else if v mod 5 =? 0 then (a, 1) else (a * 5 + v mod 5, 0)
  end.

Section slots.
Context (p : Location) (data : list Z) (v : Z).
Hypothesis Hv : data !! index p = Some v.

Lemma is_active_slot : is_active p data = Some (slot_is_active (kind p) v).
Proof using Hv.
  unfold is_active, Regular.is_active, Home.is_active, slot_is_active.
  destruct (kind p); rewrite Hv; reflexivity.
Qed.

Lemma get_slot : get p data = Some (slot_get (kind p) v).
Proof using Hv.
  unfold get, Regular.get, Home.get, slot_get.
  destruct (kind p); rewrite Hv; simpl; [done|].
  destruct (0 <? v / 5); done.
Qed.

Lemma accepts_slot a :
  accepts p data a = Some (slot_accepts (kind p) v a).
Proof using Hv.
  unfold accepts, Regular.accepts, Home.accepts, slot_accepts.
  destruct (kind p); rewrite Hv; simpl; [done|].
  destruct (0 <? v / 5); done.
Qed.

Lemma py_setitem_slot w : py_setitem data (index p) w = Some (<[index p := w]> data).
Proof using Hv.
  unfold py_setitem. apply lookup_lt_Some in Hv.
  destruct (decide _); [done | lia].
Qed.

Lemma put_slot a :
  put p data a
  = Some (<[index p := (slot_put (kind p) v a).1]> data,
          (slot_put (kind p) v a).2).
Proof using Hv.
  unfold put, Regular.put, Home.put, slot_put.
  destruct (kind p); rewrite ?Hv; simpl.
  - by rewrite py_setitem_slot.
  - destruct (a =? 0); [destruct (v / 5 =? 0) | destruct (v mod 5 =? 0)];
      rewrite py_setitem_slot; done.
Qed.
End slots.

(** ** Well-formed arrays *)

Lemma wf_data_spec d :
  wf_data d ↔
  length d = 15%nat ∧ ∀ i v, d !! i = Some v → 0 ≤ v ≤ slot_bound i.
Proof.
  unfold wf_data, wf_datab. split.
  - intros [Hl H]%andb_true_iff. apply Nat.eqb_eq in Hl.
    split; [done|].
    do 16 (destruct d as [|? d]; try discriminate Hl).
    simpl in H. rewrite !andb_true_iff, !Z.leb_le in H.
    unfold slot_bound in H; simpl in H.
    intros i v Hi.
    do 15 (destruct i as [|i];
           [injection Hi as <-; unfold slot_bound; simpl; lia|]).
    discriminate Hi.
  - intros [Hl H]. apply andb_true_iff. split; [by apply Nat.eqb_eq|].
    do 16 (destruct d as [|? d]; try discriminate Hl).
    pose proof (H 0%nat _ eq_refl). pose proof (H 1%nat _ eq_refl).
    pose proof (H 2%nat _ eq_refl). pose proof (H 3%nat _ eq_refl).
    pose proof (H 4%nat _ eq_refl). pose proof (H 5%nat _ eq_refl).
    pose proof (H 6%nat _ eq_refl). pose proof (H 7%nat _ eq_refl).
    pose proof (H 8%nat _ eq_refl). pose proof (H 9%nat _ eq_refl).
    pose proof (H 10%nat _ eq_refl). pose proof (H 11%nat _ eq_refl).
    pose proof (H 12%nat _ eq_refl). pose proof (H 13%nat _ eq_refl).
    pose proof (H 14%nat _ eq_refl).
    clear H. unfold slot_bound in *. simpl in *.
    rewrite !andb_true_iff, !Z.leb_le. lia.
Qed.

Lemma wf_data_length d : wf_data d → length d = 15%nat.
Proof. by intros [? _]%wf_data_spec. Qed.

Lemma wf_data_lookup d i :
  wf_data d → (i < 15)%nat →
  ∃ v, d !! i = Some v ∧ 0 ≤ v ≤ slot_bound i.
Proof.
  intros [Hl H]%wf_data_spec Hi.
  destruct (lookup_lt_is_Some_2 d i) as [v Hv]; [lia|].
  exists v. split; [done | by apply H].
Qed.

Lemma wf_data_insert d i v :
  wf_data d → 0 ≤ v ≤ slot_bound i → wf_data (<[i := v]> d).
Proof.
  intros [Hl H]%wf_data_spec Hv. apply wf_data_spec.
  split; [by rewrite length_insert|].
  intros j w Hj. destruct (decide (i = j)) as [->|Hne].
  - destruct (decide (j < length d)%nat).
    + rewrite list_lookup_insert_eq in Hj by done. by injection Hj as <-.
    + rewrite list_insert_ge in Hj by lia. by apply H.
  - rewrite list_lookup_insert_ne in Hj by done. by apply H.
Qed.

(** ** The board *)

Ltac loc_cases H :=
  lazymatch type of H with
  | ?p ∈ locations =>
      let H' := fresh in
      let l := eval vm_compute in locations in
      assert (H' : p ∈ l) by exact H;
      clear H; rename H' into H;
      repeat (apply elem_of_cons in H as [->|H]);
      [..| by apply elem_of_nil in H]
  end.

Lemma locations_index p :
  p ∈ locations → (index p < 15)%nat ∧ locations !! index p = Some p.
Proof. intros H. loc_cases H; (split; [simpl; lia | reflexivity]). Qed.

Lemma locations_lookup i p : locations !! i = Some p → index p = i.
Proof.
  intros H. do 15 (destruct i as [|i]; [by injection H as <-|]).
  discriminate H.
Qed.

Lemma locations_lookup_lt i :
  (i < 15)%nat → ∃ p, locations !! i = Some p ∧ p ∈ locations.
Proof.
  intros Hi. destruct (lookup_lt_is_Some_2 locations i) as [p Hp]; [done|].
  exists p. split; [done|]. by eapply list_elem_of_lookup_2.
Qed.

Lemma links_target p link :
  p ∈ locations → link ∈ links_of board_links p → link.1 ∈ locations.
Proof.
  intros Hp Hl.
  assert (forallb (λ p, forallb (λ l : Location * Z,
            bool_decide (l.1 ∈ locations)) (links_of board_links p))
            locations = true) as H by (vm_compute; reflexivity).
  rewrite forallb_forall in H. apply list_elem_of_In in Hp, Hl.
  specialize (H p Hp). rewrite forallb_forall in H.
  specialize (H link Hl). by apply bool_decide_eq_true in H.
Qed.

(** ** The heuristic, slot by slot *)

(** [DISTANCES[i][k]] for indices in range. *)
Definition dist (i : nat) (k : Z) : Z := default 0 (distance i k).

(** The share of slot [i] holding [v] in the estimate. *)
Definition contrib (i : nat) (v : Z) : Z :=
  if (i <? 11)%nat then dist i v
  else dist i (v / 5) + dist (i + 4) (v mod 5).

Fixpoint hsum (i : nat) (l : list Z) : Z :=
  match l with
  | [] => 0
  | v :: l' => contrib i v + hsum (S i) l'
  end.

Definition h (data : list Z) : Z := hsum 0 data.

Lemma distance_is_Some i k :
  (i < 19)%nat → 0 ≤ k ≤ 4 → distance i k = Some (dist i k).
Proof.
  intros Hi Hk.
  assert (k = 0 ∨ k = 1 ∨ k = 2 ∨ k = 3 ∨ k = 4) as Hc by lia.
  do 19 (destruct i as [|i];
         [destruct Hc as [->|[->|[->|[->| ->]]]]; reflexivity|]).
  lia.
Qed.

Lemma get_estimation_wf d : wf_data d → get_estimation d = Some (h d).
Proof.
  intros Hwf. pose proof Hwf as [Hl H]%wf_data_spec.
  do 16 (destruct d as [|? d]; try discriminate Hl).
  pose proof (H 0%nat _ eq_refl). pose proof (H 1%nat _ eq_refl).
  pose proof (H 2%nat _ eq_refl). pose proof (H 3%nat _ eq_refl).
  pose proof (H 4%nat _ eq_refl). pose proof (H 5%nat _ eq_refl).
  pose proof (H 6%nat _ eq_refl). pose proof (H 7%nat _ eq_refl).
  pose proof (H 8%nat _ eq_refl). pose proof (H 9%nat _ eq_refl).
  pose proof (H 10%nat _ eq_refl). pose proof (H 11%nat _ eq_refl).
  pose proof (H 12%nat _ eq_refl). pose proof (H 13%nat _ eq_refl).
  pose proof (H 14%nat _ eq_refl).
  clear H Hl Hwf. unfold slot_bound in *. simpl in *.
  unfold get_estimation, h. cbn [for_each seq].
  simpl lookup. cbn [mbind option_bind].
  repeat (rewrite (distance_is_Some _ _) by
            first [ simpl; lia | simpl; Z.div_mod_to_equations; lia ];
          cbn [mbind option_bind]).
  f_equal. unfold hsum, contrib.
  repeat match goal with
         | |- context [(?a <? ?b)%nat] =>
             let r := eval vm_compute in (a <? b)%nat in
             change (a <? b)%nat with r
         end.
  simpl Nat.add. cbv iota. lia.
Qed.

Lemma hsum_insert i l k v v' :
  l !! k = Some v →
  hsum i (<[k := v']> l) = hsum i l - contrib (i + k) v + contrib (i + k) v'.
Proof.
  revert i k. induction l as [|x l IH]; intros i k Hk; [done|].
  destruct k as [|k]; simpl in *.
  - injection Hk as ->. rewrite Nat.add_0_r. lia.
  - rewrite (IH (S i) k Hk). replace (S i + k)%nat with (i + S k)%nat by lia.
    lia.
Qed.

Lemma h_insert l k v v' :
  l !! k = Some v → h (<[k := v']> l) = h l - contrib k v + contrib k v'.
Proof. intros H. unfold h. by rewrite (hsum_insert _ _ _ _ _ H). Qed.

(** ** One move, slot by slot *)

(** Everything that the search relies on for one candidate move, as a test
    on the values [vs] and [vt] of the source slot and of the target slot:
    the new values stay in range, the energy is positive, the estimate does
    not drop by more than the energy, and a target that was active stays
    active. *)
Definition move_ok (p : Location) (link : Location * Z) (vs vt : Z) : bool :=
  let a := slot_get (kind p) vs in
  if slot_is_active (kind p) vs && slot_accepts (kind link.1) vt a then
    let '(vs', x1) := slot_put (kind p) vs 0 in
    let '(vt', x2) := slot_put (kind link.1) vt a in
    let cost := 10 ^ (a - 1) * (link.2 + x1 + x2) in
    (0 <=? vs') && (vs' <=? slot_bound (index p))
    && (0 <=? vt') && (vt' <=? slot_bound (index link.1))
    && (1 <=? a) && (a <=? 4) && (0 <? cost) && (cost <=? 4000)
    && (contrib (index p) vs + contrib (index link.1) vt
        <=? cost + contrib (index p) vs' + contrib (index link.1) vt')
    && implb (slot_is_active (kind link.1) vt)
             (slot_is_active (kind link.1) vt')
    && negb (index p =? index link.1)%nat
  else true.

Definition slot_values (i : nat) : list Z :=
  Z.of_nat <$> seq 0 (S (Z.to_nat (slot_bound i))).

Lemma slot_values_elem i v : 0 ≤ v ≤ slot_bound i → In v (slot_values i).
Proof.
  intros Hv. unfold slot_values. apply list_elem_of_In, list_elem_of_fmap.
  exists (Z.to_nat v). split; [lia|].
  apply list_elem_of_In, in_seq. lia.
Qed.

Lemma all_moves_ok p link vs vt :
  p ∈ locations → link ∈ links_of board_links p →
  0 ≤ vs ≤ slot_bound (index p) → 0 ≤ vt ≤ slot_bound (index link.1) →
  move_ok p link vs vt = true.
Proof.
  intros Hp Hl Hs Ht.
  assert (forallb (λ p, forallb (λ link,
            forallb (λ vs, forallb (λ vt, move_ok p link vs vt)
                             (slot_values (index link.1)))
                    (slot_values (index p)))
            (links_of board_links p)) locations = true) as H
    by (vm_compute; reflexivity).
  rewrite forallb_forall in H. apply list_elem_of_In in Hp, Hl.
  specialize (H p Hp). rewrite forallb_forall in H.
  specialize (H link Hl). rewrite forallb_forall in H.
  specialize (H vs (slot_values_elem _ _ Hs)). rewrite forallb_forall in H.
  exact (H vt (slot_values_elem _ _ Ht)).
Qed.

(** ** Moves on well-formed arrays *)

Lemma is_active_ext p d d' :
  d !! index p = d' !! index p → is_active p d = is_active p d'.
Proof.
  intros H. unfold is_active, Regular.is_active, Home.is_active.
  destruct (kind p); by rewrite H.
Qed.

Lemma wf_data_loc d p :
  wf_data d → p ∈ locations →
  ∃ v, d !! index p = Some v ∧ 0 ≤ v ≤ slot_bound (index p).
Proof.
  intros Hwf [Hi _]%locations_index. by apply wf_data_lookup.
Qed.

Lemma accepted_links d a (ls acc : list (Location * Z)) :
  (∀ link, link ∈ ls → is_Some (d !! index link.1)) →
  ∃ res,
    for_each (λ result link,
                b ← accepts link.1 d a;
                Some (if b : bool then result ++ [link] else result))
             acc ls = Some res ∧
    ∀ link, link ∈ res ↔
            link ∈ acc ∨ (link ∈ ls ∧ accepts link.1 d a = Some true).
Proof.
  revert acc. induction ls as [|l ls IH]; intros acc Hls.
  - exists acc. split; [done|]. intros link. rewrite elem_of_nil. tauto.
  - destruct (Hls l) as [v Hv]; [by left|].
    cbn [for_each]. rewrite (accepts_slot _ _ _ Hv). cbn [mbind option_bind].
    destruct (IH (if slot_accepts (kind l.1) v a then acc ++ [l] else acc))
      as (res & Hres & Hin); [intros; apply Hls; by right|].
    exists res. split; [done|]. intros link. rewrite Hin, elem_of_cons.
    destruct (slot_accepts (kind l.1) v a) eqn:Hacc.
    + rewrite elem_of_app, list_elem_of_singleton. split.
      * intros [[?| ->]|[? ?]]; [tauto| |tauto].
        right. split; [by left|]. by rewrite (accepts_slot _ _ _ Hv), Hacc.
      * intros [?|[[->|?] ?]]; tauto.
    + split; [tauto|]. intros [?|[[->|?] Hl]]; [tauto| |tauto].
      rewrite (accepts_slot _ _ _ Hv), Hacc in Hl. discriminate Hl.
Qed.

Lemma candidate_moves_total d p :
  wf_data d → p ∈ locations → is_Some (candidate_moves board_links p d).
Proof.
  intros Hwf Hp. destruct (wf_data_loc d p Hwf Hp) as (v & Hv & _).
  unfold candidate_moves. rewrite (get_slot _ _ _ Hv). cbn [mbind option_bind].
  destruct (slot_get (kind p) v =? 0); [by eexists|].
  destruct (accepted_links d (slot_get (kind p) v)
              (links_of board_links p) []) as (res & Hres & _).
  - intros link Hl.
  destruct (wf_data_loc d link.1 Hwf (links_target _ _ Hp Hl)) as (? & ? & _).
  by eexists.
  - rewrite Hres. by eexists.
Qed.
Lemma candidate_moves_elem d p vs moves link :
  wf_data d → p ∈ locations → d !! index p = Some vs →
  candidate_moves board_links p d = Some moves → link ∈ moves →
  link ∈ links_of board_links p ∧
  ∃ vt, d !! index link.1 = Some vt ∧
        0 ≤ vt ≤ slot_bound (index link.1) ∧
        slot_accepts (kind link.1) vt (slot_get (kind p) vs) = true.
Proof.
  intros Hwf Hp Hv Hm Hl. unfold candidate_moves in Hm.
  rewrite (get_slot _ _ _ Hv) in Hm. cbn [mbind option_bind] in Hm.
  destruct (slot_get (kind p) vs =? 0).
  { injection Hm as <-. by inversion Hl. }
  destruct (accepted_links d (slot_get (kind p) vs)
              (links_of board_links p) []) as (res & Hres & Hin).
  { intros l Hl'.
    destruct (wf_data_loc d l.1 Hwf (links_target _ _ Hp Hl')) as (? & ? & _).
    by eexists. }
  rewrite Hres in Hm. injection Hm as ->.
  destruct (proj1 (Hin link) Hl) as [Hl'|[Hl' Hacc]]; [by inversion Hl'|].
  clear Hl. rename Hl' into Hl.
  split; [exact Hl|].
  destruct (wf_data_loc d link.1 Hwf (links_target _ _ Hp Hl))
    as (vt & Hvt & Hb).
  exists vt. split; [exact Hvt|]. split; [exact Hb|].
  rewrite (accepts_slot _ _ _ Hvt) in Hacc. by injection Hacc.
Qed.
(** A candidate move of an active source on a well-formed array: what
    [apply_move] returns and what it guarantees. *)
Lemma apply_move_wf d p moves link :
  wf_data d → p ∈ locations → is_active p d = Some true →
  candidate_moves board_links p d = Some moves → link ∈ moves →
  ∃ d' cost vs' vt',
    apply_move p link.1 link.2 d = Some (d', cost) ∧
    d' = <[index link.1 := vt']> (<[index p := vs']> d) ∧
    index p ≠ index link.1 ∧
    link.1 ∈ locations ∧
    wf_data d' ∧
    0 < cost ≤ 4000 ∧
    h d ≤ cost + h d' ∧
    (is_active link.1 d = Some true → is_active link.1 d' = Some true).
Proof.
  intros Hwf Hp Hact Hm Hl.
  destruct (wf_data_loc d p Hwf Hp) as (vs & Hvs & Hbs).
  destruct (candidate_moves_elem d p vs moves link Hwf Hp Hvs Hm Hl)
    as (Hlink & vt & Hvt & Hbt & Hacc).
  pose proof (links_target _ _ Hp Hlink) as Ht.
  pose proof (all_moves_ok p link vs vt Hp Hlink Hbs Hbt) as Hok.
  rewrite (is_active_slot _ _ _ Hvs) in Hact. injection Hact as Hact.
  unfold move_ok in Hok. rewrite Hact, Hacc in Hok. cbn [andb] in Hok.
  destruct (slot_put (kind p) vs 0) as [vs' x1] eqn:Hps.
  destruct (slot_put (kind link.1) vt (slot_get (kind p) vs))
    as [vt' x2] eqn:Hpt.
  rewrite !andb_true_iff, !Z.leb_le, !Z.ltb_lt, negb_true_iff,
    Nat.eqb_neq in Hok.
  destruct Hok as ((((((((((? & ?) & ?) & ?) & ?) & ?) & ?) & ?) & Hh) & Himp)
                   & Hne).
  assert ((<[index p := vs']> d) !! index link.1 = Some vt) as Hvt'
    by (by rewrite list_lookup_insert_ne).
  exists (<[index link.1 := vt']> (<[index p := vs']> d)),
    (10 ^ (slot_get (kind p) vs - 1) * (link.2 + x1 + x2)), vs', vt'.
  split; [|repeat split]; try done.
  - unfold apply_move. rewrite (get_slot _ _ _ Hvs). cbn [mbind option_bind].
    unfold py_pow10. destruct (_ <? 0) eqn:Hlt; [lia|].
    cbn [mbind option_bind].
    rewrite (put_slot _ _ _ Hvs), Hps. cbn [mbind option_bind fst snd].
    rewrite (put_slot _ _ _ Hvt'), Hpt. reflexivity.
  - by repeat apply wf_data_insert.
  - rewrite (h_insert _ _ _ _ Hvt'), (h_insert _ _ _ _ Hvs). lia.
  - rewrite (is_active_slot _ _ _ Hvt).
    rewrite (is_active_slot _ (<[index link.1 := vt']> _) vt').
    + intros [= Ha]. rewrite Ha in Himp. simpl in Himp. by rewrite Himp.
    + apply list_lookup_insert_eq. rewrite length_insert.
      by apply lookup_lt_Some in Hvt.
Qed.

(** ** The active set *)

Lemma active_set_gen d (ls : list Location) (s0 : gset nat) :
  (∀ p, p ∈ ls → is_Some (d !! index p)) →
  ∃ s,
    for_each (λ s p, b ← is_active p d;
                     Some (if b : bool then s ∪ {[index p]} else s))
             s0 ls = Some s ∧
    ∀ i, i ∈ s ↔
         i ∈ s0 ∨ ∃ p, p ∈ ls ∧ index p = i ∧ is_active p d = Some true.
Proof.
  revert s0. induction ls as [|q ls IH]; intros s0 Hls.
  - exists s0. split; [reflexivity|]. intros i. split; [by left|].
    intros [?|(p & Hp & _)]; [done | by inversion Hp].
  - destruct (Hls q) as [v Hv]; [by left|].
    cbn [for_each]. rewrite (is_active_slot _ _ _ Hv).
    cbn [mbind option_bind].
    destruct (IH (if slot_is_active (kind q) v then s0 ∪ {[index q]} else s0))
      as (s & Hs & Hin); [intros; apply Hls; by right|].
    exists s. split; [exact Hs|]. intros i. rewrite (Hin i). clear Hin Hs IH.
    destruct (slot_is_active (kind q) v) eqn:Hq.
    + rewrite elem_of_union, elem_of_singleton. split.
      * intros [[?| ->]|(p & Hp & Hi & Ha)].
        -- by left.
        -- right. exists q. split; [by left|]. split; [done|].
           by rewrite (is_active_slot _ _ _ Hv), Hq.
        -- right. exists p. split; [by right | done].
      * intros [?|(p & Hp & Hi & Ha)]; [by left; left|].
        inversion Hp; subst.
        -- left; by right.
        -- right. by exists p.
    + split.
      * intros [?|(p & Hp & Hi & Ha)]; [by left|].
        right. exists p. split; [by right | done].
      * intros [?|(p & Hp & Hi & Ha)]; [by left|].
        inversion Hp; subst.
        -- rewrite (is_active_slot _ _ _ Hv), Hq in Ha. discriminate Ha.
        -- right. by exists p.
Qed.

Lemma active_set_wf d :
  wf_data d →
  ∃ s, active_set d = Some s ∧
       ∀ p, p ∈ locations → index p ∈ s ↔ is_active p d = Some true.
Proof.
  intros Hwf. destruct (active_set_gen d locations ∅) as (s & Hs & Hin).
  { intros p Hp. destruct (wf_data_loc d p Hwf Hp) as (v & Hv & _).
    by exists v. }
  exists s. split; [exact Hs|]. intros p Hp. rewrite (Hin (index p)). split.
  - intros [Hi|(q & Hq & Hi & Ha)]; [by apply not_elem_of_empty in Hi|].
    apply locations_index in Hp as [_ Hp], Hq as [_ Hq].
    rewrite Hi, Hp in Hq. by injection Hq as ->.
  - intros Ha. right. by exists p.
Qed.

Lemma active_set_bound d s i :
  wf_data d → active_set d = Some s → i ∈ s →
  ∃ p, p ∈ locations ∧ index p = i ∧ is_active p d = Some true.
Proof.
  intros Hwf Hs Hi. destruct (active_set_gen d locations ∅) as (s' & Hs' & Hin).
  { intros p Hp. destruct (wf_data_loc d p Hwf Hp) as (v & Hv & _).
    by exists v. }
  unfold active_set in Hs. rewrite Hs in Hs'. injection Hs' as <-.
  destruct (proj1 (Hin i) Hi) as [Hi'|Hp]; [by apply not_elem_of_empty in Hi'|].
  exact Hp.
Qed.

Lemma is_active_total d p :
  wf_data d → p ∈ locations → is_Some (is_active p d).
Proof.
  intros Hwf Hp. destruct (wf_data_loc d p Hwf Hp) as (v & Hv & _).
  rewrite (is_active_slot _ _ _ Hv). by eexists.
Qed.

(** ** Successors *)

(** The invariant of a state: its array is well formed and its set of
    active locations is the one computed from the array. *)
Definition state_ok (st : State) : Prop :=
  wf_data (data st) ∧ active_set (data st) = Some (active_locations st).

Lemma successor_wf st energy p moves link :
  state_ok st → p ∈ locations → index p ∈ active_locations st →
  candidate_moves board_links p (data st) = Some moves → link ∈ moves →
  ∃ d' cost act',
    apply_move p link.1 link.2 (data st) = Some (d', cost) ∧
    is_active p (data st) = Some true ∧
    successor st energy p link
    = Some (h d' + (energy + cost), energy + cost,
            {| data := d'; active_locations := act' |}) ∧
    state_ok {| data := d'; active_locations := act' |} ∧
    0 < cost ≤ 4000 ∧
    h (data st) ≤ cost + h d'.
Proof.
  intros [Hwf Hact] Hp Hsrc Hm Hl.
  destruct (active_set_wf _ Hwf) as (s & Hs & Hchar).
  rewrite Hact in Hs. injection Hs as <-.
  pose proof (proj1 (Hchar p Hp) Hsrc) as Hpa.
  destruct (apply_move_wf _ _ _ _ Hwf Hp Hpa Hm Hl)
    as (d' & cost & vs' & vt' & Happ & Hd' & Hne & Ht & Hwf' & Hcost & Hh
        & Hkeep).
  destruct (is_active_total d' p Hwf' Hp) as [sa Hsa].
  destruct (is_active_total d' link.1 Hwf' Ht) as [ta Hta].
  destruct (active_set_wf _ Hwf') as (s' & Hs' & Hchar').
  set (act1 := if sa then active_locations st
               else active_locations st ∖ {[index p]}).
  set (act2 := if ta then act1 ∪ {[index link.1]} else act1).
  exists d', cost, act2. split; [exact Happ|]. split; [exact Hpa|].
  split; [|split; [split|split]]; try assumption.
  - unfold successor, clone. cbn [data active_locations].
    rewrite Happ. cbn [mbind option_bind]. rewrite Hsa.
    cbn [mbind option_bind].
    assert ((if sa then Some (active_locations st)
             else set_remove (active_locations st) (index p)) = Some act1)
      as ->.
    { unfold act1, set_remove. destruct sa; [done|].
      by rewrite decide_True. }
    cbn [mbind option_bind]. rewrite Hta. cbn [mbind option_bind].
    rewrite (get_estimation_wf _ Hwf'). reflexivity.
  - cbn [data active_locations]. rewrite Hs'. f_equal.
    apply set_eq. intros i.
    destruct (active_set_gen d' locations ∅) as (s'' & Hs'' & Hin').
    { intros q Hq. destruct (wf_data_loc d' q Hwf' Hq) as (v & Hv & _).
      by exists v. }
    unfold active_set in Hs'. rewrite Hs' in Hs''. injection Hs'' as <-.
    destruct (active_set_gen (data st) locations ∅) as (s0 & Hs0 & Hin).
    { intros q Hq. destruct (wf_data_loc _ q Hwf Hq) as (v & Hv & _).
      by exists v. }
    unfold active_set in Hact. rewrite Hact in Hs0. injection Hs0 as <-.
    destruct (decide (i = index p)) as [->|Hip].
    { rewrite (Hchar' p Hp), Hsa. unfold act2, act1.
      destruct ta, sa; rewrite ?elem_of_union, ?elem_of_difference,
        ?elem_of_singleton; split; intros; try done; try tauto. }
    destruct (decide (i = index link.1)) as [->|Hit].
    { rewrite (Hchar' _ Ht), Hta. unfold act2, act1.
      destruct ta; rewrite ?elem_of_union, ?elem_of_singleton.
      - tauto.
      - split; [done|]. intros Hi.
        assert (index link.1 ∈ active_locations st) as Hi'
          by (destruct sa; [done | by apply elem_of_difference in Hi as [? _]]).
        apply (Hchar _ Ht), Hkeep in Hi'. congruence. }
    assert (i ∈ act2 ↔ i ∈ active_locations st) as ->.
    { unfold act2, act1.
      destruct ta, sa; rewrite ?elem_of_union, ?elem_of_difference,
        ?elem_of_singleton; tauto. }
    rewrite (Hin' i), (Hin i).
    assert (∀ q, index q = i → is_active q d' = is_active q (data st)) as Hext.
    { intros q Hq. apply is_active_ext. rewrite Hd'.
      rewrite !list_lookup_insert_ne by congruence. reflexivity. }
    split; (intros [Hi|(q & Hq & Hqi & Hqa)];
            [by apply not_elem_of_empty in Hi|]);
      right; exists q; (split; [done|]); (split; [done|]).
    + by rewrite <- (Hext q Hqi).
    + by rewrite (Hext q Hqi).
Qed.

(** The entries that [expand] pushes for a state popped at [energy]. *)
Definition is_successor (st : State) (energy : Z) (x : Entry) : Prop :=
  ∃ p moves link,
    p ∈ locations ∧ index p ∈ active_locations st ∧
    candidate_moves board_links p (data st) = Some moves ∧
    link ∈ moves ∧ successor st energy p link = Some x.

Lemma push_moves st energy p (moves : list (Location * Z)) todo :
  (∀ link, link ∈ moves → is_Some (successor st energy p link)) →
  ∃ news,
    for_each (λ todo link,
                e ← successor st energy p link; Some (pq_put e todo))
             todo moves = Some (news ++ todo) ∧
    ∀ x, x ∈ news ↔
         ∃ link, link ∈ moves ∧ successor st energy p link = Some x.
Proof.
  revert todo. induction moves as [|l moves IH]; intros todo Hall.
  - exists []. split; [reflexivity|]. intros x. split.
    + intros Hx. by inversion Hx.
    + intros (link & Hl & _). by inversion Hl.
  - destruct (Hall l) as [e He]; [by left|].
    cbn [for_each]. rewrite He. cbn [mbind option_bind].
    destruct (IH (pq_put e todo)) as (news & Hn & Hin).
    { intros link Hl. apply Hall. by right. }
    exists (news ++ [e]). split.
    + rewrite Hn. unfold pq_put. by rewrite <- app_assoc.
    + intros x. rewrite elem_of_app, (Hin x), list_elem_of_singleton. split.
      * intros [(link & Hl & Hs)| ->].
        -- exists link. split; [by right | done].
        -- exists l. split; [by left | done].
      * intros (link & Hl & Hs). inversion Hl; subst.
        -- right. congruence.
        -- left. by exists link.
Qed.

Lemma push_sources st energy (srcs : list nat) todo :
  (∀ i, i ∈ srcs →
        ∃ p moves, locations !! i = Some p ∧
                   candidate_moves board_links p (data st) = Some moves ∧
                   ∀ link, link ∈ moves →
                           is_Some (successor st energy p link)) →
  ∃ news,
    for_each (λ todo i,
                source ← locations !! i;
                moves ← candidate_moves board_links source (data st);
                for_each (λ todo link,
                            e ← successor st energy source link;
                            Some (pq_put e todo))
                         todo moves)
             todo srcs = Some (news ++ todo) ∧
    ∀ x, x ∈ news ↔
         ∃ i p moves link,
           i ∈ srcs ∧ locations !! i = Some p ∧
           candidate_moves board_links p (data st) = Some moves ∧
           link ∈ moves ∧ successor st energy p link = Some x.
Proof.
  revert todo. induction srcs as [|j srcs IH]; intros todo Hall.
  - exists []. split; [reflexivity|]. intros x. split.
    + intros Hx. by inversion Hx.
    + intros (i & ? & ? & ? & Hi & _). by inversion Hi.
  - destruct (Hall j) as (p & moves & Hp & Hm & Hsucc); [by left|].
    cbn [for_each]. rewrite Hp. cbn [mbind option_bind].
    rewrite Hm. cbn [mbind option_bind].
    destruct (push_moves st energy p moves todo Hsucc) as (n1 & Hn1 & Hin1).
    rewrite Hn1. cbn [mbind option_bind].
    destruct (IH (n1 ++ todo)) as (n2 & Hn2 & Hin2).
    { intros i Hi. apply Hall. by right. }
    exists (n2 ++ n1). split.
    + rewrite Hn2. by rewrite <- app_assoc.
    + intros x. rewrite elem_of_app, (Hin1 x), (Hin2 x). split.
      * intros [(i & q & ms & link & Hi & Hq & Hms & Hl & Hs)
               |(link & Hl & Hs)].
        -- exists i, q, ms, link. split; [by right | done].
        -- exists j, p, moves, link. split; [by left | done].
      * intros (i & q & ms & link & Hi & Hq & Hms & Hl & Hs).
        inversion Hi; subst.
        -- right. exists link. rewrite Hp in Hq. injection Hq as <-.
           rewrite Hm in Hms. injection Hms as <-. done.
        -- left. by exists i, q, ms, link.
Qed.

Lemma expand_wf st energy rest :
  state_ok st →
  ∃ news,
    expand board_links st energy rest = Some (news ++ rest) ∧
    ∀ x, x ∈ news ↔ is_successor st energy x.
Proof.
  intros Hok. pose proof Hok as [Hwf Hact].
  destruct (push_sources st energy (elements (active_locations st)) rest)
    as (news & Hn & Hin).
  { intros i Hi. apply elem_of_elements in Hi.
    destruct (active_set_bound _ _ _ Hwf Hact Hi) as (p & Hp & Hpi & Hpa).
    destruct (candidate_moves_total _ p Hwf Hp) as [moves Hm].
    exists p, moves. split; [|split; [exact Hm|]].
    - apply locations_index in Hp as [_ Hp]. by rewrite <- Hpi.
    - intros link Hl. rewrite <- Hpi in Hi.
      destruct (successor_wf st energy p moves link Hok Hp Hi Hm Hl)
        as (? & ? & ? & _ & _ & Hs & _).
      rewrite Hs. by eexists. }
  exists news. split; [exact Hn|]. intros x. rewrite (Hin x).
  unfold is_successor. split.
  - intros (i & p & moves & link & Hi & Hp & Hm & Hl & Hs).
    exists p, moves, link. apply elem_of_elements in Hi.
    pose proof (locations_lookup _ _ Hp) as Hpi.
    split; [by eapply list_elem_of_lookup_2|]. split; [by rewrite Hpi|]. done.
  - intros (p & moves & link & Hp & Hi & Hm & Hl & Hs).
    exists (index p), p, moves, link.
    split; [by apply elem_of_elements|].
    split; [by apply locations_index in Hp as [_ Hp]|]. done.
Qed.

Lemma successor_move st energy x :
  state_ok st → is_successor st energy x →
  ∃ cost st',
    x = (h (data st') + (energy + cost), energy + cost, st') ∧
    legal_move (data st) cost (data st') ∧
    state_ok st' ∧ 0 < cost ≤ 4000 ∧ h (data st) ≤ cost + h (data st').
Proof.
  intros Hok (p & moves & link & Hp & Hi & Hm & Hl & Hs).
  destruct (successor_wf st energy p moves link Hok Hp Hi Hm Hl)
    as (d' & cost & act' & Happ & Hpa & Hs' & Hok' & Hcost & Hh).
  rewrite Hs' in Hs. injection Hs as <-.
  exists cost, {| data := d'; active_locations := act' |}.
  split; [reflexivity|]. split; [|done].
  by exists p, moves, link.
Qed.

Lemma move_successor st energy cost d' :
  state_ok st → legal_move (data st) cost d' →
  ∃ st', data st' = d' ∧
         is_successor st energy (h d' + (energy + cost), energy + cost, st').
Proof.
  intros Hok (p & moves & link & Hp & Hpa & Hm & Hl & Happ).
  pose proof Hok as [Hwf Hact].
  destruct (active_set_wf _ Hwf) as (s & Hs & Hchar).
  rewrite Hact in Hs. injection Hs as <-.
  pose proof (proj2 (Hchar p Hp) Hpa) as Hi.
  destruct (successor_wf st energy p moves link Hok Hp Hi Hm Hl)
    as (d'' & cost' & act' & Happ' & _ & Hs' & _).
  rewrite Happ in Happ'. injection Happ' as <- <-.
  exists {| data := d'; active_locations := act' |}. split; [reflexivity|].
  by exists p, moves, link.
Qed.

Lemma legal_move_wf d cost d' :
  wf_data d → legal_move d cost d' →
  wf_data d' ∧ 0 < cost ≤ 4000 ∧ h d ≤ cost + h d'.
Proof.
  intros Hwf (p & moves & link & Hp & Hpa & Hm & Hl & Happ).
  destruct (apply_move_wf _ _ _ _ Hwf Hp Hpa Hm Hl)
    as (d'' & cost' & vs' & vt' & Happ' & _ & _ & _ & Hwf' & Hcost & Hh & _).
  rewrite Happ in Happ'. by injection Happ' as <- <-.
Qed.

(** ** Paths *)

Lemma path_snoc d c d' c' d'' :
  path d c d' → legal_move d' c' d'' → path d (c + c') d''.
Proof.
  intros Hp Hm. induction Hp as [d|d c1 d1 c2 d2 Hm1 Hp IH].
  - replace (0 + c') with (c' + 0) by lia. eapply path_cons; [done|].
    apply path_nil.
  - replace (c1 + c2 + c') with (c1 + (c2 + c')) by lia.
    eapply path_cons; [done|]. by apply IH.
Qed.

Lemma path_app d c d' c' d'' :
  path d c d' → path d' c' d'' → path d (c + c') d''.
Proof.
  intros Hp Hq. induction Hp as [d|d c1 d1 c2 d2 Hm1 Hp IH].
  - by replace (0 + c') with c' by lia.
  - replace (c1 + c2 + c') with (c1 + (c2 + c')) by lia.
    eapply path_cons; [done|]. by apply IH.
Qed.

Lemma path_wf d c d' :
  wf_data d → path d c d' → wf_data d' ∧ 0 ≤ c ∧ h d ≤ c + h d'.
Proof.
  intros Hwf Hp. induction Hp as [d|d c1 d1 c2 d2 Hm1 Hp IH].
  - repeat split; [done | lia | lia].
  - destruct (legal_move_wf _ _ _ Hwf Hm1) as (Hwf1 & Hc & Hh).
    destruct (IH Hwf1) as (Hwf2 & Hc2 & Hh2). repeat split; [done | lia | lia].
Qed.

(** ** Goal arrays *)

Lemma contrib_inactive i p v :
  locations !! i = Some p → 0 ≤ v ≤ slot_bound i →
  slot_is_active (kind p) v = false → contrib i v = 0.
Proof.
  intros Hp Hb Ha.
  assert (i < 15)%nat as Hi by (by apply lookup_lt_Some in Hp).
  assert (forallb (λ i, match locations !! i with
                        | Some p =>
                            forallb (λ v, slot_is_active (kind p) v
                                          || (contrib i v =? 0))
                                    (slot_values i)
                        | None => false
                        end) (seq 0 15) = true) as H
    by (vm_compute; reflexivity).
  rewrite forallb_forall in H.
  assert (In i (seq 0 15)) as Hin by (apply in_seq; lia).
  specialize (H i Hin). rewrite Hp in H. rewrite forallb_forall in H.
  specialize (H v (slot_values_elem _ _ Hb)).
  rewrite Ha in H. simpl in H. by apply Z.eqb_eq in H.
Qed.

Lemma h_goal d : wf_data d → is_goal d → h d = 0.
Proof.
  intros Hwf Hg. unfold is_goal in Hg.
  destruct (active_set_wf _ Hwf) as (s & Hs & Hchar).
  rewrite Hg in Hs. injection Hs as <-.
  pose proof Hwf as [Hl Hb]%wf_data_spec.
  assert (∀ i v, d !! i = Some v → contrib i v = 0) as Hc.
  { intros i v Hv.
    assert (i < 15)%nat as Hi by (apply lookup_lt_Some in Hv; lia).
    destruct (locations_lookup_lt i Hi) as (p & Hpi & Hp).
    apply (contrib_inactive i p v Hpi (Hb i v Hv)).
    pose proof (locations_lookup _ _ Hpi) as Hidx.
    pose proof (Hchar p Hp) as Hch. rewrite <- Hidx in Hv.
    rewrite (is_active_slot _ _ _ Hv) in Hch.
    destruct (slot_is_active (kind p) v); [|done].
    assert (index p ∈ (∅ : gset nat)) as Hin by (by apply Hch).
    by apply not_elem_of_empty in Hin. }
  clear Hchar Hb Hwf Hg.
  do 16 (destruct d as [|? d]; try discriminate Hl).
  unfold h, hsum.
  rewrite (Hc 0%nat _ eq_refl), (Hc 1%nat _ eq_refl), (Hc 2%nat _ eq_refl),
    (Hc 3%nat _ eq_refl), (Hc 4%nat _ eq_refl), (Hc 5%nat _ eq_refl),
    (Hc 6%nat _ eq_refl), (Hc 7%nat _ eq_refl), (Hc 8%nat _ eq_refl),
    (Hc 9%nat _ eq_refl), (Hc 10%nat _ eq_refl), (Hc 11%nat _ eq_refl),
    (Hc 12%nat _ eq_refl), (Hc 13%nat _ eq_refl), (Hc 14%nat _ eq_refl).
  reflexivity.
Qed.

(** ** The priority queue *)

Lemma entry_ltb_est x y : entry_ltb x y = true → x.1.1 ≤ y.1.1.
Proof.
  destruct x as [[est1 e1] s1], y as [[est2 e2] s2]. simpl.
  intros [?%Z.ltb_lt|[?%Z.eqb_eq _]%andb_true_iff]%orb_true_iff; lia.
Qed.

Lemma entry_ltb_est_false x y : entry_ltb x y = false → y.1.1 ≤ x.1.1.
Proof.
  destruct x as [[est1 e1] s1], y as [[est2 e2] s2]. simpl.
  intros [?%Z.ltb_ge _]%orb_false_iff. lia.
Qed.

Lemma pq_get_None q : pq_get q = None → q = [].
Proof.
  destruct q as [|x q]; [done|]. simpl.
  destruct (pq_get q) as [[m r]|]; [|done]. by destruct (entry_ltb m x).
Qed.

(** [get] removes one entry, and no remaining entry has a smaller
    estimate. *)
Lemma pq_get_Some q m r :
  pq_get q = Some (m, r) →
  q ≡ₚ m :: r ∧ ∀ y, y ∈ r → m.1.1 ≤ y.1.1.
Proof.
  revert m r. induction q as [|x q IH]; intros m r Hq; [done|].
  simpl in Hq. destruct (pq_get q) as [[m' r']|] eqn:Hq'.
  - destruct (IH m' r' eq_refl) as [Hperm Hmin].
    destruct (entry_ltb m' x) eqn:Hlt; injection Hq as <- <-.
    + split.
      * rewrite Hperm. apply perm_swap.
      * intros y Hy. inversion Hy; subst; [by apply entry_ltb_est|].
        by apply Hmin.
    + split; [done|]. intros y Hy. rewrite Hperm in Hy.
      apply entry_ltb_est_false in Hlt.
      inversion Hy; subst; [done|].
      specialize (Hmin y ltac:(done)). lia.
  - injection Hq as <- <-. apply pq_get_None in Hq' as ->.
    split; [done|]. intros y Hy. by inversion Hy.
Qed.

Lemma pq_get_elem q m r x :
  pq_get q = Some (m, r) → x ∈ q ↔ x = m ∨ x ∈ r.
Proof.
  intros [Hperm _]%pq_get_Some. rewrite Hperm. apply elem_of_cons.
Qed.


(** ** One iteration *)

(** The three ways through the body of the loop: the queue is empty, the
    popped entry is discarded, or it is recorded and expanded. *)
Lemma iteration_cases c :
  (∀ x, x ∈ todo c → state_ok x.2) →
  match pq_get (todo c) with
  | None => iteration board_links c = Exit (result c)
  | Some ((est, e, st), rest) =>
      ((result c ≤ est ∨ ∃ p, states c !! data st = Some p ∧ p ≤ e) ∧
       iteration board_links c
       = Continue {| result := result c; states := states c; todo := rest |})
      ∨
      (est < result c ∧
       (∀ p, states c !! data st = Some p → e < p) ∧
       ∃ news,
         (∀ x, x ∈ news ↔ is_successor st e x) ∧
         iteration board_links c
         = Continue
             {| result :=
                  if bool_decide (size (active_locations st) = 0%nat)
                     && (e <? result c)
                  then e else result c;
                states := <[data st := e]> (states c);
                todo := news ++ rest |})
  end.
Proof.
  intros Hok. unfold iteration.
  destruct (pq_get (todo c)) as [[[[est e] st] rest]|] eqn:Hpop; [|done].
  destruct (result c <=? est) eqn:Hres.
  { left. split; [left; lia | done]. }
  destruct (states c !! data st) as [p|] eqn:Hprev.
  - destruct (p <=? e) eqn:Hle.
    { left. split; [right; exists p; split; [done | lia] | done]. }
    right. split; [lia|]. split; [intros ? [= <-]; lia|].
    destruct (expand_wf st e rest) as (news & Hex & Hin).
    { apply (Hok (est, e, st)). apply (pq_get_elem _ _ _ _ Hpop). by left. }
    exists news. split; [done|]. by rewrite Hex.
  - right. split; [lia|]. split; [done|].
    destruct (expand_wf st e rest) as (news & Hex & Hin).
    { apply (Hok (est, e, st)). apply (pq_get_elem _ _ _ _ Hpop). by left. }
    exists news. split; [done|]. by rewrite Hex.
Qed.

(** ** Invariants of the loop *)

Lemma two_63 : 2 ^ 63 = 9223372036854775808.
Proof. reflexivity. Qed.

Section search.
Variable d0 : list Z.
Hypothesis Hwf0 : wf_data d0.

(** A frontier entry: the state is consistent, the estimate is the energy
    plus the heuristic, and the energy is that of a sequence of legal
    moves from the initial array. *)
Definition entry_ok (x : Entry) : Prop :=
  state_ok x.2 ∧ x.1.1 = h (data x.2) + x.1.2 ∧ path d0 x.1.2 (data x.2).

Record inv (c : Config) : Prop := {
  inv_todo : ∀ x, x ∈ todo c → entry_ok x;
  inv_result :
    result c = 2 ^ 63 ∨
    (result c < 2 ^ 63 ∧ ∃ g, is_goal g ∧ path d0 (result c) g);
  inv_states : ∀ d e, states c !! d = Some e → path d0 e d;
  inv_mono :
    ∀ d p x, states c !! d = Some p → x ∈ todo c → p + h d ≤ x.1.1
}.

Lemma inv_state_ok c : inv c → ∀ x, x ∈ todo c → state_ok x.2.
Proof. intros Hinv x Hx. by destruct (inv_todo c Hinv x Hx). Qed.

Lemma initial_wf :
  ∃ act, initial d0
         = Some {| result := 2 ^ 63; states := ∅;
                   todo := [(h d0, 0,
                             {| data := d0; active_locations := act |})] |}
         ∧ state_ok {| data := d0; active_locations := act |}.
Proof using Hwf0.
  destruct (active_set_wf d0 Hwf0) as (act & Hact & _).
  exists act. split; [|by split].
  unfold initial. rewrite (get_estimation_wf _ Hwf0).
  cbn [mbind option_bind]. rewrite Hact. reflexivity.
Qed.

Lemma inv_initial c0 : initial d0 = Some c0 → inv c0.
Proof using Hwf0.
  destruct initial_wf as (act & Hinit & Hok). rewrite Hinit.
  intros [= <-]. split; cbn [todo result states].
  - intros x ->%list_elem_of_singleton. split; [done|]. split; simpl.
    + lia.
    + apply path_nil.
  - by left.
  - intros d e He. by rewrite lookup_empty in He.
  - intros d p x Hp. by rewrite lookup_empty in Hp.
Qed.

Lemma successor_entry_ok est e st x :
  entry_ok (est, e, st) → is_successor st e x →
  entry_ok x ∧ est ≤ x.1.1 ∧ e < x.1.2.
Proof.
  intros (Hok & Hest & Hpath) Hs. simpl in *.
  destruct (successor_move st e x Hok Hs)
    as (cost & st' & -> & Hm & Hok' & Hcost & Hh).
  split; [split; [done | split]|]; simpl.
  - lia.
  - by eapply path_snoc.
  - lia.
Qed.

Lemma inv_step c c' : inv c → loop_step c c' → inv c'.
Proof.
  intros Hinv Hstep. unfold loop_step in Hstep.
  pose proof (iteration_cases c (inv_state_ok c Hinv)) as Hcases.
  destruct (pq_get (todo c)) as [[[[est e] st] rest]|] eqn:Hpop;
    [|by rewrite Hcases in Hstep].
  pose proof (λ x, pq_get_elem _ _ _ x Hpop) as Hel.
  destruct (pq_get_Some _ _ _ Hpop) as [_ Hmin].
  assert (entry_ok (est, e, st)) as Hpopped
    by (apply (inv_todo c Hinv), Hel; by left).
  destruct Hcases as [[_ Hit]|(Hlt & Hprev & news & Hnews & Hit)];
    rewrite Hit in Hstep; injection Hstep as <-.
  - split; cbn [todo result states].
    + intros x Hx. apply (inv_todo c Hinv), Hel. by right.
    + apply (inv_result c Hinv).
    + apply (inv_states c Hinv).
    + intros d p x Hp Hx. apply (inv_mono c Hinv d p x Hp), Hel. by right.
  - split; cbn [todo result states].
    + intros x [Hx|Hx]%elem_of_app.
      * by apply (successor_entry_ok est e st x Hpopped), Hnews.
      * apply (inv_todo c Hinv), Hel. by right.
    + destruct (bool_decide (size (active_locations st) = 0%nat))
        eqn:Hgoal; [|apply (inv_result c Hinv)].
      destruct (e <? result c) eqn:He; [|apply (inv_result c Hinv)].
      simpl. right. apply Z.ltb_lt in He. split.
      * destruct (inv_result c Hinv) as [?|[? _]]; lia.
      * exists (data st). destruct Hpopped as ([_ Hact] & _ & Hpath).
        split; [|done]. apply bool_decide_eq_true, size_empty_iff in Hgoal.
        unfold is_goal. simpl in Hact. rewrite Hact. f_equal.
        by apply leibniz_equiv.
    + intros d p. destruct (decide (data st = d)) as [<-|Hne].
      * rewrite lookup_insert_eq. intros [= <-]. apply Hpopped.
      * rewrite lookup_insert_ne by done. apply (inv_states c Hinv).
    + intros d p x Hp Hx.
      assert (p + h d ≤ est) as Hbase.
      { destruct (decide (data st = d)) as [<-|Hne].
        - rewrite lookup_insert_eq in Hp. injection Hp as <-.
          destruct Hpopped as (_ & Hest & _). simpl in Hest. lia.
        - rewrite lookup_insert_ne in Hp by done.
          apply (inv_mono c Hinv d p (est, e, st) Hp), Hel. by left. }
      apply elem_of_app in Hx as [Hx|Hx].
      * apply Hnews in Hx.
        destruct (successor_entry_ok est e st x Hpopped Hx) as (_ & ? & _).
        lia.
      * specialize (Hmin x Hx). simpl in Hmin. lia.
Qed.

Lemma inv_reachable c : reachable d0 c → inv c.
Proof using Hwf0.
  intros (c0 & Hinit & Hrtc). apply inv_initial in Hinit.
  induction Hrtc as [|c1 c2 c3 Hstep _ IH]; [done|].
  apply IH. by eapply inv_step.
Qed.

Lemma inv_no_raise c : inv c → iteration board_links c ≠ Raise.
Proof.
  intros Hinv.
  pose proof (iteration_cases c (inv_state_ok c Hinv)) as Hcases.
  destruct (pq_get (todo c)) as [[[[est e] st] rest]|];
    [|by rewrite Hcases].
  destruct Hcases as [[_ ->]|(_ & _ & ? & _ & ->)]; done.
Qed.
End search.

(** ** Termination *)

Lemma contrib_nonneg i v :
  (i < 15)%nat → 0 ≤ v ≤ slot_bound i → 0 ≤ contrib i v.
Proof.
  intros Hi Hb.
  assert (forallb (λ i, forallb (λ v, 0 <=? contrib i v) (slot_values i))
                  (seq 0 15) = true) as H by (vm_compute; reflexivity).
  rewrite forallb_forall in H.
  assert (In i (seq 0 15)) as Hin by (apply in_seq; lia).
  specialize (H i Hin). rewrite forallb_forall in H.
  specialize (H v (slot_values_elem _ _ Hb)). by apply Z.leb_le in H.
Qed.

Lemma hsum_nonneg i l :
  (∀ k v, l !! k = Some v → 0 ≤ contrib (i + k) v) → 0 ≤ hsum i l.
Proof.
  revert i. induction l as [|x l IH]; intros i H; simpl; [lia|].
  pose proof (H 0%nat x eq_refl) as H0. rewrite Nat.add_0_r in H0.
  assert (0 ≤ hsum (S i) l); [|lia].
  apply IH. intros k v Hk. replace (S i + k)%nat with (i + S k)%nat by lia.
  by apply H.
Qed.

Lemma h_nonneg d : wf_data d → 0 ≤ h d.
Proof.
  intros [Hl Hb]%wf_data_spec. apply hsum_nonneg. intros k v Hk. simpl.
  apply contrib_nonneg; [|by apply Hb].
  apply lookup_lt_Some in Hk. lia.
Qed.

(** The energies in the queue form a multiset that shrinks at every
    iteration: one energy is removed and, if it is below the bound, a few
    larger ones are added. *)
Section multiset_order.
Variable bound : Z.

Definition shrinks (l' l : list Z) : Prop :=
  ∃ e rest news,
    l ≡ₚ e :: rest ∧ l' ≡ₚ news ++ rest ∧
    (news = [] ∨ (e < bound ∧ ∀ n, n ∈ news → e < n)).

Lemma shrinks_perm l1 l2 l' : l1 ≡ₚ l2 → shrinks l' l2 → shrinks l' l1.
Proof.
  intros Hp (e & rest & news & H1 & H2 & H3).
  exists e, rest, news. split; [by rewrite Hp | done].
Qed.

Lemma Acc_shrinks_perm l1 l2 :
  l1 ≡ₚ l2 → Acc shrinks l1 → Acc shrinks l2.
Proof.
  intros Hp [H]. constructor. intros l' Hl'. apply H.
  by eapply shrinks_perm.
Qed.

Lemma Acc_shrinks_nil : Acc shrinks [].
Proof.
  constructor. intros l' (e & rest & news & H1 & _).
  by apply Permutation_nil_cons in H1.
Qed.

Lemma Acc_shrinks_app l1 l2 :
  Acc shrinks l1 → Acc shrinks l2 → Acc shrinks (l1 ++ l2).
Proof.
  intros H1. revert l2. induction H1 as [l1 H1 IH1].
  intros l2 H2. induction H2 as [l2 H2 IH2].
  constructor. intros l' (e & rest & news & Hl & Hl' & Hnews).
  assert (e ∈ l1 ++ l2) as He by (rewrite Hl; by left).
  apply elem_of_app in He as [He|He].
  - apply elem_of_Permutation in He as [r1 Hr1].
    assert (rest ≡ₚ r1 ++ l2) as Hrest.
    { apply (Permutation_cons_inv (a := e)). rewrite <- Hl, Hr1. done. }
    apply (Acc_shrinks_perm ((news ++ r1) ++ l2)).
    { by rewrite Hl', Hrest, app_assoc. }
    apply IH1; [|by constructor].
    by exists e, r1, news.
  - apply elem_of_Permutation in He as [r2 Hr2].
    assert (rest ≡ₚ l1 ++ r2) as Hrest.
    { apply (Permutation_cons_inv (a := e)). rewrite <- Hl, Hr2.
      by rewrite Permutation_middle. }
    apply (Acc_shrinks_perm (l1 ++ (news ++ r2))).
    { rewrite Hl', Hrest, !app_assoc.
      by rewrite (Permutation_app_comm l1 news). }
    apply IH2. by exists e, r2, news.
Qed.

Lemma Acc_shrinks_list l :
  (∀ e, e ∈ l → Acc shrinks [e]) → Acc shrinks l.
Proof.
  induction l as [|e l IH]; intros H; [apply Acc_shrinks_nil|].
  change (e :: l) with ([e] ++ l). apply Acc_shrinks_app.
  - apply H. by left.
  - apply IH. intros n Hn. apply H. by right.
Qed.

Lemma shrinks_singleton l' e :
  shrinks l' [e] →
  l' = [] ∨ (e < bound ∧ ∀ n, n ∈ l' → e < n).
Proof.
  intros (e' & rest & news & Hl & Hl' & Hnews).
  assert (e' = e ∧ rest = []) as [-> ->].
  { symmetry in Hl. apply Permutation_length in Hl as Hlen.
    destruct rest; [|done]. apply Permutation_singleton_r in Hl.
    by injection Hl as ->. }
  rewrite app_nil_r in Hl'.
  destruct Hnews as [->|[? Hn]].
  - left. by apply Permutation_nil_r in Hl'.
  - right. split; [done|]. intros n Hin. apply Hn. by rewrite <- Hl'.
Qed.

Lemma Acc_shrinks_singleton e : Acc shrinks [e].
Proof.
  destruct (decide (bound ≤ e)) as [Hge|Hlt].
  { constructor. intros l' [->|[? _]]%shrinks_singleton;
      [apply Acc_shrinks_nil | lia]. }
  assert (e ≤ bound) as He by lia. clear Hlt. revert He.
  induction (Z.gt_wf bound e) as [e _ IH]. intros He.
  constructor. intros l' [->|[Hlt Hn]]%shrinks_singleton;
    [apply Acc_shrinks_nil|].
  apply Acc_shrinks_list. intros n Hin. specialize (Hn n Hin).
  destruct (decide (bound ≤ n)) as [Hge|Hlt'].
  - constructor. intros l'' [->|[? _]]%shrinks_singleton;
      [apply Acc_shrinks_nil | lia].
  - apply IH; lia.
Qed.

Lemma shrinks_wf : well_founded shrinks.
Proof. intros l. apply Acc_shrinks_list. intros. apply Acc_shrinks_singleton. Qed.
End multiset_order.

Definition energies (c : Config) : list Z := (λ x : Entry, x.1.2) <$> todo c.

Lemma step_shrinks d0 c c' :
  inv d0 c → loop_step c c' → shrinks (2 ^ 63) (energies c') (energies c).
Proof.
  intros Hinv Hstep. unfold loop_step in Hstep.
  pose proof (iteration_cases c (inv_state_ok d0 c Hinv)) as Hcases.
  destruct (pq_get (todo c)) as [[[[est e] st] rest]|] eqn:Hpop;
    [|by rewrite Hcases in Hstep].
  destruct (pq_get_Some _ _ _ Hpop) as [Hperm _].
  assert (entry_ok d0 (est, e, st)) as (Hok & Hest & Hpath)
    by (apply (inv_todo d0 c Hinv); rewrite Hperm; by left).
  simpl in Hest, Hpath.
  exists e, ((λ x : Entry, x.1.2) <$> rest).
  destruct Hcases as [[_ Hit]|(Hlt & Hprev & news & Hnews & Hit)];
    rewrite Hit in Hstep; injection Hstep as <-.
  - exists []. unfold energies. cbn [todo]. split; [by rewrite Hperm|].
    split; [done | by left].
  - exists ((λ x : Entry, x.1.2) <$> news). unfold energies. cbn [todo].
    split; [by rewrite Hperm|]. split; [by rewrite fmap_app|].
    right. split.
    + destruct Hok as [Hwf _]. simpl in Hwf. pose proof (h_nonneg _ Hwf).
      destruct (inv_result d0 c Hinv) as [?|[? _]]; lia.
    + intros n (x & -> & Hx)%list_elem_of_fmap. apply Hnews in Hx.
      by destruct (successor_entry_ok d0 est e st x) as (_ & _ & ?).
Qed.

Lemma run_terminates d0 c :
  inv d0 c → ∃ fuel r, run board_links fuel c = Printed r.
Proof.
  intros Hinv.
  remember (energies c) as l eqn:Hl.
  revert c Hl Hinv. induction (shrinks_wf (2 ^ 63) l) as [l _ IH].
  intros c -> Hinv.
  destruct (iteration board_links c) as [r|c'|] eqn:Hit.
  - exists 1%nat, r. simpl. by rewrite Hit.
  - destruct (IH (energies c') (step_shrinks d0 c c' Hinv Hit) c' eq_refl)
      as (fuel & r & Hrun); [by eapply inv_step|].
    exists (S fuel), r. simpl. by rewrite Hit.
  - by apply inv_no_raise in Hinv.
Qed.

Lemma run_Printed fuel c r :
  run board_links fuel c = Printed r →
  ∃ cf, rtc loop_step c cf ∧ iteration board_links cf = Exit r.
Proof.
  revert c. induction fuel as [|fuel IH]; intros c Hrun; [done|].
  simpl in Hrun. destruct (iteration board_links c) as [r'|c'|] eqn:Hit.
  - injection Hrun as <-. by exists c.
  - destruct (IH c' Hrun) as (cf & Hrtc & Hcf). exists cf.
    split; [|done]. by eapply rtc_l.
  - done.
Qed.

Lemma iteration_Exit c r :
  iteration board_links c = Exit r → todo c = [] ∧ r = result c.
Proof.
  unfold iteration.
  destruct (pq_get (todo c)) as [[[[est e] st] rest]|] eqn:Hpop.
  - destruct (result c <=? est); [done|].
    destruct (match states c !! data st with
              | Some p => p <=? e
              | None => false
              end); [done|].
    by destruct (expand board_links st e rest).
  - intros [= <-]. split; [by apply pq_get_None | done].
Qed.

(** ** Optimality *)

Section optimal.
Variable d0 : list Z.
Hypothesis Hwf0 : wf_data d0.
Variable C : Z.
Hypothesis Hmin : min_cost d0 C.
Hypothesis HC : C < 2 ^ 63.

(** [d] lies on a cheapest way to a goal, [g] moves of energy away from
    the initial array. *)
Definition opt (d : list Z) (g : Z) : Prop :=
  path d0 g d ∧ ∃ gl c', is_goal gl ∧ path d c' gl ∧ g + c' = C.

Definition in_todo (c : Config) (d : list Z) (g : Z) : Prop :=
  ∃ x, x ∈ todo c ∧ data x.2 = d ∧ x.1.2 = g.

Definition closed (c : Config) (d : list Z) (g : Z) : Prop :=
  states c !! d = Some g.

Lemma opt_start : opt d0 0.
Proof using Hmin.
  clear HC. destruct Hmin as [(gl & Hg & Hp) _]. split; [apply path_nil|].
  exists gl, C. split; [done|]. split; [done | lia].
Qed.

Lemma opt_least d g e : opt d g → path d0 e d → g ≤ e.
Proof using Hmin.
  clear HC. intros (_ & gl & c' & Hg & Hp & <-) He.
  destruct Hmin as [_ Hleast].
  specialize (Hleast gl (e + c') Hg (path_app _ _ _ _ _ He Hp)). lia.
Qed.

Lemma opt_estimate d g : opt d g → h d + g ≤ C.
Proof using Hwf0.
  clear HC Hmin. intros (Hp0 & gl & c' & Hg & Hp & <-).
  destruct (path_wf _ _ _ Hwf0 Hp0) as (Hwf & _ & _).
  destruct (path_wf _ _ _ Hwf Hp) as (Hwfg & _ & Hh).
  rewrite (h_goal gl Hwfg Hg) in Hh. lia.
Qed.

Lemma result_least c : inv d0 c → C ≤ result c.
Proof using Hmin HC.
  intros Hinv. destruct (inv_result d0 c Hinv) as [->|[_ (gl & Hg & Hp)]].
  - lia.
  - destruct Hmin as [_ Hleast]. by apply (Hleast gl).
Qed.

Record kinv (c : Config) : Prop := {
  k_start : result c = C ∨ in_todo c d0 0 ∨ closed c d0 0;
  k_next :
    ∀ d g c1 d1,
      closed c d g → path d0 g d → legal_move d c1 d1 → opt d1 (g + c1) →
      result c = C ∨ in_todo c d1 (g + c1) ∨ closed c d1 (g + c1);
  k_goal : ∀ gl, is_goal gl → closed c gl C → result c = C
}.

Lemma kinv_initial c0 : initial d0 = Some c0 → kinv c0.
Proof using Hwf0.
  destruct (initial_wf d0 Hwf0) as (act & Hinit & Hok). rewrite Hinit.
  intros [= <-]. split; unfold closed, in_todo; cbn [todo result states].
  - right; left. eexists. split; [by left|]. done.
  - intros d g c1 d1 Hc. by rewrite lookup_empty in Hc.
  - intros gl _ Hc. by rewrite lookup_empty in Hc.
Qed.

(** What one iteration does to an entry of the queue that lies on a
    cheapest way. *)
Lemma kinv_step c c' : inv d0 c → kinv c → loop_step c c' → kinv c'.
Proof using Hwf0 Hmin HC.
  intros Hinv Hk Hstep. pose proof (result_least c Hinv) as Hres.
  pose proof (inv_step d0 c c' Hinv Hstep) as Hinv'.
  pose proof (result_least c' Hinv') as Hres'.
  unfold loop_step in Hstep.
  pose proof (iteration_cases c (inv_state_ok d0 c Hinv)) as Hcases.
  destruct (pq_get (todo c)) as [[[[est e] st] rest]|] eqn:Hpop;
    [|by rewrite Hcases in Hstep].
  pose proof (λ x, pq_get_elem _ _ _ x Hpop) as Hel.
  assert (entry_ok d0 (est, e, st)) as (Hok & Hest & Hpath)
    by (apply (inv_todo d0 c Hinv), Hel; by left).
  simpl in Hest, Hpath, Hok.
  destruct Hcases as [[Hwhy Hit]|(Hlt & Hprev & news & Hnews & Hit)];
    rewrite Hit in Hstep; injection Hstep as <-.
  - (* the popped entry is discarded *)
    assert (∀ d g, opt d g → in_todo c d g →
                   result c = C ∨
                   in_todo {| result := result c; states := states c;
                              todo := rest |} d g ∨
                   closed c d g) as Hkeep.
    { intros d g Hopt (x & Hx & Hd & Hg). apply Hel in Hx as [->|Hx].
      - simpl in Hd, Hg. subst d g.
        pose proof (opt_estimate _ _ Hopt).
        destruct Hwhy as [?|(p & Hp & Hle)]; [left; lia|].
        right; right. unfold closed. rewrite Hp. f_equal.
        pose proof (opt_least _ _ p Hopt (inv_states d0 c Hinv _ _ Hp)).
        lia.
      - right; left. by exists x. }
    split; unfold closed in *; cbn [todo result states].
    + destruct (k_start c Hk) as [?|[Hin|?]]; [by left| |by right; right].
      apply (Hkeep _ _ opt_start Hin).
    + intros d g c1 d1 Hc Hp Hm Hopt.
      destruct (k_next c Hk d g c1 d1 Hc Hp Hm Hopt) as [?|[Hin|?]];
        [by left| |by right; right].
      apply (Hkeep _ _ Hopt Hin).
    + apply (k_goal c Hk).
  - (* the popped entry is recorded and expanded *)
    set (r' := if bool_decide (size (active_locations st) = 0%nat)
                  && (e <? result c) then e else result c) in *.
    cbn [result] in Hres'.
    assert (result c = C → r' = C) as Hstay.
    { intros HrC. unfold r' in *.
      destruct (_ && _) eqn:Hb; [|done].
      apply andb_true_iff in Hb as [_ ?%Z.ltb_lt]. lia. }
    assert (∀ d g, opt d g → closed c d g →
                   <[data st := e]> (states c) !! d = Some g) as Hclosed.
    { intros d g Hopt Hc. unfold closed in Hc.
      destruct (decide (data st = d)) as [<-|Hne];
        [|by rewrite lookup_insert_ne].
      specialize (Hprev g Hc).
      pose proof (opt_least _ _ e Hopt Hpath). lia. }
    assert (∀ d g, opt d g → in_todo c d g →
                   in_todo {| result := r';
                              states := <[data st := e]> (states c);
                              todo := news ++ rest |} d g ∨
                   <[data st := e]> (states c) !! d = Some g) as Hkeep.
    { intros d g Hopt (x & Hx & Hd & Hg). apply Hel in Hx as [->|Hx].
      - simpl in Hd, Hg. subst d g. right. apply lookup_insert_eq.
      - left. exists x. split; [|done]. cbn [todo]. apply elem_of_app.
        by right. }
    split; unfold closed in *; cbn [todo result states].
    + destruct (k_start c Hk) as [?|[Hin|Hc]]; [left; by apply Hstay| |].
      * right. apply (Hkeep _ _ opt_start Hin).
      * right; right. by apply (Hclosed _ _ opt_start).
    + intros d g c1 d1 Hc Hp Hm Hopt.
      destruct (decide (data st = d)) as [<-|Hne].
      * rewrite lookup_insert_eq in Hc. injection Hc as <-.
        right; left.
        destruct (move_successor st e c1 d1 Hok Hm) as (st' & Hd' & Hs).
        eexists. split; [apply elem_of_app; left; by apply Hnews|].
        done.
      * rewrite lookup_insert_ne in Hc by done.
        destruct (k_next c Hk d g c1 d1 Hc Hp Hm Hopt) as [?|[Hin|Hc1]];
          [left; by apply Hstay| |].
        -- right. apply (Hkeep _ _ Hopt Hin).
        -- right; right. by apply (Hclosed _ _ Hopt).
    + intros gl Hg Hc. destruct (decide (data st = gl)) as [<-|Hne].
      * rewrite lookup_insert_eq in Hc. injection Hc as ->.
        unfold r' in *. destruct Hok as [_ Hact].
        unfold is_goal in Hg. rewrite Hact in Hg. injection Hg as ->.
        rewrite size_empty. rewrite bool_decide_eq_true_2 by done.
        simpl. destruct (C <? result c) eqn:Hlt'; [done|].
        apply Z.ltb_ge in Hlt'. lia.
      * rewrite lookup_insert_ne in Hc by done.
        by apply Hstay, (k_goal c Hk gl).
Qed.

Lemma kinv_reachable c : reachable d0 c → kinv c.
Proof using Hwf0 Hmin HC.
  intros (c0 & Hinit & Hrtc).
  pose proof (inv_initial d0 Hwf0 c0 Hinit) as Hinv.
  pose proof (kinv_initial c0 Hinit) as Hk. clear Hinit.
  induction Hrtc as [|c1 c2 c3 Hstep _ IH]; [done|].
  apply IH; [by eapply inv_step | by eapply kinv_step].
Qed.

(** When the queue is empty every array on a cheapest way has been
    recorded with its least energy, the goal included. *)
Lemma kinv_final c : kinv c → todo c = [] → result c = C.
Proof using Hmin.
  clear HC. intros Hk Hempty.
  assert (∀ d g, ¬ in_todo c d g) as Hno.
  { intros d g (x & Hx & _). rewrite Hempty in Hx. by inversion Hx. }
  assert (∀ d c' gl, path d c' gl → is_goal gl →
                     ∀ g, path d0 g d → g + c' = C → closed c d g →
                          result c = C) as Hwalk.
  { intros d c' gl Hp Hg.
    induction Hp as [d|d c1 d1 c2 d2 Hm Hp IH]; intros g Hp0 HgC Hc.
    - apply (k_goal c Hk d Hg). by replace C with g by lia.
    - assert (opt d1 (g + c1)) as Hopt.
      { split; [by eapply path_snoc|]. exists d2, c2.
        split; [done|]. split; [done | lia]. }
      destruct (k_next c Hk d g c1 d1 Hc Hp0 Hm Hopt) as [?|[Hin|Hc1]];
        [done | by apply Hno in Hin |].
      apply (IH Hg (g + c1)); [by eapply path_snoc | lia | done]. }
  destruct (k_start c Hk) as [?|[Hin|Hc]]; [done | by apply Hno in Hin |].
  destruct Hmin as [(gl & Hg & Hp) _].
  apply (Hwalk d0 C gl Hp Hg 0); [apply path_nil | lia | done].
Qed.
End optimal.

(** ** Reading the board gives a well-formed array *)

Lemma AMPHIPODS_range ch v : AMPHIPODS ch = Some v → 0 ≤ v ≤ 4.
Proof.
  unfold AMPHIPODS. repeat destruct (decide _); intros [= <-]; lia.
Qed.

Lemma cell_range lines r c v : cell lines r c = Some v → 0 ≤ v ≤ 4.
Proof.
  unfold cell. destruct (lines !! r) as [line|]; [|done]. simpl.
  destruct (String.get c line) as [ch|]; [|done]. simpl.
  apply AMPHIPODS_range.
Qed.

Lemma py_setitem_Some {A} (l : list A) i v l' :
  py_setitem l i v = Some l' → l' = <[i := v]> l.
Proof. unfold py_setitem. destruct (decide _); by intros [= <-]. Qed.

Lemma parse_wf lines d : parse lines = Some d → wf_data d.
Proof.
  unfold parse. cbn [for_each seq].
  repeat match goal with
         | |- context [cell lines ?r ?c] =>
             let v := fresh "v" in
             let Hv := fresh "Hv" in
             destruct (cell lines r c) as [v|] eqn:Hv; [|done];
             apply cell_range in Hv
         end.
  cbn [mbind option_bind].
  unfold py_setitem. simpl. intros [= <-].
  apply wf_data_spec. split; [done|]. intros i w Hi.
  do 15 (destruct i as [|i];
         [injection Hi as <-; unfold slot_bound; simpl; lia|]).
  discriminate Hi.
Qed.

(** ** Enumerating the moves of a given array *)

(** The arrays one legal move away from [d], as the loops of [main] produce
    them. *)
Definition moves_from (d : list Z) : list (list Z * Z) :=
  p ← locations;
  match is_active p d with
  | Some true =>
      match candidate_moves board_links p d with
      | Some moves =>
          link ← moves;
          match apply_move p link.1 link.2 d with
          | Some r => [r]
          | None => []
          end
      | None => []
      end
  | _ => []
  end.

Lemma moves_from_complete d c d' :
  legal_move d c d' → (d', c) ∈ moves_from d.
Proof.
  intros (p & moves & link & Hp & Hpa & Hm & Hl & Happ).
  unfold moves_from. apply list_elem_of_bind. exists p. split; [|done].
  rewrite Hpa, Hm. apply list_elem_of_bind. exists link. split; [|done].
  rewrite Happ. by left.
Qed.

Lemma moves_from_sound d c d' :
  (d', c) ∈ moves_from d → legal_move d c d'.
Proof.
  unfold moves_from. intros (p & Hin & Hp)%list_elem_of_bind.
  destruct (is_active p d) as [[]|] eqn:Hpa; try by inversion Hin.
  destruct (candidate_moves board_links p d) as [moves|] eqn:Hm;
    [|by inversion Hin].
  apply list_elem_of_bind in Hin as (link & Hin & Hl).
  destruct (apply_move p link.1 link.2 d) as [r|] eqn:Happ;
    [|by inversion Hin].
  apply list_elem_of_singleton in Hin as <-.
  by exists p, moves, link.
Qed.

(** A set of arrays that no legal move leaves. *)
Definition closed_under_moves (S : list (list Z)) : bool :=
  forallb (λ d, forallb (λ r : list Z * Z, bool_decide (r.1 ∈ S))
                        (moves_from d)) S.

Lemma closed_under_moves_path S d c d' :
  closed_under_moves S = true → d ∈ S → path d c d' → d' ∈ S.
Proof.
  intros HS Hd Hp. induction Hp as [d|d c1 d1 c2 d2 Hm Hp IH]; [done|].
  apply IH. unfold closed_under_moves in HS. rewrite forallb_forall in HS.
  specialize (HS d ltac:(by apply list_elem_of_In)).
  rewrite forallb_forall in HS. apply moves_from_complete in Hm.
  specialize (HS (d1, c1) ltac:(by apply list_elem_of_In)).
  by apply bool_decide_eq_true in HS.
Qed.

(** ** Discarding the rest of the queue *)




(** ** The result changes only at a goal *)

Lemma result_changes c c' :
  loop_step c c' →
  result c' = result c ∨
  ∃ est e st rest,
    pq_get (todo c) = Some ((est, e, st), rest) ∧
    active_locations st = ∅ ∧ result c' = e.
Proof.
  unfold loop_step, iteration.
  destruct (pq_get (todo c)) as [[[[est e] st] rest]|] eqn:Hpop; [|done].
  destruct (result c <=? est); [intros [= <-]; by left|].
  destruct (match states c !! data st with
            | Some p => p <=? e
            | None => false
            end); [intros [= <-]; by left|].
  destruct (expand board_links st e rest); [|done].
  intros [= <-]. cbn [result].
  destruct (bool_decide (size (active_locations st) = 0%nat)) eqn:Hg;
    [|by left].
  destruct (e <? result c); [|by left].
  right. exists est, e, st, rest. split; [done|]. split; [|done].
  apply bool_decide_eq_true, size_empty_iff in Hg. by apply leibniz_equiv.
Qed.

Lemma reachable_step d0 c c' :
  reachable d0 c → loop_step c c' → reachable d0 c'.
Proof.
  intros (c0 & Hinit & Hrtc) Hstep. exists c0. split; [done|].
  by eapply rtc_r.
Qed.

Lemma search_Printed fuel d0 r :
  search fuel d0 = Printed r →
  ∃ cf, reachable d0 cf ∧ todo cf = [] ∧ r = result cf.
Proof.
  unfold search. destruct (initial d0) as [c0|] eqn:Hinit; [|done].
  intros (cf & Hrtc & Hexit)%run_Printed.
  apply iteration_Exit in Hexit as [Hempty ->].
  exists cf. split; [by exists c0 | done].
Qed.

Lemma admissible d c gl :
  wf_data d → path d c gl → is_goal gl → h d ≤ c.
Proof.
  intros Hwf Hp Hg. destruct (path_wf _ _ _ Hwf Hp) as (Hwfg & _ & Hh).
  rewrite (h_goal gl Hwfg Hg) in Hh. lia.
Qed.

(** ** A bound on the least energy *)

(** The well-formed arrays are numbered below [5 ^ 19]. *)
Fixpoint code (i : nat) (l : list Z) : Z :=
  match l with
  | [] => 0
  | v :: l' => v + (slot_bound i + 1) * code (S i) l'
  end.

Fixpoint cap (i n : nat) : Z :=
  match n with
  | O => 1
  | S n' => (slot_bound i + 1) * cap (S i) n'
  end.

Lemma code_range i l :
  (∀ k v, l !! k = Some v → 0 ≤ v ≤ slot_bound (i + k)) →
  0 ≤ code i l < cap i (length l).
Proof.
  revert i. induction l as [|x l IH]; intros i H; simpl; [lia|].
  pose proof (H 0%nat x eq_refl) as Hx. rewrite Nat.add_0_r in Hx.
  assert (0 ≤ code (S i) l < cap (S i) (length l)) as Hl.
  { apply IH. intros k v Hk.
    replace (S i + k)%nat with (i + S k)%nat by lia. by apply H. }
  unfold slot_bound in *. destruct (i <? 11)%nat; lia.
Qed.

Lemma code_inj i l1 l2 :
  length l1 = length l2 →
  (∀ k v, l1 !! k = Some v → 0 ≤ v ≤ slot_bound (i + k)) →
  (∀ k v, l2 !! k = Some v → 0 ≤ v ≤ slot_bound (i + k)) →
  code i l1 = code i l2 → l1 = l2.
Proof.
  revert i l2. induction l1 as [|x l1 IH]; intros i [|y l2] Hlen H1 H2 Hc;
    try done.
  simpl in Hc.
  pose proof (H1 0%nat x eq_refl) as Hx. rewrite Nat.add_0_r in Hx.
  pose proof (H2 0%nat y eq_refl) as Hy. rewrite Nat.add_0_r in Hy.
  assert (x = y ∧ code (S i) l1 = code (S i) l2) as [-> Hc'].
  { unfold slot_bound in *. destruct (i <? 11)%nat; lia. }
  f_equal. apply (IH (S i)); [by injection Hlen | | | done].
  - intros k v Hk. replace (S i + k)%nat with (i + S k)%nat by lia.
    by apply H1.
  - intros k v Hk. replace (S i + k)%nat with (i + S k)%nat by lia.
    by apply H2.
Qed.

Lemma wf_data_count (l : list (list Z)) :
  NoDup l → (∀ d, d ∈ l → wf_data d) → Z.of_nat (length l) ≤ 5 ^ 19.
Proof.
  intros Hnd Hwf.
  assert (NoDup (code 0 <$> l)) as Hnd'.
  { apply NoDup_fmap_2_strong; [|done]. intros d1 d2 H1 H2 Hc.
    apply Hwf, wf_data_spec in H1 as [Hl1 Hb1].
    apply Hwf, wf_data_spec in H2 as [Hl2 Hb2].
    apply (code_inj 0); [congruence | done | done | done]. }
  assert (code 0 <$> l ⊆+ seqZ 0 (5 ^ 19)) as Hsub.
  { apply NoDup_submseteq; [done|].
    intros x (d & -> & Hd)%list_elem_of_fmap. apply elem_of_seqZ.
    apply Hwf, wf_data_spec in Hd as [Hl Hb].
    pose proof (code_range 0 d Hb) as Hr. rewrite Hl in Hr.
    assert (cap 0 15 = 5 ^ 19) as Hcap by (vm_compute; reflexivity).
    lia. }
  apply submseteq_length in Hsub.
  rewrite length_fmap, length_seqZ in Hsub. lia.
Qed.

(** A sequence of legal moves together with the arrays it starts its moves
    from. *)
Inductive route : list Z → list (list Z) → Z → list Z → Prop :=
| route_nil d : route d [] 0 d
| route_cons d c d' l c' d'' :
    legal_move d c d' → route d' l c' d'' → route d (d :: l) (c + c') d''.

Lemma path_route d c d' : path d c d' → ∃ l, route d l c d'.
Proof.
  induction 1 as [d|d c1 d1 c2 d2 Hm _ [l IH]].
  - exists []. apply route_nil.
  - exists (d :: l). by eapply route_cons.
Qed.

Lemma route_path d l c d' : route d l c d' → path d c d'.
Proof.
  induction 1 as [d|d c1 d1 l c2 d2 Hm _ IH]; [apply path_nil|].
  by eapply path_cons.
Qed.

Lemma route_wf d l c d' :
  wf_data d → route d l c d' →
  (∀ x, x ∈ l → wf_data x) ∧ 0 ≤ c ≤ 4000 * Z.of_nat (length l).
Proof.
  intros Hwf Hr. induction Hr as [d|d c1 d1 l c2 d2 Hm _ IH].
  - split; [intros x Hx; by inversion Hx | simpl; lia].
  - destruct (legal_move_wf _ _ _ Hwf Hm) as (Hwf1 & Hc & _).
    destruct (IH Hwf1) as [Hall Hb]. split.
    + intros x Hx. inversion Hx; subst; [done | by apply Hall].
    + simpl length. lia.
Qed.

Lemma route_from_elem d l c d' x :
  wf_data d → route d l c d' → NoDup l → x ∈ l →
  ∃ l' c', route x l' c' d' ∧ c' ≤ c ∧ NoDup l'.
Proof.
  intros Hwf Hr. induction Hr as [d|d c1 d1 l c2 d2 Hm Hr IH];
    intros Hnd Hx; [by inversion Hx|].
  destruct (legal_move_wf _ _ _ Hwf Hm) as (Hwf1 & Hc & _).
  apply NoDup_cons in Hnd as [Hd Hnd].
  inversion Hx; subst.
  - exists (d :: l), (c1 + c2). split; [by eapply route_cons|].
    split; [lia | by apply NoDup_cons].
  - destruct (IH Hwf1 Hnd) as (l' & c' & Hr' & Hle & Hnd'); [done|].
    exists l', c'. split; [done|]. split; [lia | done].
Qed.

Lemma route_simple d l c d' :
  wf_data d → route d l c d' →
  ∃ l' c', route d l' c' d' ∧ c' ≤ c ∧ NoDup l'.
Proof.
  intros Hwf Hr. induction Hr as [d|d c1 d1 l c2 d2 Hm Hr IH].
  - exists [], 0. split; [apply route_nil|]. split; [lia | apply NoDup_nil_2].
  - destruct (legal_move_wf _ _ _ Hwf Hm) as (Hwf1 & Hc & _).
    destruct (IH Hwf1) as (l' & c' & Hr' & Hle & Hnd).
    destruct (decide (d ∈ l')) as [Hin|Hnin].
    + destruct (route_from_elem _ _ _ _ d Hwf1 Hr' Hnd Hin)
        as (l2 & c3 & Hr2 & Hle2 & Hnd2).
      exists l2, c3. split; [done|]. split; [lia | done].
    + exists (d :: l'), (c1 + c'). split; [by eapply route_cons|].
      split; [lia | by apply NoDup_cons].
Qed.

Lemma min_cost_bound d0 C : wf_data d0 → min_cost d0 C → C < 2 ^ 63.
Proof.
  intros Hwf [(gl & Hg & Hp) Hleast].
  destruct (path_route _ _ _ Hp) as [l Hr].
  destruct (route_simple _ _ _ _ Hwf Hr) as (l' & c' & Hr' & _ & Hnd).
  specialize (Hleast gl c' Hg (route_path _ _ _ _ Hr')).
  destruct (route_wf _ _ _ _ Hwf Hr') as [Hall Hb].
  pose proof (wf_data_count l' Hnd Hall) as Hcount.
  assert (5 ^ 19 = 19073486328125) as H5 by reflexivity.
  rewrite two_63. lia.
Qed.

(** * Main results *)

(** ** Sample boards *)

(** An [A] in the hallway next to its room, whose near place ([aa % 5])
    already holds an [A]. *)
Definition board_one_move : list Z :=
  [0; 1; 0; 0; 0; 0; 0; 0; 0; 0; 0; 1; 0; 0; 0].

(** A [B] alone in the near place of the room of the [A]s. *)
Definition board_stranger : list Z :=
  [0; 0; 0; 0; 0; 0; 0; 0; 0; 0; 0; 2; 0; 0; 0].

(** An [A] in the far place ([aa // 5]) of the room of the [A]s, above a
    [B]. *)
Definition board_stacked : list Z :=
  [0; 0; 0; 0; 0; 0; 0; 0; 0; 0; 0; 7; 0; 0; 0].

(** An [A] and a [B], each alone in the room of the other. *)
Definition board_swapped : list Z :=
  [0; 0; 0; 0; 0; 0; 0; 0; 0; 0; 0; 2; 1; 0; 0].

Example search_solved :
  search 2 [0; 0; 0; 0; 0; 0; 0; 0; 0; 0; 0; 6; 2; 0; 0] = Printed 0.
Proof. vm_compute. reflexivity. Qed.

Example search_one_move : search 10 board_one_move = Printed 2.
Proof. vm_compute. reflexivity. Qed.

Example search_swapped : search 1000 board_swapped = Printed 68.
Proof. vm_compute. reflexivity. Qed.

Lemma loc_elem i : (i < 15)%nat → loc i ∈ locations.
Proof.
  intros Hi.
  do 15 (destruct i as [|i];
         [apply (bool_decide_unpack _); vm_compute; exact I|]).
  lia.
Qed.

(** ** Locations *)

(** C2, as amended.  On a well-formed array [accepts] returns [True] for a
    [Home] location exactly when the type is the one of the room and the
    far place ([aa // 5]) is empty, whatever the near place holds, and for a
    [Regular] location exactly when the location is empty. *)
Theorem accepts_spec d p t :
  wf_data d → p ∈ locations →
  ∃ aa, d !! index p = Some aa ∧
        accepts p d t
        = Some (match kind p with
                | KRegular => bool_decide (aa = 0)
                | KHome t0 => bool_decide (t = t0 ∧ aa / 5 = 0)
                end).
Proof.
  intros Hwf Hp. destruct (wf_data_loc d p Hwf Hp) as (aa & Haa & Hb).
  exists aa. split; [done|]. rewrite (accepts_slot _ _ _ Haa). f_equal.
  unfold slot_accepts. destruct (kind p) as [|t0].
  - destruct (Z.eqb_spec aa 0).
    + by rewrite bool_decide_eq_true_2.
    + by rewrite bool_decide_eq_false_2.
  - assert (0 ≤ aa / 5) by (apply Z.div_pos; lia).
    destruct (Z.ltb_spec 0 (aa / 5)).
    + rewrite bool_decide_eq_false_2; [done | lia].
    + destruct (Z.eqb_spec t0 t).
      * rewrite bool_decide_eq_true_2; [done | split; [done | lia]].
      * rewrite bool_decide_eq_false_2; [done | intros [? _]; congruence].
Qed.

Lemma accepts_spec_witness :
  ∃ aa, board_stranger !! index (loc 11) = Some aa ∧
        accepts (loc 11) board_stranger 1
        = Some (match kind (loc 11) with
                | KRegular => bool_decide (aa = 0)
                | KHome t0 => bool_decide (1 = t0 ∧ aa / 5 = 0)
                end).
Proof.
  apply (accepts_spec board_stranger (loc 11) 1).
  - reflexivity.
  - apply loc_elem. lia.
Defined.

(** C2 as stated fails: the room of the [A]s, holding a lone [B], accepts
    an [A]; the far place is empty but the unit already present does not
    match the room. *)
Lemma accepts_over_mismatch :
  wf_data board_stranger ∧
  kind (loc 11) = KHome 1 ∧
  board_stranger !! index (loc 11) = Some 2 ∧
  ¬ (accepts (loc 11) board_stranger 1 = Some true
     ↔ 1 = 1 ∧ 2 / 5 = 0 ∧ (2 mod 5 = 0 ∨ 2 mod 5 = 1)).
Proof.
  split; [reflexivity|]. split; [reflexivity|]. split; [reflexivity|].
  intros [H _]. destruct (H eq_refl) as (_ & _ & [?|?]); discriminate.
Qed.

(** C8, as amended.  [put] returns 0 or 1; a [Regular] location returns 0;
    a [Home] location returns 1 exactly when the near place ([aa % 5]) is
    the one that is vacated or filled: moving out while the far place
    ([aa // 5]) is empty, or moving in while the near place is empty.  It
    returns 0 when the unit of the far place leaves or a unit settles in
    the far place. *)
Theorem put_extra_steps p d a d' x :
  put p d a = Some (d', x) →
  (x = 0 ∨ x = 1) ∧
  match kind p with
  | KRegular => x = 0
  | KHome _ =>
      ∃ aa, d !! index p = Some aa ∧
            (x = 1 ↔ if a =? 0 then aa / 5 = 0 else aa mod 5 = 0)
  end.
Proof.
  unfold put, Regular.put, Home.put. destruct (kind p) as [|t0].
  - destruct (py_setitem d (index p) a); [|done]. intros [= <- <-]. auto.
  - destruct (d !! index p) as [aa|]; [|done]. cbn [mbind option_bind].
    destruct (a =? 0).
    + destruct (Z.eqb_spec (aa / 5) 0);
        (destruct (py_setitem d (index p) _); [|done]); intros [= <- <-];
        (split; [auto|]); exists aa; (split; [done|]); split; try done; lia.
    + destruct (Z.eqb_spec (aa mod 5) 0);
        (destruct (py_setitem d (index p) _); [|done]); intros [= <- <-];
        (split; [auto|]); exists aa; (split; [done|]); split; try done; lia.
Qed.

Lemma put_extra_steps_witness :
  (1 = 0 ∨ 1 = 1) ∧
  match kind (loc 11) with
  | KRegular => 1 = 0
  | KHome _ =>
      ∃ aa, board_stranger !! index (loc 11) = Some aa ∧
            (1 = 1 ↔ if 0 =? 0 then aa / 5 = 0 else aa mod 5 = 0)
  end.
Proof.
  apply (put_extra_steps (loc 11) board_stranger 0
           [0; 0; 0; 0; 0; 0; 0; 0; 0; 0; 0; 0; 0; 0; 0] 1).
  reflexivity.
Defined.

(** C8 as stated fails both ways: a lone unit leaving the near place of a
    room whose far place is empty costs one extra step, and the unit of an
    occupied far place leaves at no extra step. *)
Lemma put_extra_counterexample :
  (∃ d' x, put (loc 11) board_stranger 0 = Some (d', x)
           ∧ board_stranger !! 11%nat = Some 2
           ∧ ¬ (x = 1 ↔ 2 / 5 ≠ 0)) ∧
  (∃ d' x, put (loc 11) board_stacked 0 = Some (d', x)
           ∧ board_stacked !! 11%nat = Some 7
           ∧ ¬ (x = 1 ↔ 7 / 5 ≠ 0)).
Proof.
  split; eexists _, _; (split; [reflexivity|]); (split; [reflexivity|]).
  - intros [H _]. by apply H.
  - intros [_ H]. discriminate H. discriminate.
Qed.

(** ** The heuristic *)

(** C7.  On a well-formed array the estimate never exceeds the energy of a
    sequence of legal moves that ends in a goal array, hence not the least
    such energy either. *)
Theorem estimation_admissible d c gl :
  wf_data d → path d c gl → is_goal gl →
  ∃ hv, get_estimation d = Some hv ∧ hv ≤ c.
Proof.
  intros Hwf Hp Hg. exists (h d). split; [by apply get_estimation_wf|].
  by eapply admissible.
Qed.

Lemma board_one_move_step :
  legal_move board_one_move 2 [0; 0; 0; 0; 0; 0; 0; 0; 0; 0; 0; 6; 0; 0; 0].
Proof.
  exists (loc 1), [(loc 0, 1); (loc 3, 2); (loc 11, 2)], (loc 11, 2).
  split; [apply loc_elem; lia|]. split; [reflexivity|].
  split; [reflexivity|]. split; [|reflexivity].
  apply (bool_decide_unpack _). vm_compute. exact I.
Qed.

Lemma board_one_move_path :
  path board_one_move 2 [0; 0; 0; 0; 0; 0; 0; 0; 0; 0; 0; 6; 0; 0; 0].
Proof.
  change 2 with (2 + 0). eapply path_cons; [apply board_one_move_step|].
  apply path_nil.
Qed.

Lemma estimation_admissible_witness :
  ∃ hv, get_estimation board_one_move = Some hv ∧ hv ≤ 2.
Proof.
  apply (estimation_admissible board_one_move 2
           [0; 0; 0; 0; 0; 0; 0; 0; 0; 0; 0; 6; 0; 0; 0]).
  - reflexivity.
  - apply board_one_move_path.
  - reflexivity.
Defined.

(** ** States created by the search *)

Definition start_one_move : Config :=
  {| result := 2 ^ 63;
     states := ∅;
     todo := [(2, 0, {| data := board_one_move;
                        active_locations := {[1%nat]} |})] |}.

Lemma start_one_move_reachable : reachable board_one_move start_one_move.
Proof. exists start_one_move. split; [reflexivity | apply rtc_refl]. Qed.

(** C4.  In every entry of the queue, from the initial one to every
    successor pushed later, the stored set of active locations is the set
    [{p for p in locations if p.is_active(data)}] computed from the array of
    that entry. *)
Theorem active_set_maintained d0 c x :
  wf_data d0 → reachable d0 c → x ∈ todo c →
  active_set (data x.2) = Some (active_locations x.2).
Proof.
  intros Hwf Hreach Hx.
  by destruct (inv_state_ok d0 c (inv_reachable d0 Hwf c Hreach) x Hx).
Qed.

Lemma active_set_maintained_witness :
  active_set board_one_move = Some {[1%nat]}.
Proof.
  pose proof (active_set_maintained board_one_move start_one_move
                (2, 0, {| data := board_one_move;
                          active_locations := {[1%nat]} |})) as H.
  apply H.
  - reflexivity.
  - apply start_one_move_reachable.
  - by left.
Defined.

(** C9.  In every entry of the queue a hallway slot holds a type in [0..4]
    and a room slot a code [5 * far + near] with [far] and [near] in
    [0..4]; [get_estimation] then finds every index of [DISTANCES] in range
    and returns. *)
Theorem reachable_slots_in_range d0 c x :
  wf_data d0 → reachable d0 c → x ∈ todo c →
  (∀ i, (i < 11)%nat → ∃ v, data x.2 !! i = Some v ∧ 0 ≤ v ≤ 4) ∧
  (∀ i, (11 ≤ i < 15)%nat →
        ∃ far near, data x.2 !! i = Some (5 * far + near) ∧
                    0 ≤ far ≤ 4 ∧ 0 ≤ near ≤ 4 ∧
                    is_Some (distance i far) ∧
                    is_Some (distance (i + 4) near)) ∧
  (∀ i v, (i < 11)%nat → data x.2 !! i = Some v → is_Some (distance i v)) ∧
  is_Some (get_estimation (data x.2)).
Proof.
  intros Hwf Hreach Hx.
  destruct (inv_state_ok d0 c (inv_reachable d0 Hwf c Hreach) x Hx)
    as [Hwfx _].
  split; [|split; [|split]].
  - intros i Hi. destruct (wf_data_lookup _ i Hwfx) as (v & Hv & Hb); [lia|].
    exists v. split; [done|]. unfold slot_bound in Hb.
    apply Nat.ltb_lt in Hi. rewrite Hi in Hb. done.
  - intros i Hi. destruct (wf_data_lookup _ i Hwfx) as (v & Hv & Hb); [lia|].
    unfold slot_bound in Hb. destruct (Nat.ltb_spec i 11); [lia|].
    exists (v / 5), (v mod 5).
    assert (0 ≤ v / 5 ≤ 4 ∧ 0 ≤ v mod 5 ≤ 4) as [Hf Hn]
      by (Z.div_mod_to_equations; lia).
    split; [rewrite Hv; f_equal; Z.div_mod_to_equations; lia|].
    split; [done|]. split; [done|]. split.
    + rewrite distance_is_Some by (done || lia). by eexists.
    + rewrite distance_is_Some by (done || lia). by eexists.
  - intros i v Hi Hv. destruct (wf_data_lookup _ i Hwfx) as (v' & Hv' & Hb);
      [lia|].
    rewrite Hv in Hv'. injection Hv' as <-. unfold slot_bound in Hb.
    apply Nat.ltb_lt in Hi as Hi'. rewrite Hi' in Hb.
    rewrite distance_is_Some by (done || lia). by eexists.
  - rewrite (get_estimation_wf _ Hwfx). by eexists.
Qed.

Lemma reachable_slots_in_range_witness :
  (∀ i, (i < 11)%nat → ∃ v, board_one_move !! i = Some v ∧ 0 ≤ v ≤ 4) ∧
  (∀ i, (11 ≤ i < 15)%nat →
        ∃ far near, board_one_move !! i = Some (5 * far + near) ∧
                    0 ≤ far ≤ 4 ∧ 0 ≤ near ≤ 4 ∧
                    is_Some (distance i far) ∧
                    is_Some (distance (i + 4) near)) ∧
  (∀ i v, (i < 11)%nat → board_one_move !! i = Some v →
          is_Some (distance i v)) ∧
  is_Some (get_estimation board_one_move).
Proof.
  apply (reachable_slots_in_range board_one_move start_one_move
           (2, 0, {| data := board_one_move;
                     active_locations := {[1%nat]} |})).
  - reflexivity.
  - apply start_one_move_reachable.
  - by left.
Defined.

(** ** The table of visited arrays *)

Definition after_one_move : Config :=
  match iteration board_links start_one_move with
  | Continue c => c
  | _ => start_one_move
  end.

Lemma start_one_move_step : loop_step start_one_move after_one_move.
Proof. unfold loop_step. vm_compute. reflexivity. Qed.

(** C5.  When an iteration of the search takes an entry [(est, e, st)] from
    the queue, either the table is left as it is, or the array of the entry
    had no recorded energy and gets [e]: an energy is recorded at most once
    for an array.  An entry whose array has a recorded energy [p <= e] is
    dropped without being expanded.  Recorded energies never change, so
    they never increase, and the energy recorded for an array is not above
    the energy of any entry for that array that is still in the queue. *)
Theorem visited_written_once d0 c c' est e st rest :
  wf_data d0 → reachable d0 c →
  pq_get (todo c) = Some ((est, e, st), rest) → loop_step c c' →
  (states c' = states c
   ∨ (states c !! data st = None
      ∧ states c' = <[data st := e]> (states c))) ∧
  (∀ p, states c !! data st = Some p → p ≤ e →
        c' = {| result := result c; states := states c; todo := rest |}) ∧
  (∀ d p, states c !! d = Some p → states c' !! d = Some p) ∧
  (∀ x p, x ∈ todo c' → states c' !! data x.2 = Some p → p ≤ x.1.2).
Proof.
  intros Hwf Hreach Hpop Hstep.
  pose proof (inv_reachable d0 Hwf c Hreach) as Hinv.
  assert (∀ x p, x ∈ todo c' → states c' !! data x.2 = Some p → p ≤ x.1.2)
    as Hlow.
  { intros x p Hx Hp. pose proof (inv_step d0 c c' Hinv Hstep) as Hinv'.
    pose proof (inv_mono d0 c' Hinv' _ p x Hp Hx) as Hm.
    destruct (inv_todo d0 c' Hinv' x Hx) as (_ & Hest & _). lia. }
  unfold loop_step in Hstep.
  pose proof (iteration_cases c (inv_state_ok d0 c Hinv)) as Hcases.
  rewrite Hpop in Hcases.
  assert (entry_ok d0 (est, e, st)) as (_ & Hest & _).
  { apply (inv_todo d0 c Hinv), (pq_get_elem _ _ _ _ Hpop). by left. }
  simpl in Hest.
  destruct Hcases as [[_ Hit]|(Hlt & Hprev & news & Hnews & Hit)];
    rewrite Hit in Hstep; injection Hstep as <-; cbn [states].
  - split; [by left|]. split; [done|]. split; done.
  - assert (states c !! data st = None) as Hnone.
    { destruct (states c !! data st) as [p|] eqn:Hp; [|done].
      specialize (Hprev p eq_refl).
      assert ((est, e, st) ∈ todo c) as Hin
        by (apply (pq_get_elem _ _ _ _ Hpop); by left).
      pose proof (inv_mono d0 c Hinv (data st) p _ Hp Hin) as Hm.
      simpl in Hm. lia. }
    split; [by right|]. split; [|split; [|done]].
    + intros p Hp. by rewrite Hnone in Hp.
    + intros d p Hp. rewrite lookup_insert_ne; [done|]. congruence.
Qed.

Lemma visited_written_once_witness :
  (states after_one_move = states start_one_move
   ∨ (states start_one_move !! board_one_move = None
      ∧ states after_one_move = <[board_one_move := 0]> (states start_one_move)))
  ∧ (∀ p, states start_one_move !! board_one_move = Some p → p ≤ 0 →
          after_one_move
          = {| result := result start_one_move;
               states := states start_one_move; todo := [] |})
  ∧ (∀ d p, states start_one_move !! d = Some p →
            states after_one_move !! d = Some p)
  ∧ (∀ x p, x ∈ todo after_one_move →
            states after_one_move !! data x.2 = Some p → p ≤ x.1.2).
Proof.
  pose proof (visited_written_once board_one_move start_one_move
                after_one_move 2 0
                {| data := board_one_move; active_locations := {[1%nat]} |}
                []) as H.
  apply H.
  - reflexivity.
  - apply start_one_move_reachable.
  - reflexivity.
  - apply start_one_move_step.
Defined.

(** ** Leaving the loop *)







(** ** When no goal is found *)

(** An [A] on the hallway spot above the room of the [A]s, from which no
    link leaves. *)
Definition board_isolated : list Z := [0; 0; 1; 0; 0; 0; 0; 0; 0; 0; 0; 0; 0; 0; 0].

Definition start_isolated : Config :=
  {| result := 2 ^ 63;
     states := ∅;
     todo := [(1, 0, {| data := board_isolated;
                        active_locations := {[2%nat]} |})] |}.

Definition after_isolated : Config :=
  {| result := 2 ^ 63;
     states := {[board_isolated := 0]};
     todo := [] |}.

Lemma reachable_isolated c :
  reachable board_isolated c → c = start_isolated ∨ c = after_isolated.
Proof.
  intros (c0 & Hinit & Hrtc).
  assert (initial board_isolated = Some start_isolated) as Hstart
    by (vm_compute; reflexivity).
  rewrite Hstart in Hinit. injection Hinit as <-.
  apply rtc_inv in Hrtc as [<-|(c1 & Hstep & Hrtc)]; [by left|].
  assert (c1 = after_isolated) as ->.
  { unfold loop_step in Hstep.
    assert (iteration board_links start_isolated = Continue after_isolated)
      as Hit by (vm_compute; reflexivity).
    rewrite Hit in Hstep. by injection Hstep. }
  apply rtc_inv in Hrtc as [<-|(c2 & Hstep2 & _)]; [by right|].
  unfold loop_step in Hstep2.
  assert (iteration board_links after_isolated = Exit (2 ^ 63)) as Hit
    by (vm_compute; reflexivity).
  rewrite Hit in Hstep2. discriminate Hstep2.
Qed.

(** C3, as amended.  When no entry taken from the queue has an empty set of
    active locations, the number that the search prints is the initial
    value [2 ** 63] of [result]. *)
Theorem no_goal_prints_sentinel d0 fuel r :
  search fuel d0 = Printed r →
  (∀ c est e st rest,
     reachable d0 c → pq_get (todo c) = Some ((est, e, st), rest) →
     size (active_locations st) ≠ 0%nat) →
  r = 2 ^ 63.
Proof.
  intros Hrun Hnone.
  assert (∀ c, reachable d0 c → result c = 2 ^ 63) as Hres.
  { intros c (c0 & Hinit & Hrtc).
    apply (rtc_ind_r (R := loop_step) (λ c, result c = 2 ^ 63) c0);
      [| |exact Hrtc].
    - unfold initial in Hinit.
      destruct (get_estimation d0); [|done].
      destruct (active_set d0); [|done]. by injection Hinit as <-.
    - intros c1 c2 Hrtc1 Hstep IH.
      destruct (result_changes c1 c2 Hstep)
        as [->|(est & e & st & rest & Hpop & Hact & _)]; [done|].
      exfalso. apply (Hnone c1 est e st rest); [by exists c0 | done |].
      by rewrite Hact, size_empty. }
  destruct (search_Printed fuel d0 r Hrun) as (cf & Hreach & _ & ->).
  by apply Hres.
Qed.

Lemma no_goal_prints_sentinel_witness : 9223372036854775808 = 2 ^ 63.
Proof.
  apply (no_goal_prints_sentinel board_isolated 2 9223372036854775808).
  - vm_compute. reflexivity.
  - intros c est e st rest [->| ->]%reachable_isolated Hpop.
    + vm_compute in Hpop. injection Hpop as <- <- <- <-.
      vm_compute. discriminate.
    + vm_compute in Hpop. discriminate Hpop.
Defined.

(** Two [A]s at home and a third one in the room of the [B]s. *)
Definition stdin_three_A : list string :=
  [ "#############"; "#...........#"; "###A#A#.#.###"; "  #A#.#.#.#";
    "  #########" ]%string.

Definition board_three_A : list Z := [0; 0; 0; 0; 0; 0; 0; 0; 0; 0; 0; 6; 5; 0; 0].

(** The arrays that can be reached from [board_three_A]: the third [A] is
    in its first place or on one of the seven hallway spots. *)
Definition arrays_three_A : list (list Z) :=
  board_three_A
  :: ((λ i, <[i := 1]> [0; 0; 0; 0; 0; 0; 0; 0; 0; 0; 0; 6; 0; 0; 0])
        <$> [0; 1; 3; 5; 7; 9; 10]%nat).

Lemma three_A_no_goal c g : path board_three_A c g → ¬ is_goal g.
Proof.
  intros Hp Hg.
  assert (g ∈ arrays_three_A) as Hin.
  { eapply closed_under_moves_path; [|by left|exact Hp].
    vm_compute. reflexivity. }
  assert (forallb (λ d, negb (bool_decide (is_goal d))) arrays_three_A = true)
    as Hall by (vm_compute; reflexivity).
  rewrite forallb_forall in Hall. apply list_elem_of_In in Hin.
  specialize (Hall g Hin). apply negb_true_iff, bool_decide_eq_false in Hall.
  done.
Qed.

(** C3 as stated fails: no goal can be reached from this board, the queue
    runs empty, and the program prints the number [2 ** 63]; no other kind
    of outcome tells that there is no solution. *)
Lemma unsolvable_prints_number :
  parse (take 5 stdin_three_A) = Some board_three_A ∧
  (∀ c g, path board_three_A c g → ¬ is_goal g) ∧
  main 20 stdin_three_A = Printed 9223372036854775808.
Proof.
  split; [reflexivity|]. split; [apply three_A_no_goal|].
  vm_compute. reflexivity.
Qed.

(** ** Termination and the printed energy *)

(** C10.  From a well-formed array the search prints a number after finitely
    many iterations: no exception escapes and the loop does not run for
    ever.  On the way every legal move costs a positive energy, the arrays
    in the queue are among the [5 ^ 19] well-formed ones, and an entry whose
    array already has a recorded energy is expanded only if its own energy
    is strictly smaller. *)
Theorem search_terminates d0 :
  wf_data d0 →
  (∃ fuel r, search fuel d0 = Printed r) ∧
  (∀ c x cost d',
     reachable d0 c → x ∈ todo c → legal_move (data x.2) cost d' →
     0 < cost) ∧
  (∀ l : list (list Z),
     NoDup l →
     (∀ d, d ∈ l → ∃ c x, reachable d0 c ∧ x ∈ todo c ∧ data x.2 = d) →
     Z.of_nat (length l) ≤ 5 ^ 19) ∧
  (∀ c c' est e st rest p,
     reachable d0 c → pq_get (todo c) = Some ((est, e, st), rest) →
     loop_step c c' → states c !! data st = Some p →
     e < p ∨ c' = {| result := result c; states := states c; todo := rest |}).
Proof.
  intros Hwf. split; [|split; [|split]].
  - destruct (initial_wf d0 Hwf) as (act & Hinit & _).
    unfold search. rewrite Hinit.
    apply (run_terminates d0), (inv_initial d0 Hwf), Hinit.
  - intros c x cost d' Hreach Hx Hm.
    destruct (inv_state_ok d0 c (inv_reachable d0 Hwf c Hreach) x Hx)
      as [Hwfx _].
    destruct (legal_move_wf _ _ _ Hwfx Hm) as (_ & ? & _). lia.
  - intros l Hnd Hall. apply wf_data_count; [done|].
    intros d (c & x & Hreach & Hx & <-)%Hall.
    by destruct (inv_state_ok d0 c (inv_reachable d0 Hwf c Hreach) x Hx).
  - intros c c' est e st rest p Hreach Hpop Hstep Hp.
    pose proof (inv_reachable d0 Hwf c Hreach) as Hinv.
    unfold loop_step in Hstep.
    pose proof (iteration_cases c (inv_state_ok d0 c Hinv)) as Hcases.
    rewrite Hpop in Hcases.
    destruct Hcases as [[_ Hit]|(_ & Hprev & _)].
    + right. rewrite Hit in Hstep. by injection Hstep.
    + left. by apply Hprev.
Qed.

Lemma search_terminates_witness :
  (∃ fuel r, search fuel board_one_move = Printed r) ∧
  (∀ c x cost d',
     reachable board_one_move c → x ∈ todo c →
     legal_move (data x.2) cost d' → 0 < cost) ∧
  (∀ l : list (list Z),
     NoDup l →
     (∀ d, d ∈ l →
           ∃ c x, reachable board_one_move c ∧ x ∈ todo c ∧ data x.2 = d) →
     Z.of_nat (length l) ≤ 5 ^ 19) ∧
  (∀ c c' est e st rest p,
     reachable board_one_move c →
     pq_get (todo c) = Some ((est, e, st), rest) →
     loop_step c c' → states c !! data st = Some p →
     e < p ∨ c' = {| result := result c; states := states c; todo := rest |}).
Proof.
  apply (search_terminates board_one_move). reflexivity.
Defined.

Lemma board_one_move_min_cost : min_cost board_one_move 2.
Proof.
  split.
  - exists [0; 0; 0; 0; 0; 0; 0; 0; 0; 0; 0; 6; 0; 0; 0].
    split; [reflexivity | apply board_one_move_path].
  - intros g c' Hg Hp.
    assert (wf_data board_one_move) as Hwf by reflexivity.
    pose proof (admissible _ _ _ Hwf Hp Hg) as Hh.
    assert (h board_one_move = 2) as Heq by reflexivity.
    by rewrite Heq in Hh.
Qed.

(** C1.  When [C] is the least energy of a sequence of legal moves from a
    well-formed array to an array with no active location, the search
    prints [C], and it prints nothing else whatever the number of
    iterations it is given. *)
Theorem search_reports_min_cost d0 C :
  wf_data d0 → min_cost d0 C →
  (∃ fuel, search fuel d0 = Printed C) ∧
  (∀ fuel r, search fuel d0 = Printed r → r = C).
Proof.
  intros Hwf Hmin. pose proof (min_cost_bound d0 C Hwf Hmin) as HC.
  assert (∀ fuel r, search fuel d0 = Printed r → r = C) as Honly.
  { intros fuel r (cf & Hreach & Hempty & ->)%search_Printed.
    apply (kinv_final d0 C Hmin cf); [|done].
    by apply kinv_reachable. }
  split; [|done].
  destruct (initial_wf d0 Hwf) as (act & Hinit & _).
  destruct (run_terminates d0 _ (inv_initial d0 Hwf _ Hinit))
    as (fuel & r & Hrun).
  assert (search fuel d0 = Printed r) as Hs
    by (unfold search; by rewrite Hinit).
  exists fuel. by rewrite Hs, (Honly fuel r Hs).
Qed.

Lemma search_reports_min_cost_witness :
  (∃ fuel, search fuel board_one_move = Printed 2) ∧
  (∀ fuel r, search fuel board_one_move = Printed r → r = 2).
Proof.
  apply (search_reports_min_cost board_one_move 2).
  - reflexivity.
  - apply board_one_move_min_cost.
Defined.

(** ** Legal moves in the words of the specification *)

(** [accepts] as the specification words it: a transit location must be
    completely empty; a destination must be of the matching type, have no
    far place ([aa // 5]) occupied, and hold a stack that is already
    consistent, that is, any unit already present matches the destination.
    The last condition is the one that [Home.accepts] does not test. *)
Definition spec_accepts (self : Location) (data : list Z) (amphipod : Z)
  : option bool :=
  v ← data !! index self;
  match kind self with
  | KRegular => Some (v =? 0)
  | KHome t =>
      Some ((t =? amphipod) && (v / 5 =? 0)
            && ((v mod 5 =? 0) || (v mod 5 =? t)))
  end.

(** The candidate links, the legal moves, their sequences and the least
    energy, with [spec_accepts] in the place of [accepts]. *)
Definition spec_candidate_moves (tbl : LinkTable) (self : Location)
  (data : list Z) : option (list (Location * Z)) :=
  a ← get self data;
  if a =? 0 then Some []
  else for_each (λ result link,
                  b ← spec_accepts link.1 data a;
                  Some (if b : bool then result ++ [link] else result))
                [] (links_of tbl self).

Definition spec_legal_move (data : list Z) (cost : Z) (data' : list Z)
  : Prop :=
  ∃ source moves link,
    source ∈ locations ∧
    is_active source data = Some true ∧
    spec_candidate_moves board_links source data = Some moves ∧
    link ∈ moves ∧
    apply_move source link.1 link.2 data = Some (data', cost).

Inductive spec_path : list Z → Z → list Z → Prop :=
| spec_path_nil d : spec_path d 0 d
| spec_path_cons d c d' c' d'' :
    spec_legal_move d c d' → spec_path d' c' d'' →
    spec_path d (c + c') d''.

Definition spec_min_cost (data : list Z) (c : Z) : Prop :=
  (∃ g, is_goal g ∧ spec_path data c g) ∧
  ∀ g c', is_goal g → spec_path data c' g → c ≤ c'.

(** The arrays one such move away from [d]. *)
Definition spec_moves_from (d : list Z) : list (list Z * Z) :=
  p ← locations;
  match is_active p d with
  | Some true =>
      match spec_candidate_moves board_links p d with
      | Some moves =>
          link ← moves;
          match apply_move p link.1 link.2 d with
          | Some r => [r]
          | None => []
          end
      | None => []
      end
  | _ => []
  end.

(** A table of energies by exhaustive search: the queue is kept in the
    order of the energies, and an array gets the energy with which it is
    first taken from the queue. *)
Fixpoint spec_insert (x : Z * list Z) (l : list (Z * list Z))
  : list (Z * list Z) :=
  match l with
  | [] => [x]
  | y :: r => if x.1 <=? y.1 then x :: l else y :: spec_insert x r
  end.

Fixpoint spec_explore (fuel : nat) (todo : list (Z * list Z))
  (T : gmap (list Z) Z) : gmap (list Z) Z :=
  match fuel with
  | O => T
  | S fuel' =>
      match todo with
      | [] => T
      | (e, x) :: rest =>
          match T !! x with
          | Some _ => spec_explore fuel' rest T
          | None =>
              spec_explore fuel'
                (foldr (λ r acc, spec_insert (e + r.2, r.1) acc) rest
                       (spec_moves_from x))
                (<[x := e]> T)
          end
      end
  end.

(** A table that holds an energy for every array that a move leads to from
    an array of the table, not above the energy of that array plus the cost
    of the move. *)
Definition spec_closed (T : gmap (list Z) Z) : bool :=
  forallb (λ xe : list Z * Z,
             forallb (λ r : list Z * Z,
                        match T !! r.1 with
                        | Some ey => ey <=? xe.2 + r.2
                        | None => false
                        end)
                     (spec_moves_from xe.1))
          (map_to_list T).

(** No goal array of the table has an energy below [n]. *)
Definition spec_goals_from (n : Z) (T : gmap (list Z) Z) : bool :=
  forallb (λ xe : list Z * Z,
             implb (bool_decide (is_goal xe.1)) (n <=? xe.2))
          (map_to_list T).

(** A sequence of arrays and costs, each one move after the one before. *)
Fixpoint spec_route (d : list Z) (steps : list (list Z * Z)) : bool :=
  match steps with
  | [] => true
  | r :: steps' =>
      bool_decide (r ∈ spec_moves_from d) && spec_route r.1 steps'
  end.

Fixpoint spec_route_end (d : list Z) (steps : list (list Z * Z)) : list Z :=
  match steps with
  | [] => d
  | r :: steps' => spec_route_end r.1 steps'
  end.

Lemma spec_moves_from_complete d c d' :
  spec_legal_move d c d' → (d', c) ∈ spec_moves_from d.
Proof.
  intros (p & moves & link & Hp & Hpa & Hm & Hl & Happ).
  unfold spec_moves_from. apply list_elem_of_bind. exists p.
  split; [|done].
  rewrite Hpa, Hm. apply list_elem_of_bind. exists link. split; [|done].
  rewrite Happ. by left.
Qed.

Lemma spec_moves_from_sound d c d' :
  (d', c) ∈ spec_moves_from d → spec_legal_move d c d'.
Proof.
  unfold spec_moves_from. intros (p & Hin & Hp)%list_elem_of_bind.
  destruct (is_active p d) as [[]|] eqn:Hpa; try by inversion Hin.
  destruct (spec_candidate_moves board_links p d) as [moves|] eqn:Hm;
    [|by inversion Hin].
  apply list_elem_of_bind in Hin as (link & Hin & Hl).
  destruct (apply_move p link.1 link.2 d) as [r|] eqn:Happ;
    [|by inversion Hin].
  apply list_elem_of_singleton in Hin as <-.
  by exists p, moves, link.
Qed.

Lemma spec_closed_bound T x ex e g :
  spec_closed T = true → T !! x = Some ex → spec_path x e g →
  ∃ eg, T !! g = Some eg ∧ eg ≤ ex + e.
Proof.
  intros HT Hx Hp. revert ex Hx.
  induction Hp as [d|d c d' c' d'' Hm Hp IH]; intros ex Hx.
  - exists ex. split; [done | lia].
  - unfold spec_closed in HT. rewrite forallb_forall in HT.
    pose proof (HT (d, ex)) as Hd.
    rewrite forallb_forall in Hd.
    assert (In (d, ex) (map_to_list T)) as Hin.
    { apply list_elem_of_In. by apply elem_of_map_to_list. }
    pose proof (Hd Hin (d', c)) as Hstep. cbn [fst snd] in Hstep.
    assert (In (d', c) (spec_moves_from d)) as Hin'.
    { apply list_elem_of_In. by apply spec_moves_from_complete. }
    specialize (Hstep Hin').
    destruct (T !! d') as [ey|] eqn:Hy; [|done].
    apply Z.leb_le in Hstep.
    destruct (IH ey eq_refl) as (eg & Hg & Hle).
    exists eg. split; [done | lia].
Qed.

Lemma spec_route_path d steps :
  spec_route d steps = true →
  spec_path d (foldr (λ r acc, r.2 + acc) 0 steps) (spec_route_end d steps).
Proof.
  revert d. induction steps as [|[d' c] steps IH]; intros d Hr.
  - apply spec_path_nil.
  - cbn [spec_route] in Hr. apply andb_true_iff in Hr as [Hm Hr].
    apply bool_decide_eq_true in Hm. apply spec_moves_from_sound in Hm.
    cbn [foldr fst snd spec_route_end].
    eapply spec_path_cons; [exact Hm | by apply IH].
Qed.

Lemma spec_table_lower_bound T d n g c :
  spec_closed T = true → T !! d = Some 0 → spec_goals_from n T = true →
  is_goal g → spec_path d c g → n ≤ c.
Proof.
  intros Hclosed Hstart Hgoals Hg Hp.
  destruct (spec_closed_bound T d 0 c g Hclosed Hstart Hp)
    as (eg & Hlook & Hle).
  unfold spec_goals_from in Hgoals. rewrite forallb_forall in Hgoals.
  assert (In (g, eg) (map_to_list T)) as Hin.
  { apply list_elem_of_In. apply elem_of_map_to_list. exact Hlook. }
  pose proof (Hgoals (g, eg) Hin) as Hge. cbn [fst snd] in Hge.
  rewrite (bool_decide_eq_true_2 _ Hg) in Hge. cbn [implb] in Hge.
  apply Z.leb_le in Hge. lia.
Qed.

(** An [A] and a [B] in the hallway, the [A] next to its room, in which a
    [C] sits alone. *)
Definition board_blocked_room : list Z :=
  [0; 2; 0; 1; 0; 0; 0; 0; 0; 0; 0; 3; 0; 0; 0].

Definition table_blocked_room : gmap (list Z) Z :=
  spec_explore 4000 [(0, board_blocked_room)] ∅.

(** The [A] steps aside to the right, the [B] goes home, the [A] comes back
    and goes to the left, the [C] goes home, and the [A] goes home. *)
Definition route_blocked_room : list (list Z * Z) :=
  [ ([0; 2; 0; 0; 0; 1; 0; 0; 0; 0; 0; 3; 0; 0; 0], 2);
    ([0; 0; 0; 2; 0; 1; 0; 0; 0; 0; 0; 3; 0; 0; 0], 20);
    ([0; 0; 0; 0; 0; 1; 0; 0; 0; 0; 0; 3; 2; 0; 0], 30);
    ([0; 0; 0; 1; 0; 0; 0; 0; 0; 0; 0; 3; 2; 0; 0], 2);
    ([0; 1; 0; 0; 0; 0; 0; 0; 0; 0; 0; 3; 2; 0; 0], 2);
    ([0; 1; 0; 3; 0; 0; 0; 0; 0; 0; 0; 0; 2; 0; 0], 300);
    ([0; 1; 0; 0; 0; 3; 0; 0; 0; 0; 0; 0; 2; 0; 0], 200);
    ([0; 1; 0; 0; 0; 0; 0; 0; 0; 0; 0; 0; 2; 3; 0], 300);
    ([0; 0; 0; 0; 0; 0; 0; 0; 0; 0; 0; 1; 2; 3; 0], 3) ].

(** C1 as stated fails: on this board the least energy of a sequence of
    moves that the specification calls legal is 859, and the search prints
    857.  The sequence it finds lets the [A] wait in its own room above the
    [C] while the [B] passes, an entry that [accepts] admits and the
    specification does not. *)
Lemma search_below_spec_minimum :
  wf_data board_blocked_room ∧
  search 1000 board_blocked_room = Printed 857 ∧
  spec_min_cost board_blocked_room 859 ∧
  accepts (loc 11) board_blocked_room 1 = Some true ∧
  spec_accepts (loc 11) board_blocked_room 1 = Some false.
Proof.
  split; [reflexivity|]. split; [vm_compute; reflexivity|].
  split; [|split; reflexivity]. split.
  - exists (spec_route_end board_blocked_room route_blocked_room).
    split; [vm_compute; reflexivity|].
    exact (spec_route_path board_blocked_room route_blocked_room
             ltac:(vm_compute; reflexivity)).
  - intros g c' Hg Hp.
    apply (spec_table_lower_bound table_blocked_room board_blocked_room
             859 g c'); [| | |exact Hg|exact Hp]; vm_compute; reflexivity.
Qed.

(** * Further properties *)

(** ** The link table *)

Lemma links_of_add_link tbl p q w r :
  (index p < length tbl)%nat →
  links_of (add_link tbl p q w) r
  = links_of tbl r ++ (if decide (index r = index p) then [(q, w)] else []).
Proof.
  intros Hp. unfold add_link, links_of, LinkTable in *.
  destruct (tbl !! index p) as [ls|] eqn:Hls.
  - destruct (decide (index r = index p)) as [->|Hne].
    + rewrite list_lookup_insert_eq by done. by rewrite Hls.
    + rewrite list_lookup_insert_ne by done. by rewrite app_nil_r.
  - apply lookup_ge_None in Hls. lia.
Qed.

Lemma length_add_link tbl p q w : length (add_link tbl p q w) = length tbl.
Proof.
  unfold add_link. destruct (tbl !! index p); [|done]. apply length_insert.
Qed.

(** [connect] on the rows of the table. *)
Lemma links_of_connect tbl p1 p2 w r :
  (index p1 < length tbl)%nat → (index p2 < length tbl)%nat →
  links_of (connect tbl p1 p2 w) r
  = links_of tbl r
    ++ (if decide (index r = index p1) then [(p2, w)] else [])
    ++ (if decide (index r = index p2) then [(p1, w)] else []).
Proof.
  intros H1 H2. unfold connect.
  rewrite links_of_add_link by (by rewrite length_add_link).
  rewrite links_of_add_link by done. by rewrite <- app_assoc.
Qed.

Lemma locations_same_index p q :
  p ∈ locations → q ∈ locations → index p = index q → p = q.
Proof.
  intros [_ Hp]%locations_index [_ Hq]%locations_index Hi.
  rewrite Hi, Hq in Hp. by injection Hp.
Qed.

(** X1.  For the locations of the board, each of which has its own index,
    [connect] appends the link to [p2] at the end of the links of [p1],
    then the link to [p1] at the end of the links of [p2], and leaves the
    links of every other location as they are; connecting a location to
    itself gives it two links to itself. *)
Theorem connect_links tbl p1 p2 w r :
  length tbl = 15%nat →
  p1 ∈ locations → p2 ∈ locations → r ∈ locations →
  links_of (connect tbl p1 p2 w) r
  = links_of tbl r
    ++ (if decide (r = p1) then [(p2, w)] else [])
    ++ (if decide (r = p2) then [(p1, w)] else []).
Proof.
  intros Hlen H1 H2 Hr.
  pose proof (proj1 (locations_index p1 H1)) as Hi1.
  pose proof (proj1 (locations_index p2 H2)) as Hi2.
  rewrite links_of_connect by lia.
  assert (∀ q (x : list (Location * Z)), q ∈ locations →
            (if decide (index r = index q) then x else [])
            = (if decide (r = q) then x else [])) as Hcase.
  { intros q x Hq.
    destruct (decide (index r = index q)) as [Hi|Hi];
      destruct (decide (r = q)) as [He|He]; try done.
    - destruct He. by apply locations_same_index.
    - destruct Hi. by rewrite He. }
  by rewrite !Hcase.
Qed.

Lemma connect_links_witness :
  links_of (connect board_links (loc 0) (loc 1) 7) (loc 1)
  = links_of board_links (loc 1)
    ++ (if decide (loc 1 = loc 0) then [(loc 1, 7)] else [])
    ++ (if decide (loc 1 = loc 1) then [(loc 0, 7)] else []).
Proof.
  apply (connect_links board_links (loc 0) (loc 1) 7 (loc 1)).
  - reflexivity.
  - apply loc_elem. lia.
  - apply loc_elem. lia.
  - apply loc_elem. lia.
Defined.

(** ** The order on arrays *)

Lemma list_ltb_irrefl l : list_ltb l l = false.
Proof.
  induction l as [|x l IH]; [done|]. simpl.
  rewrite Z.ltb_irrefl, Z.eqb_refl, IH. done.
Qed.

Lemma list_ltb_trans l1 l2 l3 :
  list_ltb l1 l2 = true → list_ltb l2 l3 = true → list_ltb l1 l3 = true.
Proof.
  revert l2 l3. induction l1 as [|x l1 IH]; intros [|y l2] [|z l3];
    simpl; try done.
  rewrite !orb_true_iff, !andb_true_iff, !Z.ltb_lt, !Z.eqb_eq.
  intros [?|[-> H12]] [?|[-> H23]]; try (left; lia).
  right. split; [done|]. by eapply IH.
Qed.

Lemma list_ltb_total l1 l2 :
  list_ltb l1 l2 = false → list_ltb l2 l1 = false → l1 = l2.
Proof.
  revert l2. induction l1 as [|x l1 IH]; intros [|y l2]; simpl; try done.
  rewrite !orb_false_iff, !andb_false_iff, !Z.ltb_ge, !Z.eqb_neq.
  intros [? [?|H12]] [? [?|H21]]; try lia.
  assert (x = y) as -> by lia. f_equal. by apply IH.
Qed.

(** X2.  [State.__lt__], that is [<] on the arrays, is a strict total
    order: no array is below itself, the order is transitive, and two
    arrays of which none is below the other are equal.  Queue entries with
    the same estimate and energy are therefore tied only when their arrays
    are the same. *)
Theorem state_lt_strict_total :
  (∀ l, list_ltb l l = false) ∧
  (∀ l1 l2 l3,
     list_ltb l1 l2 = true → list_ltb l2 l3 = true → list_ltb l1 l3 = true) ∧
  (∀ l1 l2, list_ltb l1 l2 = false → list_ltb l2 l1 = false → l1 = l2) ∧
  (∀ x y : Entry,
     entry_ltb x y = false → entry_ltb y x = false →
     x.1.1 = y.1.1 ∧ x.1.2 = y.1.2 ∧ data x.2 = data y.2).
Proof.
  split; [apply list_ltb_irrefl|]. split; [apply list_ltb_trans|].
  split; [apply list_ltb_total|].
  intros [[est1 e1] s1] [[est2 e2] s2]. simpl.
  rewrite !orb_false_iff, !andb_false_iff, !orb_false_iff, !andb_false_iff,
    !Z.ltb_ge, !Z.eqb_neq.
  intros [? H1] [? H2]. assert (est1 = est2) as -> by lia.
  destruct H1 as [?|[? H1]]; [done|]. destruct H2 as [?|[? H2]]; [done|].
  assert (e1 = e2) as -> by lia.
  destruct H1 as [?|H1]; [done|]. destruct H2 as [?|H2]; [done|].
  split; [done|]. split; [done|]. by apply list_ltb_total.
Qed.

(** ** More on the heuristic *)

(** X3.  The estimate is consistent: along one legal move on a well-formed
    array it drops by no more than the energy of the move. *)
Theorem estimation_consistent d c d' :
  wf_data d → legal_move d c d' →
  ∃ a b, get_estimation d = Some a ∧ get_estimation d' = Some b ∧
         a ≤ c + b.
Proof.
  intros Hwf Hm. destruct (legal_move_wf _ _ _ Hwf Hm) as (Hwf' & _ & Hh).
  exists (h d), (h d').
  by rewrite (get_estimation_wf _ Hwf), (get_estimation_wf _ Hwf').
Qed.

Lemma estimation_consistent_witness :
  ∃ a b, get_estimation board_one_move = Some a ∧
         get_estimation [0; 0; 0; 0; 0; 0; 0; 0; 0; 0; 0; 6; 0; 0; 0] = Some b ∧
         a ≤ 2 + b.
Proof.
  apply (estimation_consistent board_one_move 2
           [0; 0; 0; 0; 0; 0; 0; 0; 0; 0; 0; 6; 0; 0; 0]).
  - reflexivity.
  - apply board_one_move_step.
Defined.

(** X4.  The estimate of a well-formed array without active location is
    0. *)
Theorem estimation_goal_zero g :
  wf_data g → is_goal g → get_estimation g = Some 0.
Proof.
  intros Hwf Hg. by rewrite (get_estimation_wf _ Hwf), (h_goal _ Hwf Hg).
Qed.

Lemma estimation_goal_zero_witness :
  get_estimation [0; 0; 0; 0; 0; 0; 0; 0; 0; 0; 0; 6; 0; 0; 0] = Some 0.
Proof.
  apply (estimation_goal_zero [0; 0; 0; 0; 0; 0; 0; 0; 0; 0; 0; 6; 0; 0; 0]);
    reflexivity.
Defined.

(** ** What the queue and the table hold *)

(** X5.  Every entry [(estimate, energy, state)] of the queue is sound: the
    energy is that of a sequence of legal moves from the initial array to
    the array of the entry, and the estimate is the energy plus
    [get_estimation] of that array, so it is never below the energy. *)
Theorem frontier_entries_sound d0 c x :
  wf_data d0 → reachable d0 c → x ∈ todo c →
  path d0 x.1.2 (data x.2) ∧
  ∃ hv, get_estimation (data x.2) = Some hv ∧ 0 ≤ hv ∧
        x.1.1 = hv + x.1.2.
Proof.
  intros Hwf Hreach Hx.
  destruct (inv_todo d0 c (inv_reachable d0 Hwf c Hreach) x Hx)
    as ([Hwfx _] & Hest & Hpath).
  split; [done|]. exists (h (data x.2)).
  split; [by apply get_estimation_wf|]. split; [by apply h_nonneg | done].
Qed.

Lemma frontier_entries_sound_witness :
  path board_one_move 0 board_one_move ∧
  ∃ hv, get_estimation board_one_move = Some hv ∧ 0 ≤ hv ∧ 2 = hv + 0.
Proof.
  pose proof (frontier_entries_sound board_one_move start_one_move
                (2, 0, {| data := board_one_move;
                          active_locations := {[1%nat]} |})) as H.
  apply H.
  - reflexivity.
  - apply start_one_move_reachable.
  - by left.
Defined.

(** X6.  Every energy recorded in the table of visited arrays is the energy
    of a sequence of legal moves from the initial array to that array, and
    the best result is either still [2 ** 63] or the energy of such a
    sequence that ends in a goal array. *)
Theorem visited_energies_sound d0 c :
  wf_data d0 → reachable d0 c →
  (∀ d e, states c !! d = Some e → path d0 e d) ∧
  (result c = 2 ^ 63 ∨
   (result c < 2 ^ 63 ∧ ∃ g, is_goal g ∧ path d0 (result c) g)).
Proof.
  intros Hwf Hreach. pose proof (inv_reachable d0 Hwf c Hreach) as Hinv.
  split; [apply (inv_states d0 c Hinv) | apply (inv_result d0 c Hinv)].
Qed.

Lemma visited_energies_sound_witness :
  (∀ d e, states after_one_move !! d = Some e → path board_one_move e d) ∧
  (result after_one_move = 2 ^ 63 ∨
   (result after_one_move < 2 ^ 63 ∧
    ∃ g, is_goal g ∧ path board_one_move (result after_one_move) g)).
Proof.
  apply (visited_energies_sound board_one_move after_one_move).
  - reflexivity.
  - exists start_one_move. split; [reflexivity|].
    eapply rtc_l; [apply start_one_move_step | apply rtc_refl].
Defined.

(** ** The table holds least energies *)

Section least.
Variable d0 : list Z.
Hypothesis Hwf0 : wf_data d0.

(** [n] is in the queue with an energy of at most [g]. *)
Definition open_at (c : Config) (n : list Z) (g : Z) : Prop :=
  ∃ y, y ∈ todo c ∧ data y.2 = n ∧ y.1.2 ≤ g.

(** [n] is in the table with an energy of at most [g]. *)
Definition closed_at (c : Config) (n : list Z) (g : Z) : Prop :=
  ∃ p, states c !! n = Some p ∧ p ≤ g.

(** Every successor of a recorded array is in the queue or in the table
    with the energy of that way to it at most, unless the best result
    already rules it out; a recorded goal array bounds the result. *)
Record linv (c : Config) : Prop := {
  l_start : open_at c d0 0 ∨ closed_at c d0 0 ∨ result c ≤ h d0;
  l_next :
    ∀ n p c1 n1,
      states c !! n = Some p → legal_move n c1 n1 →
      open_at c n1 (p + c1) ∨ closed_at c n1 (p + c1)
      ∨ result c ≤ p + c1 + h n1;
  l_goal : ∀ g p, is_goal g → states c !! g = Some p → result c ≤ p
}.

Lemma linv_initial c0 : initial d0 = Some c0 → linv c0.
Proof using Hwf0.
  destruct (initial_wf d0 Hwf0) as (act & Hinit & Hok). rewrite Hinit.
  intros [= <-]. split; cbn [todo result states].
  - left. eexists. split; [by left|]. done.
  - intros n p c1 n1 Hp. by rewrite lookup_empty in Hp.
  - intros g p _ Hp. by rewrite lookup_empty in Hp.
Qed.

(** Along a sequence of moves that starts at a recorded array, something
    is left to do in the queue, or the best result rules the end out, or
    the end is recorded. *)
Lemma linv_walk c n g e d :
  inv d0 c → linv c →
  path d0 g n → closed_at c n g → path n e d →
  (∃ y, y ∈ todo c ∧ y.1.1 ≤ g + e + h d)
  ∨ result c ≤ g + e + h d
  ∨ closed_at c d (g + e).
Proof using Hwf0.
  intros Hinv Hl Hp0 Hc Hp. revert g Hp0 Hc.
  induction Hp as [d|n c1 n1 e2 d Hm Hp IH]; intros g Hp0 (p & Hsp & Hle).
  - right; right. exists p. split; [done | lia].
  - assert (path d0 (g + c1) n1) as Hp1 by (by eapply path_snoc).
    destruct (path_wf _ _ _ Hwf0 Hp1) as (Hwf1 & _ & _).
    destruct (path_wf _ _ _ Hwf1 Hp) as (_ & _ & Hh).
    destruct (l_next c Hl n p c1 n1 Hsp Hm)
      as [(y & Hy & Hd & Hey)|[(p1 & Hp1' & Hle1)|Hres]].
    + left. exists y. split; [done|].
      destruct (inv_todo d0 c Hinv y Hy) as (_ & Hest & _).
      rewrite Hd in Hest. lia.
    + destruct (IH (g + c1) Hp1) as [(y & Hy & Hey)|[Hres|(p2 & Hp2 & Hle2)]].
      * exists p1. split; [done | lia].
      * left. exists y. split; [done | lia].
      * right; left. lia.
      * right; right. exists p2. split; [done | lia].
    + right; left. lia.
Qed.

Lemma linv_path c e d :
  inv d0 c → linv c → path d0 e d →
  (∃ y, y ∈ todo c ∧ y.1.1 ≤ e + h d)
  ∨ result c ≤ e + h d
  ∨ closed_at c d e.
Proof using Hwf0.
  intros Hinv Hl Hp.
  destruct (path_wf _ _ _ Hwf0 Hp) as (_ & _ & Hh).
  destruct (l_start c Hl) as [(y & Hy & Hd & Hey)|[Hc|Hres]].
  - left. exists y. split; [done|].
    destruct (inv_todo d0 c Hinv y Hy) as (_ & Hest & _).
    rewrite Hd in Hest. lia.
  - destruct (linv_walk c d0 0 e d Hinv Hl (path_nil d0) Hc Hp)
      as [?|[?|?]]; [by left | right; left; lia | by right; right].
  - right; left. lia.
Qed.

Lemma linv_step c c' : inv d0 c → linv c → loop_step c c' → linv c'.
Proof using Hwf0.
  intros Hinv Hl Hstep. unfold loop_step in Hstep.
  pose proof (iteration_cases c (inv_state_ok d0 c Hinv)) as Hcases.
  destruct (pq_get (todo c)) as [[[[est e] st] rest]|] eqn:Hpop;
    [|by rewrite Hcases in Hstep].
  pose proof (λ x, pq_get_elem _ _ _ x Hpop) as Hel.
  assert (entry_ok d0 (est, e, st)) as (Hok & Hest & Hpath)
    by (apply (inv_todo d0 c Hinv), Hel; by left).
  simpl in Hest, Hpath, Hok.
  destruct Hcases as [[Hwhy Hit]|(Hlt & Hprev & news & Hnews & Hit)];
    rewrite Hit in Hstep; injection Hstep as <-.
  - (* discarded *)
    assert (∀ n g, open_at c n g →
                   open_at {| result := result c; states := states c;
                              todo := rest |} n g
                   ∨ closed_at c n g ∨ result c ≤ g + h n) as Hkeep.
    { intros n g (y & Hy & Hd & Hey). apply Hel in Hy as [->|Hy].
      - simpl in Hd, Hey. subst n.
        destruct Hwhy as [?|(p & Hp & Hle)].
        + right; right. lia.
        + right; left. exists p. split; [done | lia].
      - left. by exists y. }
    split; unfold closed_at in *; cbn [todo result states].
    + destruct (l_start c Hl) as [Ho|[?|?]]; [|tauto|tauto].
      destruct (Hkeep _ _ Ho) as [?|[?|?]]; [tauto | tauto |].
      right; right. lia.
    + intros n p c1 n1 Hp Hm.
      destruct (l_next c Hl n p c1 n1 Hp Hm) as [Ho|[?|?]]; [|tauto|tauto].
      destruct (Hkeep _ _ Ho) as [?|[?|?]]; tauto.
    + apply (l_goal c Hl).
  - (* recorded and expanded *)
    set (r' := if bool_decide (size (active_locations st) = 0%nat)
                  && (e <? result c) then e else result c) in *.
    assert (r' ≤ result c) as Hr'.
    { unfold r'. destruct (bool_decide _); simpl; [|lia].
      destruct (Z.ltb_spec e (result c)); lia. }
    assert (∀ n g, closed_at c n g →
                   ∃ p, <[data st := e]> (states c) !! n = Some p ∧ p ≤ g)
      as Hclosed.
    { intros n g (p & Hp & Hle).
      destruct (decide (data st = n)) as [<-|Hne].
      - exists e. rewrite lookup_insert_eq. split; [done|].
        specialize (Hprev p Hp). lia.
      - exists p. by rewrite lookup_insert_ne. }
    assert (∀ n g, open_at c n g →
                   open_at {| result := r';
                              states := <[data st := e]> (states c);
                              todo := news ++ rest |} n g
                   ∨ ∃ p, <[data st := e]> (states c) !! n = Some p ∧ p ≤ g)
      as Hkeep.
    { intros n g (y & Hy & Hd & Hey). apply Hel in Hy as [->|Hy].
      - simpl in Hd, Hey. subst n. right. exists e.
        by rewrite lookup_insert_eq.
      - left. exists y. split; [|done]. cbn [todo]. apply elem_of_app.
        by right. }
    split; unfold closed_at in *; cbn [todo result states].
    + destruct (l_start c Hl) as [Ho|[Hc|?]].
      * destruct (Hkeep _ _ Ho); tauto.
      * right; left. by apply Hclosed.
      * right; right. lia.
    + intros n p c1 n1 Hp Hm.
      destruct (decide (data st = n)) as [<-|Hne].
      * rewrite lookup_insert_eq in Hp. injection Hp as <-. left.
        destruct (move_successor st e c1 n1 Hok Hm) as (st' & Hd' & Hs).
        eexists. split; [apply elem_of_app; left; by apply Hnews|].
        simpl. split; [done | lia].
      * rewrite lookup_insert_ne in Hp by done.
        destruct (l_next c Hl n p c1 n1 Hp Hm) as [Ho|[Hc|?]].
        -- destruct (Hkeep _ _ Ho); tauto.
        -- right; left. by apply Hclosed.
        -- right; right. lia.
    + intros g p Hg. destruct (decide (data st = g)) as [<-|Hne].
      * rewrite lookup_insert_eq. intros [= <-].
        unfold r'. destruct Hok as [_ Hact].
        unfold is_goal in Hg. rewrite Hact in Hg. injection Hg as ->.
        rewrite size_empty, bool_decide_eq_true_2 by done. simpl.
        destruct (Z.ltb_spec e (result c)); lia.
      * rewrite lookup_insert_ne by done. intros Hp.
        pose proof (l_goal c Hl g p Hg Hp). lia.
Qed.

(** The energies in the table are least energies. *)
Definition table_least (c : Config) : Prop :=
  ∀ d p e, states c !! d = Some p → path d0 e d → p ≤ e.

Lemma table_least_step c c' :
  inv d0 c → linv c → table_least c → loop_step c c' → table_least c'.
Proof using Hwf0.
  intros Hinv Hl Ht Hstep. unfold loop_step in Hstep.
  pose proof (iteration_cases c (inv_state_ok d0 c Hinv)) as Hcases.
  destruct (pq_get (todo c)) as [[[[est e] st] rest]|] eqn:Hpop;
    [|by rewrite Hcases in Hstep].
  pose proof (λ x, pq_get_elem _ _ _ x Hpop) as Hel.
  destruct (pq_get_Some _ _ _ Hpop) as [_ Hmin].
  assert (entry_ok d0 (est, e, st)) as (Hok & Hest & Hpath)
    by (apply (inv_todo d0 c Hinv), Hel; by left).
  simpl in Hest, Hpath, Hok.
  destruct Hcases as [[Hwhy Hit]|(Hlt & Hprev & news & Hnews & Hit)];
    rewrite Hit in Hstep; injection Hstep as <-; [exact Ht|].
  intros d p e' Hp Hpe. cbn [states] in Hp.
  destruct (decide (data st = d)) as [<-|Hne];
    [|rewrite lookup_insert_ne in Hp by done; by eapply Ht].
  rewrite lookup_insert_eq in Hp. injection Hp as <-.
  destruct (Z.le_gt_cases e e') as [?|Hgt]; [done|]. exfalso.
  destruct (linv_path c e' (data st) Hinv Hl Hpe)
    as [(y & Hy & Hey)|[Hres|(p & Hp & Hle)]].
  - apply Hel in Hy as [->|Hy]; [simpl in Hey; lia|].
    specialize (Hmin y Hy). simpl in Hmin. lia.
  - lia.
  - specialize (Hprev p Hp). lia.
Qed.

Lemma least_reachable c :
  reachable d0 c → inv d0 c ∧ linv c ∧ table_least c.
Proof using Hwf0.
  intros (c0 & Hinit & Hrtc).
  pose proof (inv_initial d0 Hwf0 c0 Hinit) as Hinv.
  pose proof (linv_initial c0 Hinit) as Hl.
  assert (table_least c0) as Ht.
  { destruct (initial_wf d0 Hwf0) as (act & Hinit' & _).
    rewrite Hinit' in Hinit. injection Hinit as <-.
    intros d p e Hp. cbn [states] in Hp. by rewrite lookup_empty in Hp. }
  clear Hinit. induction Hrtc as [|c1 c2 c3 Hstep _ IH]; [done|].
  apply IH; [by eapply inv_step | by eapply linv_step
            | by eapply table_least_step].
Qed.
End least.

(** X7.  The energy recorded for an array in the table of visited arrays is
    the least energy of all sequences of legal moves from the initial array
    to that array. *)
Theorem visited_energies_least d0 c d p :
  wf_data d0 → reachable d0 c → states c !! d = Some p →
  path d0 p d ∧ ∀ e, path d0 e d → p ≤ e.
Proof.
  intros Hwf Hreach Hp.
  destruct (least_reachable d0 Hwf c Hreach) as (Hinv & _ & Ht).
  split; [by apply (inv_states d0 c Hinv)|]. intros e He. by eapply Ht.
Qed.

Lemma after_one_move_reachable : reachable board_one_move after_one_move.
Proof.
  exists start_one_move. split; [reflexivity|].
  eapply rtc_l; [apply start_one_move_step | apply rtc_refl].
Qed.

Lemma visited_energies_least_witness :
  path board_one_move 0 board_one_move ∧
  ∀ e, path board_one_move e board_one_move → 0 ≤ e.
Proof.
  apply (visited_energies_least board_one_move after_one_move).
  - reflexivity.
  - apply after_one_move_reachable.
  - vm_compute. reflexivity.
Defined.

Lemma short_goal_path d0 e g :
  wf_data d0 → path d0 e g →
  ∃ e', path d0 e' g ∧ e' ≤ e ∧ e' < 2 ^ 63.
Proof.
  intros Hwf Hp. destruct (path_route _ _ _ Hp) as [l Hr].
  destruct (route_simple _ _ _ _ Hwf Hr) as (l' & e' & Hr' & Hle & Hnd).
  destruct (route_wf _ _ _ _ Hwf Hr') as [Hall Hb].
  pose proof (wf_data_count l' Hnd Hall) as Hcount.
  exists e'. split; [by eapply route_path|]. split; [done|].
  assert (5 ^ 19 = 19073486328125) as H5 by reflexivity.
  rewrite two_63. lia.
Qed.

Lemma final_result_lower d0 c e g :
  wf_data d0 → reachable d0 c → todo c = [] →
  path d0 e g → is_goal g → result c ≤ e.
Proof.
  intros Hwf Hreach Hempty Hp Hg.
  destruct (least_reachable d0 Hwf c Hreach) as (Hinv & Hl & _).
  destruct (path_wf _ _ _ Hwf Hp) as (Hwfg & _ & _).
  pose proof (h_goal g Hwfg Hg) as Hh.
  destruct (linv_path d0 Hwf c e g Hinv Hl Hp)
    as [(y & Hy & _)|[Hres|(p & Hsp & Hle)]].
  - rewrite Hempty in Hy. by inversion Hy.
  - lia.
  - pose proof (l_goal d0 c Hl g p Hg Hsp). lia.
Qed.

Lemma search_outcome d0 :
  wf_data d0 →
  ∃ fuel r,
    search fuel d0 = Printed r ∧
    ((r = 2 ^ 63 ∧ ∀ e g, path d0 e g → ¬ is_goal g)
     ∨ (r < 2 ^ 63 ∧ min_cost d0 r)).
Proof.
  intros Hwf.
  destruct (initial_wf d0 Hwf) as (act & Hinit & _).
  destruct (run_terminates d0 _ (inv_initial d0 Hwf _ Hinit))
    as (fuel & r & Hrun).
  assert (search fuel d0 = Printed r) as Hs
    by (unfold search; by rewrite Hinit).
  exists fuel, r. split; [done|].
  destruct (search_Printed fuel d0 r Hs) as (cf & Hreach & Hempty & ->).
  pose proof (inv_reachable d0 Hwf cf Hreach) as Hinv.
  destruct (inv_result d0 cf Hinv) as [Hres|[Hlt (g & Hg & Hp)]].
  - left. split; [done|]. intros e g Hp Hg.
    destruct (short_goal_path d0 e g Hwf Hp) as (e' & Hp' & _ & Hlt).
    pose proof (final_result_lower d0 cf e' g Hwf Hreach Hempty Hp' Hg).
    lia.
  - right. split; [done|]. split; [by exists g|].
    intros g' e Hg' Hp'. by eapply final_result_lower.
Qed.

(** X8.  On every well-formed array the search prints a number that tells
    whether a goal can be reached: it prints [2 ** 63] when no sequence of
    legal moves leads to a goal array, and otherwise the least energy of
    such a sequence, which is below [2 ** 63]. *)
Theorem search_decides d0 :
  wf_data d0 →
  ∃ fuel r,
    search fuel d0 = Printed r ∧
    ((r = 2 ^ 63 ∧ ∀ e g, path d0 e g → ¬ is_goal g)
     ∨ (r < 2 ^ 63 ∧ min_cost d0 r)).
Proof. apply search_outcome. Qed.

Lemma search_decides_witness :
  ∃ fuel r,
    search fuel board_one_move = Printed r ∧
    ((r = 2 ^ 63 ∧ ∀ e g, path board_one_move e g → ¬ is_goal g)
     ∨ (r < 2 ^ 63 ∧ min_cost board_one_move r)).
Proof. apply (search_decides board_one_move). reflexivity. Defined.

(** ** What a move changes *)

(** A legal move on a well-formed array, written out on the two slots it
    touches. *)
Lemma legal_move_shape d c d' :
  wf_data d → legal_move d c d' →
  ∃ p link vs vt,
    p ∈ locations ∧ link ∈ links_of board_links p ∧
    d !! index p = Some vs ∧ d !! index link.1 = Some vt ∧
    0 ≤ vs ≤ slot_bound (index p) ∧ 0 ≤ vt ≤ slot_bound (index link.1) ∧
    slot_is_active (kind p) vs = true ∧
    slot_accepts (kind link.1) vt (slot_get (kind p) vs) = true ∧
    index p ≠ index link.1 ∧
    d' = <[index link.1 :=
             (slot_put (kind link.1) vt (slot_get (kind p) vs)).1]>
           (<[index p := (slot_put (kind p) vs 0).1]> d) ∧
    c = 10 ^ (slot_get (kind p) vs - 1)
        * (link.2 + (slot_put (kind p) vs 0).2
           + (slot_put (kind link.1) vt (slot_get (kind p) vs)).2).
Proof.
  intros Hwf (p & moves & link & Hp & Hact & Hm & Hl & Happ).
  destruct (wf_data_loc d p Hwf Hp) as (vs & Hvs & Hbs).
  destruct (candidate_moves_elem d p vs moves link Hwf Hp Hvs Hm Hl)
    as (Hlink & vt & Hvt & Hbt & Hacc).
  pose proof (all_moves_ok p link vs vt Hp Hlink Hbs Hbt) as Hok.
  rewrite (is_active_slot _ _ _ Hvs) in Hact. injection Hact as Hact.
  unfold move_ok in Hok. rewrite Hact, Hacc in Hok. cbn [andb] in Hok.
  destruct (slot_put (kind p) vs 0) as [vs' x1] eqn:Hps.
  destruct (slot_put (kind link.1) vt (slot_get (kind p) vs))
    as [vt' x2] eqn:Hpt.
  rewrite !andb_true_iff, !Z.leb_le, !Z.ltb_lt, negb_true_iff,
    Nat.eqb_neq in Hok.
  destruct Hok as ((((((((((? & ?) & ?) & ?) & ?) & ?) & ?) & ?) & Hh) & Himp)
                   & Hne).
  assert ((<[index p := vs']> d) !! index link.1 = Some vt) as Hvt'
    by (by rewrite list_lookup_insert_ne).
  unfold apply_move in Happ. rewrite (get_slot _ _ _ Hvs) in Happ.
  cbn [mbind option_bind] in Happ. unfold py_pow10 in Happ.
  destruct (_ <? 0) eqn:Hlt; [lia|]. cbn [mbind option_bind] in Happ.
  rewrite (put_slot _ _ _ Hvs), Hps in Happ.
  cbn [mbind option_bind fst snd] in Happ.
  rewrite (put_slot _ _ _ Hvt'), Hpt in Happ.
  cbn [mbind option_bind fst snd] in Happ. injection Happ as <- <-.
  exists p, link, vs, vt. rewrite Hps, Hpt. cbn [fst snd].
  repeat split; try done; lia.
Qed.

(** A test on the slot values of every enabled move of the board. *)
Definition check_moves (Q : Location → Location * Z → Z → Z → bool) : bool :=
  forallb (λ p, forallb (λ link,
    forallb (λ vs, forallb (λ vt,
      implb (slot_is_active (kind p) vs
             && slot_accepts (kind link.1) vt (slot_get (kind p) vs))
            (Q p link vs vt))
      (slot_values (index link.1)))
      (slot_values (index p)))
    (links_of board_links p)) locations.

Lemma check_moves_sound Q p link vs vt :
  check_moves Q = true →
  p ∈ locations → link ∈ links_of board_links p →
  0 ≤ vs ≤ slot_bound (index p) → 0 ≤ vt ≤ slot_bound (index link.1) →
  slot_is_active (kind p) vs = true →
  slot_accepts (kind link.1) vt (slot_get (kind p) vs) = true →
  Q p link vs vt = true.
Proof.
  intros H Hp Hl Hs Ht Ha Hacc. unfold check_moves in H.
  rewrite forallb_forall in H. apply list_elem_of_In in Hp, Hl.
  specialize (H p Hp). rewrite forallb_forall in H.
  specialize (H link Hl). rewrite forallb_forall in H.
  specialize (H vs (slot_values_elem _ _ Hs)). rewrite forallb_forall in H.
  specialize (H vt (slot_values_elem _ _ Ht)).
  by rewrite Ha, Hacc in H.
Qed.

(** *** Units are neither created nor destroyed *)

(** The number of units of type [t] in slot [i] holding [v]. *)
Definition slot_units (t : Z) (i : nat) (v : Z) : Z :=
  if (i <? 11)%nat then (if v =? t then 1 else 0)
  else (if v / 5 =? t then 1 else 0) + (if v mod 5 =? t then 1 else 0).

Fixpoint units_from (t : Z) (i : nat) (l : list Z) : Z :=
  match l with
  | [] => 0
  | v :: l' => slot_units t i v + units_from t (S i) l'
  end.

(** The number of units of type [t] on the board. *)
Definition count_units (t : Z) (d : list Z) : Z := units_from t 0 d.

Lemma units_from_insert t i l k v v' :
  l !! k = Some v →
  units_from t i (<[k := v']> l)
  = units_from t i l - slot_units t (i + k) v + slot_units t (i + k) v'.
Proof.
  revert i k. induction l as [|x l IH]; intros i k Hk; [done|].
  destruct k as [|k]; simpl in *.
  - injection Hk as ->. rewrite Nat.add_0_r. lia.
  - rewrite (IH (S i) k Hk). replace (S i + k)%nat with (i + S k)%nat by lia.
    lia.
Qed.

Definition keeps_units (p : Location) (link : Location * Z) (vs vt : Z)
  : bool :=
  forallb (λ t,
             slot_units t (index p) vs + slot_units t (index link.1) vt
             =? slot_units t (index p) (slot_put (kind p) vs 0).1
                + slot_units t (index link.1)
                    (slot_put (kind link.1) vt (slot_get (kind p) vs)).1)
          [1; 2; 3; 4].

Lemma legal_move_units d c d' t :
  wf_data d → legal_move d c d' → 1 ≤ t ≤ 4 →
  count_units t d' = count_units t d.
Proof.
  intros Hwf Hm Ht.
  destruct (legal_move_shape d c d' Hwf Hm)
    as (p & link & vs & vt & Hp & Hl & Hvs & Hvt & Hbs & Hbt & Ha & Hacc
        & Hne & -> & _).
  assert (check_moves keeps_units = true) as Hchk by (vm_compute; reflexivity).
  pose proof (check_moves_sound _ p link vs vt Hchk Hp Hl Hbs Hbt Ha Hacc)
    as Hk.
  unfold keeps_units in Hk. rewrite forallb_forall in Hk.
  assert (In t [1; 2; 3; 4]) as Hin by (simpl; lia).
  specialize (Hk t Hin). apply Z.eqb_eq in Hk.
  unfold count_units.
  rewrite (units_from_insert _ _ _ _ vt) by (by rewrite list_lookup_insert_ne).
  rewrite (units_from_insert _ _ _ _ vs) by done. simpl. lia.
Qed.

(** X9.  A sequence of legal moves from a well-formed array neither creates
    nor destroys a unit: for each of the four types the number of units of
    that type on the board stays the same. *)
Theorem units_conserved d e d' t :
  wf_data d → path d e d' → 1 ≤ t ≤ 4 →
  count_units t d' = count_units t d.
Proof.
  intros Hwf Hp Ht. induction Hp as [d|d c1 d1 c2 d2 Hm Hp IH]; [done|].
  destruct (legal_move_wf _ _ _ Hwf Hm) as (Hwf1 & _).
  rewrite (IH Hwf1). by eapply legal_move_units.
Qed.

Lemma units_conserved_witness :
  count_units 1 [0; 0; 0; 0; 0; 0; 0; 0; 0; 0; 0; 6; 0; 0; 0]
  = count_units 1 board_one_move.
Proof.
  apply (units_conserved board_one_move 2
           [0; 0; 0; 0; 0; 0; 0; 0; 0; 0; 0; 6; 0; 0; 0] 1).
  - reflexivity.
  - apply board_one_move_path.
  - lia.
Defined.

(** *** A unit at home in the near place stays there *)

Definition keeps_settled (p : Location) (link : Location * Z) (vs vt : Z)
  : bool :=
  match kind p with
  | KHome t =>
      implb (vs mod 5 =? t) ((slot_put (kind p) vs 0).1 mod 5 =? t)
  | KRegular => true
  end
  && match kind link.1 with
     | KHome t =>
         implb (vt mod 5 =? t)
               ((slot_put (kind link.1) vt (slot_get (kind p) vs)).1 mod 5
                =? t)
     | KRegular => true
     end.

Lemma locations_index_inj p q :
  p ∈ locations → q ∈ locations → index p = index q → p = q.
Proof.
  intros [_ Hp]%locations_index [_ Hq]%locations_index Hi.
  rewrite Hi, Hq in Hp. by injection Hp.
Qed.

Lemma legal_move_settled d c d' q t v :
  wf_data d → legal_move d c d' →
  q ∈ locations → kind q = KHome t → d !! index q = Some v → v mod 5 = t →
  ∃ v', d' !! index q = Some v' ∧ v' mod 5 = t.
Proof.
  intros Hwf Hm Hq Hk Hv Hmod.
  destruct (legal_move_shape d c d' Hwf Hm)
    as (p & link & vs & vt & Hp & Hl & Hvs & Hvt & Hbs & Hbt & Ha & Hacc
        & Hne & -> & _).
  assert (check_moves keeps_settled = true) as Hchk
    by (vm_compute; reflexivity).
  pose proof (check_moves_sound _ p link vs vt Hchk Hp Hl Hbs Hbt Ha Hacc)
    as Hs.
  clear Hchk. unfold keeps_settled in Hs. apply andb_true_iff in Hs as [Hs1 Hs2].
  pose proof (links_target _ _ Hp Hl) as Ht.
  assert (index p < length d)%nat by (by eapply lookup_lt_Some).
  assert (index link.1 < length d)%nat by (by eapply lookup_lt_Some).
  destruct (decide (index q = index link.1)) as [Hqt|Hqt].
  - assert (q = link.1) as -> by (by apply locations_index_inj).
    rewrite Hv in Hvt. injection Hvt as <-.
    eexists. split.
    + apply list_lookup_insert_eq. by rewrite length_insert.
    + rewrite Hk in Hs2 |- *. apply Z.eqb_eq in Hmod. rewrite Hmod in Hs2.
      cbn [implb] in Hs2. by apply Z.eqb_eq in Hs2.
  - rewrite list_lookup_insert_ne by done.
    destruct (decide (index q = index p)) as [Hqp|Hqp].
    + assert (q = p) as -> by (by apply locations_index_inj).
      rewrite Hv in Hvs. injection Hvs as <-.
      eexists. split.
      * by apply list_lookup_insert_eq.
      * rewrite Hk in Hs1 |- *. apply Z.eqb_eq in Hmod. rewrite Hmod in Hs1.
        cbn [implb] in Hs1. by apply Z.eqb_eq in Hs1.
    + rewrite list_lookup_insert_ne by done. by exists v.
Qed.

(** X10.  A unit in the near place ([aa % 5]) of the room of its own type
    is never moved again: after any sequence of legal moves from a
    well-formed array the near place of that room still holds it. *)
Theorem settled_unit_stays d e d' q t v :
  wf_data d → path d e d' →
  q ∈ locations → kind q = KHome t → d !! index q = Some v → v mod 5 = t →
  ∃ v', d' !! index q = Some v' ∧ v' mod 5 = t.
Proof.
  intros Hwf Hp Hq Hk. revert v.
  induction Hp as [d|d c1 d1 c2 d2 Hm Hp IH]; intros v Hv Hmod.
  - by exists v.
  - destruct (legal_move_wf _ _ _ Hwf Hm) as (Hwf1 & _).
    destruct (legal_move_settled d c1 d1 q t v Hwf Hm Hq Hk Hv Hmod)
      as (v1 & Hv1 & Hmod1).
    by apply (IH Hwf1 v1).
Qed.

Lemma settled_unit_stays_witness :
  ∃ v', [0; 0; 0; 0; 0; 0; 0; 0; 0; 0; 0; 6; 0; 0; 0] !! index (loc 11)
        = Some v' ∧ v' mod 5 = 1.
Proof.
  apply (settled_unit_stays board_one_move 2
           [0; 0; 0; 0; 0; 0; 0; 0; 0; 0; 0; 6; 0; 0; 0] (loc 11) 1 1).
  - reflexivity.
  - apply board_one_move_path.
  - apply loc_elem. lia.
  - reflexivity.
  - reflexivity.
  - reflexivity.
Defined.

(** *** The hallway spots without links *)

Definition isolated : list nat := [2; 4; 6; 8]%nat.

Definition avoids_isolated (p : Location) (link : Location * Z) (vs vt : Z)
  : bool :=
  negb (bool_decide (index p ∈ isolated))
  && negb (bool_decide (index link.1 ∈ isolated)).

Lemma legal_move_isolated d c d' i :
  wf_data d → legal_move d c d' → i ∈ isolated → d' !! i = d !! i.
Proof.
  intros Hwf Hm Hi.
  destruct (legal_move_shape d c d' Hwf Hm)
    as (p & link & vs & vt & Hp & Hl & Hvs & Hvt & Hbs & Hbt & Ha & Hacc
        & Hne & -> & _).
  assert (check_moves avoids_isolated = true) as Hchk
    by (vm_compute; reflexivity).
  pose proof (check_moves_sound _ p link vs vt Hchk Hp Hl Hbs Hbt Ha Hacc)
    as Hs.
  clear Hchk. unfold avoids_isolated in Hs.
  apply andb_true_iff in Hs as [Hs1 Hs2].
  apply negb_true_iff, bool_decide_eq_false in Hs1, Hs2.
  rewrite !list_lookup_insert_ne by congruence. done.
Qed.

Lemma goal_inactive g p :
  wf_data g → is_goal g → p ∈ locations → is_active p g ≠ Some true.
Proof.
  intros Hwf Hg Hp Ha. destruct (active_set_wf _ Hwf) as (s & Hs & Hchar).
  unfold is_goal in Hg. rewrite Hg in Hs. injection Hs as <-.
  apply (Hchar p Hp) in Ha. by apply not_elem_of_empty in Ha.
Qed.

(** X11.  The hallway slots 2, 4, 6 and 8 have no links: a unit on one of
    them never moves, no goal array can be reached from a well-formed
    array that has one, and the search prints [2 ** 63] for it. *)
Theorem isolated_unit_unsolvable d i v :
  wf_data d → i ∈ isolated → d !! i = Some v → v ≠ 0 →
  (∀ e d', path d e d' → d' !! i = Some v) ∧
  (∀ e g, path d e g → ¬ is_goal g) ∧
  ∃ fuel, search fuel d = Printed (2 ^ 63).
Proof.
  intros Hwf Hi Hv Hne.
  assert (∀ e d', path d e d' → d' !! i = Some v) as Hstay.
  { intros e d' Hp. induction Hp as [d|d c1 d1 c2 d2 Hm Hp IH]; [done|].
    destruct (legal_move_wf _ _ _ Hwf Hm) as (Hwf1 & _).
    apply (IH Hwf1). by rewrite (legal_move_isolated d c1 d1 i Hwf Hm Hi). }
  assert (∀ e g, path d e g → ¬ is_goal g) as Hno.
  { intros e g Hp Hg. destruct (path_wf _ _ _ Hwf Hp) as (Hwfg & _).
    assert (i < 15)%nat as Hlt.
    { unfold isolated in Hi. set_unfold. lia. }
    destruct (locations_lookup_lt i Hlt) as (p & Hpi & Hp').
    apply (goal_inactive g p Hwfg Hg Hp').
    pose proof (locations_lookup _ _ Hpi) as Hidx.
    pose proof (Hstay e g Hp) as Hgi. rewrite <- Hidx in Hgi.
    rewrite (is_active_slot _ _ _ Hgi).
    destruct (wf_data_lookup g i Hwfg Hlt) as (v' & Hv' & Hb).
    rewrite <- Hidx, Hgi in Hv'. injection Hv' as <-.
    assert (kind p = KRegular) as ->.
    { unfold isolated in Hi. set_unfold.
      destruct Hi as [->|[->|[->|[->|[]]]]]; by injection Hpi as <-. }
    simpl. f_equal. apply Z.ltb_lt. lia. }
  split; [done|]. split; [done|].
  destruct (search_outcome d Hwf) as (fuel & r & Hs & [[-> _]|[_ Hmin]]).
  - by exists fuel.
  - destruct Hmin as [(g & Hg & Hp) _]. by destruct (Hno r g Hp).
Qed.

Lemma isolated_unit_unsolvable_witness :
  (∀ e d', path board_isolated e d' → d' !! 2%nat = Some 1) ∧
  (∀ e g, path board_isolated e g → ¬ is_goal g) ∧
  ∃ fuel, search fuel board_isolated = Printed (2 ^ 63).
Proof.
  apply (isolated_unit_unsolvable board_isolated 2 1).
  - reflexivity.
  - unfold isolated. by left.
  - reflexivity.
  - lia.
Defined.

(** ** Printing and reading the board *)

Definition REV_AMPHIPODS : list ascii := ["."; "A"; "B"; "C"; "D"]%char.

(** [print_state]: the five lines that it prints. *)
Definition print_state (data : list Z) : option (list string) :=
  l ← mapM (λ d, py_getitem REV_AMPHIPODS d) (take 11 data);
  h1 ← mapM (λ d, py_getitem REV_AMPHIPODS (d / 5)) (take 4 (drop 11 data));
  h2 ← mapM (λ d, py_getitem REV_AMPHIPODS (d mod 5))
            (take 4 (drop 11 data));
  a0 ← h1 !! 0%nat; a1 ← h1 !! 1%nat; a2 ← h1 !! 2%nat; a3 ← h1 !! 3%nat;
  b0 ← h2 !! 0%nat; b1 ← h2 !! 1%nat; b2 ← h2 !! 2%nat; b3 ← h2 !! 3%nat;
  Some [ "#############"%string;
         String "#" (String.string_of_list_ascii l +:+ "#");
         String "#" (String "#" (String "#" (String a0 (String "#"
           (String a1 (String "#" (String a2 (String "#" (String a3
           "###")))))))));
         String " " (String " " (String "#" (String b0 (String "#"
           (String b1 (String "#" (String b2 (String "#" (String b3
           "#")))))))));
         "  #########"%string ].

(** What reading back a printed board gives: the hallway is moved up by
    one slot. *)
Definition hallway_shift (d : list Z) : list Z :=
  0 :: take 10 d ++ drop 11 d.

(** The symbol of a type. *)
Definition symbol (v : Z) : ascii :=
  default "."%char (py_getitem REV_AMPHIPODS v).

Lemma REV_AMPHIPODS_symbol v :
  0 ≤ v ≤ 4 → py_getitem REV_AMPHIPODS v = Some (symbol v).
Proof.
  intros Hv. assert (v = 0 ∨ v = 1 ∨ v = 2 ∨ v = 3 ∨ v = 4) as Hc by lia.
  destruct Hc as [->|[->|[->|[->| ->]]]]; reflexivity.
Qed.

Lemma AMPHIPODS_symbol v : 0 ≤ v ≤ 4 → AMPHIPODS (symbol v) = Some v.
Proof.
  intros Hv. assert (v = 0 ∨ v = 1 ∨ v = 2 ∨ v = 3 ∨ v = 4) as Hc by lia.
  destruct Hc as [->|[->|[->|[->| ->]]]]; reflexivity.
Qed.

Lemma print_state_parse d :
  wf_data d →
  ∃ lines, print_state d = Some lines ∧
           parse lines = Some (hallway_shift d).
Proof.
  intros Hwf. pose proof Hwf as [Hl H]%wf_data_spec.
  do 16 (destruct d as [|? d]; try discriminate Hl).
  pose proof (H 0%nat _ eq_refl). pose proof (H 1%nat _ eq_refl).
  pose proof (H 2%nat _ eq_refl). pose proof (H 3%nat _ eq_refl).
  pose proof (H 4%nat _ eq_refl). pose proof (H 5%nat _ eq_refl).
  pose proof (H 6%nat _ eq_refl). pose proof (H 7%nat _ eq_refl).
  pose proof (H 8%nat _ eq_refl). pose proof (H 9%nat _ eq_refl).
  pose proof (H 10%nat _ eq_refl). pose proof (H 11%nat _ eq_refl).
  pose proof (H 12%nat _ eq_refl). pose proof (H 13%nat _ eq_refl).
  pose proof (H 14%nat _ eq_refl).
  clear H Hl Hwf. unfold slot_bound in *. simpl in *.
  eexists. split.
  - unfold print_state. cbn [take drop mapM].
    repeat (rewrite (REV_AMPHIPODS_symbol _) by
              first [ lia | Z.div_mod_to_equations; lia ];
            cbn [mbind option_bind fmap option_fmap option_map]).
    reflexivity.
  - unfold parse, cell. cbn [for_each seq lookup list_lookup].
    cbn [String.string_of_list_ascii String.append String.get
         mbind option_bind].
    simpl String.get. cbn [mbind option_bind].
    repeat (rewrite (AMPHIPODS_symbol _) by
              first [ lia | Z.div_mod_to_equations; lia ];
            cbn [mbind option_bind]).
    unfold py_setitem. simpl. unfold hallway_shift. simpl.
    repeat f_equal; Z.div_mod_to_equations; lia.
Qed.

(** X12.  Printing a well-formed array with [print_state] and reading the
    five lines back does not give the array back in general: the rooms come
    back as they were, but hallway slot [i] comes back in slot [i + 1], slot
    0 comes back empty and the last hallway slot is lost.  The array is
    read back unchanged exactly when its hallway is empty. *)
Theorem print_state_read_back d :
  wf_data d →
  ∃ lines,
    print_state d = Some lines ∧
    parse lines = Some (hallway_shift d) ∧
    (hallway_shift d = d ↔ take 11 d = replicate 11 0).
Proof.
  intros Hwf. destruct (print_state_parse d Hwf) as (lines & Hpr & Hpa).
  exists lines. split; [done|]. split; [done|].
  apply wf_data_length in Hwf.
  do 16 (destruct d as [|? d]; try discriminate Hwf).
  unfold hallway_shift. simpl. split.
  - intros [= <- <- <- <- <- <- <- <- <- <- <-]. reflexivity.
  - intros [= -> -> -> -> -> -> -> -> -> -> ->]. reflexivity.
Qed.

Lemma print_state_read_back_witness :
  ∃ lines,
    print_state board_one_move = Some lines ∧
    parse lines = Some (hallway_shift board_one_move) ∧
    (hallway_shift board_one_move = board_one_move
     ↔ take 11 board_one_move = replicate 11 0).
Proof. apply (print_state_read_back board_one_move). reflexivity. Defined.

(** The cells of the input that [main] reads, in the order in which it
    reads them. *)
Definition cells_read : list (nat * nat) :=
  ((λ i : nat, (1%nat, i)) <$> seq 1 11)
  ++ [(2, 3); (3, 3); (2, 5); (3, 5); (2, 7); (3, 7); (2, 9); (3, 9)]%nat.

(** X13.  The parsed array has fifteen slots.  Slot 0 is always empty;
    slot [i], for [i] from 1 to 10, holds the symbol at column [i] of the
    hallway line; the symbol at column 11 is read (an unknown symbol there
    is an error) but not kept; the slot of each room holds five times the
    symbol of its upper line plus the symbol of its lower line. *)
Theorem parse_layout lines d :
  parse lines = Some d →
  length d = 15%nat ∧
  d !! 0%nat = Some 0 ∧
  (∀ i, (1 ≤ i ≤ 10)%nat → d !! i = cell lines 1 i) ∧
  is_Some (cell lines 1 11) ∧
  (∀ k, (k < 4)%nat →
        ∃ top bot, cell lines 2 (3 + 2 * k) = Some top ∧
                   cell lines 3 (3 + 2 * k) = Some bot ∧
                   d !! (11 + k)%nat = Some (5 * top + bot)).
Proof.
  unfold parse. cbn [for_each seq].
  repeat match goal with
         | |- context [cell lines ?r ?c] =>
             let v := fresh "v" in
             let Hv := fresh "Hv" in
             destruct (cell lines r c) as [v|] eqn:Hv; [|done]
         end.
  cbn [mbind option_bind]. unfold py_setitem. simpl. intros [= <-].
  split; [done|]. split; [done|]. split; [|split].
  - intros i Hi. do 11 (destruct i as [|i]; [by (lia || done)|]). lia.
  - by eexists.
  - intros k Hk. do 4 (destruct k as [|k]; [by eexists _, _|]). lia.
Qed.

Lemma parse_layout_witness :
  length board_three_A = 15%nat ∧
  board_three_A !! 0%nat = Some 0 ∧
  (∀ i, (1 ≤ i ≤ 10)%nat →
        board_three_A !! i = cell (take 5 stdin_three_A) 1 i) ∧
  is_Some (cell (take 5 stdin_three_A) 1 11) ∧
  (∀ k, (k < 4)%nat →
        ∃ top bot, cell (take 5 stdin_three_A) 2 (3 + 2 * k) = Some top ∧
                   cell (take 5 stdin_three_A) 3 (3 + 2 * k) = Some bot ∧
                   board_three_A !! (11 + k)%nat = Some (5 * top + bot)).
Proof.
  apply (parse_layout (take 5 stdin_three_A) board_three_A). reflexivity.
Defined.

(** X14.  [parse] raises exactly when one of the nineteen cells it reads is
    missing (the line or the column does not exist) or holds a symbol other
    than [.], [A], [B], [C], [D]; nothing else in the input is looked
    at. *)
Theorem parse_succeeds_iff lines :
  is_Some (parse lines) ↔
  ∀ r c, (r, c) ∈ cells_read → is_Some (cell lines r c).
Proof.
  split.
  - intros [d Hd] r c Hin. unfold parse in Hd. cbn [for_each seq] in Hd.
    repeat match type of Hd with
           | context [cell lines ?r ?c] =>
               let v := fresh "v" in
               let Hv := fresh "Hv" in
               destruct (cell lines r c) as [v|] eqn:Hv; [|done]
           end.
    unfold cells_read in Hin. simpl in Hin.
    repeat (apply elem_of_cons in Hin as [[= -> ->]|Hin]; [by eexists|]).
    by inversion Hin.
  - intros Hall. unfold parse. cbn [for_each seq].
    repeat match goal with
           | |- context [cell lines ?r ?c] =>
               let v := fresh "v" in
               let Hv := fresh "Hv" in
               destruct (Hall r c) as [v Hv];
               [unfold cells_read; simpl; set_solver|];
               rewrite Hv; cbn [mbind option_bind]
           end.
    unfold py_setitem. simpl. by eexists.
Qed.

(** ** Exceptions *)

Lemma run_no_crash d0 fuel c : inv d0 c → run board_links fuel c ≠ Crashed.
Proof.
  revert c. induction fuel as [|fuel IH]; intros c Hinv; [done|].
  simpl. destruct (iteration board_links c) as [r|c'|] eqn:Hit; [done| |].
  - apply IH. by eapply inv_step.
  - by apply inv_no_raise in Hinv.
Qed.

Lemma search_no_crash fuel d : wf_data d → search fuel d ≠ Crashed.
Proof.
  intros Hwf. destruct (initial_wf d Hwf) as (act & Hinit & _).
  unfold search. rewrite Hinit.
  apply (run_no_crash d), (inv_initial d Hwf), Hinit.
Qed.

(** X15.  [main] ends with an exception exactly when the input has fewer
    than five lines or [parse] raises on the first five lines; once the
    board is parsed, nothing in the search raises, however many iterations
    it runs. *)
Theorem main_crashes_iff fuel stdin :
  main fuel stdin = Crashed ↔
  (length stdin < 5)%nat ∨ parse (take 5 stdin) = None.
Proof.
  unfold main. destruct (decide (length stdin < 5)%nat) as [Hlt|Hge].
  { split; [by left | done]. }
  destruct (parse (take 5 stdin)) as [d|] eqn:Hparse.
  - split.
    + intros Hs. by apply search_no_crash in Hs; [|by eapply parse_wf].
    + intros [?|?]; [lia | done].
  - split; [by right | done].
Qed.

(** ** Rooms are stacks *)

(** X16.  A unit that a location accepts can be put in and taken out
    again: after [put] the location gives that unit back with [get], and
    moving it out restores the array, at the same number of extra steps as
    the way in. *)
Theorem put_in_then_out d p a :
  wf_data d → p ∈ locations → 1 ≤ a ≤ 4 → accepts p d a = Some true →
  ∃ d1 x,
    put p d a = Some (d1, x) ∧
    get p d1 = Some a ∧
    put p d1 0 = Some (d, x).
Proof.
  intros Hwf Hp Ha Hacc.
  destruct (wf_data_loc d p Hwf Hp) as (v & Hv & Hb).
  rewrite (accepts_slot _ _ _ Hv) in Hacc. injection Hacc as Hacc.
  assert (index p < length d)%nat as Hlen by (by eapply lookup_lt_Some).
  assert (∀ w, <[index p := w]> d !! index p = Some w) as Hw
    by (intros w; by apply list_lookup_insert_eq).
  assert (0 ≤ v ≤ 24) as Hv24
    by (unfold slot_bound in Hb; destruct (_ <? _)%nat; lia).
  exists (<[index p := (slot_put (kind p) v a).1]> d),
    (slot_put (kind p) v a).2.
  split; [by apply put_slot|].
  rewrite (get_slot _ _ _ (Hw _)), (put_slot _ _ _ (Hw _)).
  rewrite list_insert_insert_eq.
  unfold slot_accepts, slot_put, slot_get in *.
  destruct (kind p) as [|t].
  - apply Z.eqb_eq in Hacc as ->. simpl.
    split; [done|]. by rewrite list_insert_id.
  - destruct (Z.ltb_spec 0 (v / 5)); [done|].
    assert (v / 5 = 0) as Hfar by (Z.div_mod_to_equations; lia).
    assert (v mod 5 = v) as Hnear by (Z.div_mod_to_equations; lia).
    destruct (Z.eqb_spec a 0); [lia|]. rewrite Hnear.
    destruct (Z.eqb_spec v 0) as [->|Hv0]; cbn [fst snd].
    + replace (a / 5) with 0 by (Z.div_mod_to_equations; lia).
      replace (a mod 5) with a by (Z.div_mod_to_equations; lia).
      simpl. split; [done|]. by rewrite list_insert_id.
    + replace ((a * 5 + v) / 5) with a by (Z.div_mod_to_equations; lia).
      replace ((a * 5 + v) mod 5) with v by (Z.div_mod_to_equations; lia).
      destruct (Z.ltb_spec 0 a); [|lia].
      destruct (Z.eqb_spec a 0); [lia|]. cbn [fst snd].
      split; [done|]. by rewrite list_insert_id.
Qed.

Lemma put_in_then_out_witness :
  ∃ d1 x,
    put (loc 11) board_stranger 1 = Some (d1, x) ∧
    get (loc 11) d1 = Some 1 ∧
    put (loc 11) d1 0 = Some (board_stranger, x).
Proof.
  apply (put_in_then_out board_stranger (loc 11) 1).
  - reflexivity.
  - apply loc_elem. lia.
  - lia.
  - reflexivity.
Defined.

(** ** Goal arrays are dead ends *)

(** X17.  No legal move leaves a well-formed array without active
    location, so a sequence of legal moves that starts at such an array is
    empty and costs nothing. *)
Theorem goal_is_dead_end g e d :
  wf_data g → is_goal g → path g e d → d = g ∧ e = 0.
Proof.
  intros Hwf Hg Hp. destruct Hp as [g|g c1 d1 c2 d2 Hm Hp]; [done|].
  destruct Hm as (p & moves & link & Hp' & Hpa & _).
  by destruct (goal_inactive g p Hwf Hg Hp').
Qed.

Lemma goal_is_dead_end_witness :
  [0; 0; 0; 0; 0; 0; 0; 0; 0; 0; 0; 6; 0; 0; 0]
  = [0; 0; 0; 0; 0; 0; 0; 0; 0; 0; 0; 6; 0; 0; 0] ∧ 0 = 0.
Proof.
  apply (goal_is_dead_end [0; 0; 0; 0; 0; 0; 0; 0; 0; 0; 0; 6; 0; 0; 0] 0
           [0; 0; 0; 0; 0; 0; 0; 0; 0; 0; 0; 6; 0; 0; 0]).
  - reflexivity.
  - reflexivity.
  - apply path_nil.
Defined.

(** ** Estimates do not decrease *)

(** X18.  When an iteration takes an entry with estimate [est] from the
    queue, every entry of the queue after that iteration, the successors
    it pushed included, has an estimate of at least [est]: the estimates of
    the entries that the search takes never decrease. *)
Theorem estimates_never_decrease d0 c c' est e st rest x :
  wf_data d0 → reachable d0 c →
  pq_get (todo c) = Some ((est, e, st), rest) → loop_step c c' →
  x ∈ todo c' → est ≤ x.1.1.
Proof.
  intros Hwf Hreach Hpop Hstep Hx.
  pose proof (inv_reachable d0 Hwf c Hreach) as Hinv.
  unfold loop_step in Hstep.
  pose proof (iteration_cases c (inv_state_ok d0 c Hinv)) as Hcases.
  rewrite Hpop in Hcases.
  destruct (pq_get_Some _ _ _ Hpop) as [_ Hmin].
  assert (entry_ok d0 (est, e, st)) as Hpopped.
  { apply (inv_todo d0 c Hinv), (pq_get_elem _ _ _ _ Hpop). by left. }
  destruct Hcases as [[_ Hit]|(_ & _ & news & Hnews & Hit)];
    rewrite Hit in Hstep; injection Hstep as <-; cbn [todo] in Hx.
  - by apply (Hmin x).
  - apply elem_of_app in Hx as [Hx|Hx]; [|by apply (Hmin x)].
    apply Hnews in Hx.
    by destruct (successor_entry_ok d0 est e st x Hpopped Hx) as (_ & ? & _).
Qed.

Lemma estimates_never_decrease_witness :
  2 ≤ ((2, 2, {| data := [0; 0; 0; 0; 0; 0; 0; 0; 0; 0; 0; 6; 0; 0; 0];
                 active_locations := ∅ |}) : Entry).1.1.
Proof.
  pose proof (estimates_never_decrease board_one_move start_one_move
                after_one_move 2 0
                {| data := board_one_move; active_locations := {[1%nat]} |}
                []
                (2, 2, {| data := [0; 0; 0; 0; 0; 0; 0; 0; 0; 0; 0; 6; 0; 0; 0];
                          active_locations := ∅ |})) as H.
  apply H.
  - reflexivity.
  - apply start_one_move_reachable.
  - reflexivity.
  - apply start_one_move_step.
  - vm_compute. left.
Defined.

(** ** Candidate moves *)

Lemma for_each_accepted d a (ls acc : list (Location * Z)) :
  (∀ link, link ∈ ls → is_Some (d !! index link.1)) →
  for_each (λ result link,
              b ← accepts link.1 d a;
              Some (if b : bool then result ++ [link] else result))
           acc ls
  = Some (acc ++ filter (λ link, accepts link.1 d a = Some true) ls).
Proof.
  revert acc. induction ls as [|l ls IH]; intros acc Hls.
  - by rewrite app_nil_r.
  - destruct (Hls l) as [v Hv]; [by left|].
    cbn [for_each]. rewrite (accepts_slot _ _ _ Hv). cbn [mbind option_bind].
    rewrite IH by (intros; apply Hls; by right).
    f_equal. rewrite filter_cons.
    rewrite (accepts_slot _ _ _ Hv).
    destruct (slot_accepts (kind l.1) v a).
    + rewrite decide_True by done. by rewrite <- app_assoc.
    + rewrite decide_False by done. done.
Qed.

(** X19.  For a location that holds a unit [a], [candidate_moves] returns
    the links of the location whose far end accepts [a], in the order in
    which the links were added and without any other entry; for an empty
    location it returns the empty list whatever the links are. *)
Theorem candidate_moves_filter tbl p d a :
  get p d = Some a →
  (a ≠ 0 → ∀ link, link ∈ links_of tbl p → is_Some (d !! index link.1)) →
  candidate_moves tbl p d
  = Some (if a =? 0 then []
          else filter (λ link, accepts link.1 d a = Some true)
                      (links_of tbl p)).
Proof.
  intros Ha Hls. unfold candidate_moves. rewrite Ha.
  cbn [mbind option_bind]. destruct (Z.eqb_spec a 0) as [_|Hne]; [done|].
  by rewrite for_each_accepted by by apply Hls.
Qed.

Lemma candidate_moves_filter_witness :
  candidate_moves board_links (loc 1) board_one_move
  = Some (if 1 =? 0 then []
          else filter (λ link, accepts link.1 board_one_move 1 = Some true)
                      (links_of board_links (loc 1))).
Proof.
  apply (candidate_moves_filter board_links (loc 1) board_one_move 1).
  - reflexivity.
  - intros _ link Hl.
    apply (proj1 (bool_decide_eq_true
                    (is_Some (board_one_move !! index link.1)))).
    assert (forallb (λ l : Location * Z,
                       bool_decide (is_Some (board_one_move !! index l.1)))
                    (links_of board_links (loc 1)) = true) as H
      by (vm_compute; reflexivity).
    rewrite forallb_forall in H.
    exact (H link (proj1 (list_elem_of_In _ _) Hl)).
Defined.

(** ** Links go both ways *)

(** Whenever [q] is among the links of [p], [p] is among the links of [q]
    with the same weight. *)
Definition undirected (tbl : LinkTable) : Prop :=
  ∀ p q w, p ∈ locations → q ∈ locations →
           (q, w) ∈ links_of tbl p ↔ (p, w) ∈ links_of tbl q.

(** X20.  [connect] keeps the table of links undirected: if every link
    recorded so far has its reverse with the same weight, this is still so
    after two locations of the board are connected. *)
Theorem connect_undirected tbl a b w :
  length tbl = 15%nat → a ∈ locations → b ∈ locations →
  undirected tbl → undirected (connect tbl a b w).
Proof.
  intros Hlen Ha Hb Hsym p q w' Hp Hq.
  pose proof (proj1 (locations_index a Ha)) as Hia.
  pose proof (proj1 (locations_index b Hb)) as Hib.
  rewrite !links_of_connect by lia.
  rewrite !elem_of_app. rewrite (Hsym p q w' Hp Hq).
  assert (∀ r s : Location, r ∈ locations → s ∈ locations →
            ∀ x y : Location * Z,
              x ∈ (if decide (index r = index s) then [y] else [])
              ↔ r = s ∧ x = y) as Hcase.
  { intros r s Hr Hs x y. destruct (decide (index r = index s)) as [Hi|Hi].
    - rewrite list_elem_of_singleton.
      pose proof (locations_index_inj r s Hr Hs Hi). tauto.
    - split; [intros Hx; by inversion Hx | intros [-> _]; done]. }
  rewrite !Hcase by done.
  split; intros [?|[[-> [= -> ->]]|[-> [= -> ->]]]]; tauto.
Qed.

Lemma connect_undirected_witness :
  undirected (connect (replicate 15 []) (loc 0) (loc 1) 1).
Proof.
  apply (connect_undirected (replicate 15 []) (loc 0) (loc 1) 1).
  - reflexivity.
  - apply loc_elem. lia.
  - apply loc_elem. lia.
  - intros p q w _ _.
    assert (∀ r, links_of (replicate 15 []) r = []) as Hnil.
    { intros r.
      change (links_of (replicate 15 []) r)
        with (default [] (replicate 15 ([] : list (Location * Z))
                            !! index r)).
      destruct (replicate 15 ([] : list (Location * Z)) !! index r)
        as [l|] eqn:E; [|done].
      by destruct (proj1 (lookup_replicate _ _ _ _) E) as [-> _]. }
    rewrite !Hnil. split; intros H; inversion H.
Defined.

(** ** The whole program *)

(** X21.  For an input of at least five lines that the parsing code
    accepts, [main] prints a number that tells whether the parsed board can
    be solved: [2 ** 63] when no sequence of legal moves from the parsed
    array reaches an array without active location, and the least energy
    of such a sequence otherwise. *)
Theorem main_decides stdin d :
  (5 ≤ length stdin)%nat → parse (take 5 stdin) = Some d →
  ∃ fuel r,
    main fuel stdin = Printed r ∧
    ((r = 2 ^ 63 ∧ ∀ e g, path d e g → ¬ is_goal g)
     ∨ (r < 2 ^ 63 ∧ min_cost d r)).
Proof.
  intros Hlen Hparse.
  destruct (search_outcome d (parse_wf _ _ Hparse)) as (fuel & r & Hs & Hr).
  exists fuel, r. split; [|done]. unfold main.
  destruct (decide (length stdin < 5)%nat); [lia|]. by rewrite Hparse.
Qed.

Lemma main_decides_witness :
  ∃ fuel r,
    main fuel stdin_three_A = Printed r ∧
    ((r = 2 ^ 63 ∧ ∀ e g, path board_three_A e g → ¬ is_goal g)
     ∨ (r < 2 ^ 63 ∧ min_cost board_three_A r)).
Proof.
  apply (main_decides stdin_three_A board_three_A).
  - simpl. lia.
  - reflexivity.
Defined.

(** * The brute-force ALU search ([2021/24/src/python/main/alu_bf.py])

    The machine state, the six instructions and the depth-first loop of
    [main].  The instructions are taken as built by the constructors; the
    text of the program is not modelled. *)

Module Alu.

Record State := { ip : nat; variables : list Z }.

#[global] Instance State_eq_dec : EqDecision State.
Proof. solve_decision. Defined.

#[global] Instance State_countable : Countable State.
Proof.
  refine (inj_countable' (λ s, (ip s, variables s))
            (λ p, {| ip := p.1; variables := p.2 |}) _).
  by intros [].
Defined.

(** [self.variables[0:variable_index] + (value,) +
    self.variables[variable_index + 1:]] with [ip + 1]. *)
Definition transform (self : State) (variable_index : nat) (value : Z)
  : State :=
  {| ip := ip self + 1;
     variables := take variable_index (variables self) ++ [value]
                  ++ drop (variable_index + 1) (variables self) |}.

(** The subclasses of [BinOp]. *)
Inductive Op := Add | Div | Mod | Mul | Eql.

(** [_src] together with [_accessor]: a variable index or a constant. *)
Inductive Source := FromVariable (i : nat) | FromConstant (n : Z).

Inductive Instruction :=
| Inp (_dst_index : nat)
| BinOp (op : Op) (_dst_index : nat) (_src : Source).

(** [_get_result]; [//] and [%] raise [ZeroDivisionError] on a zero
    divisor. *)
Definition _get_result (op : Op) (lhs rhs : Z) : option Z :=
  match op with
  | Add => Some (lhs + rhs)
  | Div => if rhs =? 0 then None else Some (lhs / rhs)
  | Mod => if rhs =? 0 then None else Some (lhs mod rhs)
  | Mul => Some (lhs * rhs)
  | Eql => Some (if lhs =? rhs then 1 else 0)
  end.

Definition _accessor (src : Source) (s : State) : option Z :=
  match src with
  | FromVariable x => variables s !! x
  | FromConstant x => Some x
  end.

(** [str(x)] for a single decimal digit. *)
Definition str_digit (x : nat) : string :=
  String (ascii_of_nat (48 + x)) EmptyString.

Definition execute (self : Instruction) (state : State) (sid : string)
  : option (list (State * string)) :=
  match self with
  | Inp dst =>
      Some ((λ x, (transform state dst (Z.of_nat x), sid +:+ str_digit x))
              <$> seq 1 9)
  | BinOp op dst src =>
      lhs ← variables state !! dst;
      rhs ← _accessor src state;
      r ← _get_result op lhs rhs;
      Some [(transform state dst r, sid)]
  end.

(** [stack.pop()]: the last element. *)
Definition pop {A} (stack : list A) : option (A * list A) :=
  match reverse stack with
  | [] => None
  | x :: r => Some (x, reverse r)
  end.

Record Config := {
  states : gset State;
  stack : list (State * string)
}.

Inductive Iteration :=
| Print (sid : string)   (* [print(sid); return] *)
| Finish                 (* the stack is empty: nothing is printed *)
| Continue (c : Config)
| Raise.

(** One iteration of [while len(stack) > 0]. *)
Definition iteration (code : list Instruction) (c : Config) : Iteration :=
  match pop (stack c) with
  | None => Finish
  | Some ((state, sid), rest) =>
      if decide (state ∈ states c) then
        Continue {| states := states c; stack := rest |}
      else
        let states' := states c ∪ {[state]} in
        if decide (length code ≤ ip state)%nat then
          match variables state !! 3%nat with
          | Some v =>
              if v =? 0 then Print sid
              else Continue {| states := states'; stack := rest |}
          | None => Raise
          end
        else
          match code !! ip state with
          | Some instr =>
              match execute instr state sid with
              | Some succs =>
                  Continue {| states := states'; stack := rest ++ succs |}
              | None => Raise
              end
          | None => Raise
          end
  end.

Inductive Outcome :=
| Printed (sid : string)
| Silent
| Crashed
| OutOfFuel.

Fixpoint run (code : list Instruction) (fuel : nat) (c : Config) : Outcome :=
  match fuel with
  | O => OutOfFuel
  | S fuel' =>
      match iteration code c with
      | Print sid => Printed sid
      | Finish => Silent
      | Raise => Crashed
      | Continue c' => run code fuel' c'
      end
  end.

Definition start : State := {| ip := 0; variables := [0; 0; 0; 0] |}.

(** [main] after the program has been read. *)
Definition main (fuel : nat) (code : list Instruction) : Outcome :=
  run code fuel {| states := ∅; stack := [(start, EmptyString)] |}.

(** ** Properties *)

(** One instruction applied to a state and the input read so far. *)
Definition step (code : list Instruction) (x y : State * string) : Prop :=
  ∃ instr succs,
    code !! ip x.1 = Some instr ∧
    execute instr x.1 x.2 = Some succs ∧ y ∈ succs.

(** A final state with [z = 0]. *)
Definition accepting (code : list Instruction) (s : State) : Prop :=
  (length code ≤ ip s)%nat ∧ variables s !! 3%nat = Some 0.

Lemma pop_snoc {A} (l : list A) x : pop (l ++ [x]) = Some (x, l).
Proof. unfold pop. by rewrite reverse_snoc, reverse_involutive. Qed.

Lemma pop_Some {A} (l : list A) x r : pop l = Some (x, r) → l = r ++ [x].
Proof.
  unfold pop. destruct (reverse l) as [|y r'] eqn:E; [done|].
  intros [= <- <-]. rewrite <- (reverse_involutive l), E.
  by rewrite reverse_cons.
Qed.

Lemma pop_None {A} (l : list A) : pop l = None → l = [].
Proof.
  unfold pop. destruct (reverse l) as [|y r'] eqn:E; [|done].
  intros _. rewrite <- (reverse_involutive l), E. done.
Qed.

(** X22.  [transform] advances [ip] by one and, for an index within the
    tuple, replaces that one variable and keeps the others; for an index
    past the end the slices make the tuple one longer instead. *)
Theorem transform_spec s i v :
  ip (transform s i v) = (ip s + 1)%nat ∧
  ((i < length (variables s))%nat →
   variables (transform s i v) = <[i := v]> (variables s)) ∧
  ((length (variables s) ≤ i)%nat →
   variables (transform s i v) = variables s ++ [v]).
Proof.
  split; [done|]. unfold transform. cbn [variables]. split; intros Hi.
  - rewrite insert_take_drop by done. by rewrite Nat.add_1_r.
  - rewrite take_ge, drop_ge by lia. by rewrite app_nil_r.
Qed.

(** X23.  On a state whose variables the instruction addresses, [execute]
    raises exactly for [div] and [mod] with a divisor equal to 0; an [inp]
    gives nine successors, for the digits 1 to 9 in this order, and any
    other instruction gives one successor with the input unchanged. *)
Theorem execute_raises_iff instr s sid :
  (match instr with
   | Inp dst => True
   | BinOp op dst src =>
       is_Some (variables s !! dst) ∧ is_Some (_accessor src s)
   end) →
  (execute instr s sid = None ↔
   ∃ op dst src, instr = BinOp op dst src ∧ (op = Div ∨ op = Mod) ∧
                 _accessor src s = Some 0) ∧
  (∀ succs, execute instr s sid = Some succs →
            match instr with
            | Inp dst =>
                succs.*2 = (λ x, sid +:+ str_digit x) <$> seq 1 9 ∧
                succs.*1 = (λ x, transform s dst (Z.of_nat x)) <$> seq 1 9
            | BinOp _ _ _ => ∃ s', succs = [(s', sid)]
            end).
Proof.
  destruct instr as [dst|op dst src].
  - intros _. simpl. split.
    + split; [done|]. by intros (? & ? & ? & ? & _).
    + intros succs [= <-]. split; reflexivity.
  - intros [[lhs Hlhs] [rhs Hrhs]]. unfold execute.
    rewrite Hlhs, Hrhs. cbn [mbind option_bind]. split.
    + split.
      * intros Hnone. exists op, dst, src. split; [done|].
        destruct op; simpl in Hnone; try done;
          destruct (Z.eqb_spec rhs 0) as [->|]; try done; auto.
      * intros (? & ? & ? & [= <- <- <-] & Hop & Hz).
        rewrite Hrhs in Hz. injection Hz as ->.
        by destruct Hop as [-> | ->].
    + intros succs Hs. destruct (_get_result op lhs rhs); [|done].
      injection Hs as <-. by eexists.
Qed.

Lemma execute_raises_iff_witness :
  (execute (BinOp Div 3 (FromVariable 1)) start EmptyString = None ↔
   ∃ op dst src, BinOp Div 3 (FromVariable 1) = BinOp op dst src ∧
                 (op = Div ∨ op = Mod) ∧ _accessor src start = Some 0) ∧
  (∀ succs,
     execute (BinOp Div 3 (FromVariable 1)) start EmptyString = Some succs →
     ∃ s', succs = [(s', EmptyString)]).
Proof.
  apply (execute_raises_iff (BinOp Div 3 (FromVariable 1)) start EmptyString).
  split; by eexists.
Defined.

(** ** The depth-first loop *)

Definition loop_step (code : list Instruction) (c c' : Config) : Prop :=
  iteration code c = Continue c'.

Definition initial : Config :=
  {| states := ∅; stack := [(start, EmptyString)] |}.

Lemma dfs_iteration_cases code c :
  match pop (stack c) with
  | None => iteration code c = Finish
  | Some ((s, sid), rest) =>
      (s ∈ states c ∧
       iteration code c = Continue {| states := states c; stack := rest |})
      ∨ ((s ∉ states c) ∧ (length code ≤ ip s)%nat ∧
         ((variables s !! 3%nat = None ∧ iteration code c = Raise)
          ∨ (variables s !! 3%nat = Some 0 ∧ iteration code c = Print sid)
          ∨ (∃ v, variables s !! 3%nat = Some v ∧ v ≠ 0 ∧
                  iteration code c
                  = Continue {| states := states c ∪ {[s]};
                                stack := rest |})))
      ∨ ((s ∉ states c) ∧ (ip s < length code)%nat ∧
         ∃ instr, code !! ip s = Some instr ∧
           ((execute instr s sid = None ∧ iteration code c = Raise)
            ∨ ∃ succs, execute instr s sid = Some succs ∧
                iteration code c
                = Continue {| states := states c ∪ {[s]};
                              stack := rest ++ succs |}))
  end.
Proof.
  unfold iteration. destruct (pop (stack c)) as [[[s sid] rest]|]; [|done].
  destruct (decide (s ∈ states c)); [by left|]. right.
  destruct (decide (length code ≤ ip s)%nat) as [Hfin|Hnot].
  - left. split; [done|]. split; [done|].
    destruct (variables s !! 3%nat) as [v|]; [|by left].
    right. destruct (Z.eqb_spec v 0) as [->|Hv]; [by left|].
    right. by exists v.
  - right. split; [done|]. split; [lia|].
    destruct (lookup_lt_is_Some_2 code (ip s)) as [instr Hi]; [lia|].
    exists instr. rewrite Hi. split; [done|].
    destruct (execute instr s sid) as [succs|]; [|by left].
    right. by exists succs.
Qed.

(** *** What is printed is accepted *)

Lemma stack_reachable code c :
  rtc (loop_step code) initial c →
  ∀ x, x ∈ stack c → rtc (step code) (start, EmptyString) x.
Proof.
  intros Hrtc.
  apply (rtc_ind_r (R := loop_step code)
           (λ c, ∀ x, x ∈ stack c → rtc (step code) (start, EmptyString) x)
           initial); [| |exact Hrtc].
  - intros x ->%list_elem_of_singleton. apply rtc_refl.
  - clear c Hrtc. intros c c' _ Hstep IH x Hx. unfold loop_step in Hstep.
    pose proof (dfs_iteration_cases code c) as Hc.
    destruct (pop (stack c)) as [[[s sid] rest]|] eqn:Hpop;
      [|by rewrite Hc in Hstep].
    apply pop_Some in Hpop.
    assert (∀ y, y ∈ rest → rtc (step code) (start, EmptyString) y) as Hrest.
    { intros y Hy. apply IH. rewrite Hpop. apply elem_of_app. by left. }
    assert (rtc (step code) (start, EmptyString) (s, sid)) as Htop.
    { apply IH. rewrite Hpop. apply elem_of_app. right. by left. }
    destruct Hc as [[_ Hit]|[(_ & _ & [[_ Hit]|[[_ Hit]|(v & _ & _ & Hit)]])
                            |(_ & _ & instr & Hi & [[_ Hit]
                                                   |(succs & He & Hit)])]];
      rewrite Hit in Hstep; try done; injection Hstep as <-;
      cbn [stack] in Hx; try by apply Hrest.
    apply elem_of_app in Hx as [Hx|Hx]; [by apply Hrest|].
    eapply rtc_r; [exact Htop|]. by exists instr, succs.
Qed.

Lemma dfs_run_Printed code fuel c sid :
  run code fuel c = Printed sid →
  ∃ cf, rtc (loop_step code) c cf ∧ iteration code cf = Print sid.
Proof.
  revert c. induction fuel as [|fuel IH]; intros c Hrun; [done|].
  simpl in Hrun. destruct (iteration code c) as [sid'| |c'|] eqn:Hit;
    try done.
  - injection Hrun as ->. by exists c.
  - destruct (IH c' Hrun) as (cf & Hrtc & Hcf). exists cf.
    split; [|done]. by eapply rtc_l.
Qed.

Lemma run_Silent code fuel c :
  run code fuel c = Silent →
  ∃ cf, rtc (loop_step code) c cf ∧ iteration code cf = Finish.
Proof.
  revert c. induction fuel as [|fuel IH]; intros c Hrun; [done|].
  simpl in Hrun. destruct (iteration code c) as [sid'| |c'|] eqn:Hit;
    try done.
  - by exists c.
  - destruct (IH c' Hrun) as (cf & Hrtc & Hcf). exists cf.
    split; [|done]. by eapply rtc_l.
Qed.

(** X24.  What [main] prints is the input of an accepted run: executing the
    program from the state [(0, (0, 0, 0, 0))] with the empty input,
    choosing at every [inp] the successor with the printed digits, ends in
    a state past the last instruction whose variable [z] is 0. *)
Theorem printed_is_accepted code fuel sid :
  main fuel code = Printed sid →
  ∃ s, rtc (step code) (start, EmptyString) (s, sid) ∧ accepting code s.
Proof.
  intros (cf & Hrtc & Hit)%dfs_run_Printed.
  pose proof (stack_reachable code cf Hrtc) as Hreach.
  pose proof (dfs_iteration_cases code cf) as Hc.
  destruct (pop (stack cf)) as [[[s sid'] rest]|] eqn:Hpop;
    [|by rewrite Hc in Hit].
  apply pop_Some in Hpop.
  destruct Hc as [[_ Hit']|[(_ & Hfin & [[_ Hit']|[[Hz Hit']
                                                  |(v & _ & _ & Hit')]])
                           |(_ & _ & instr & Hi & [[_ Hit']
                                                  |(succs & He & Hit')])]];
    rewrite Hit' in Hit; try done.
  injection Hit as ->. exists s. split; [|done].
  apply Hreach. rewrite Hpop. apply elem_of_app. right. by left.
Qed.

Lemma printed_is_accepted_witness :
  ∃ s, rtc (step [BinOp Mul 3 (FromConstant 0)]) (start, EmptyString)
           (s, EmptyString)
       ∧ accepting [BinOp Mul 3 (FromConstant 0)] s.
Proof.
  apply (printed_is_accepted [BinOp Mul 3 (FromConstant 0)] 5 EmptyString).
  vm_compute. reflexivity.
Defined.

(** *** Nothing printed means nothing accepted *)

(** The states that one instruction leads to. *)
Definition next (code : list Instruction) (s s' : State) : Prop :=
  ∃ sid sid', step code (s, sid) (s', sid').

Lemma execute_states instr s sid sid' succs :
  execute instr s sid = Some succs →
  ∃ succs', execute instr s sid' = Some succs' ∧ succs'.*1 = succs.*1.
Proof.
  destruct instr as [dst|op dst src]; simpl.
  - intros [= <-]. eexists. split; [done|]. reflexivity.
  - destruct (variables s !! dst) as [lhs|]; [|done]. simpl.
    destruct (_accessor src s) as [rhs|]; [|done]. simpl.
    destruct (_get_result op lhs rhs); [|done]. simpl.
    intros [= <-]. by eexists.
Qed.

Record covered (code : list Instruction) (c : Config) : Prop := {
  cov_start : start ∈ states c ∨ start ∈ (stack c).*1;
  cov_next :
    ∀ s s', s ∈ states c → next code s s' →
            s' ∈ states c ∨ s' ∈ (stack c).*1;
  cov_final : ∀ s, s ∈ states c → ¬ accepting code s
}.

Lemma covered_initial code : covered code initial.
Proof.
  split; cbn [states stack].
  - right. simpl. by left.
  - intros s s' Hs. by apply not_elem_of_empty in Hs.
  - intros s Hs. by apply not_elem_of_empty in Hs.
Qed.

Lemma covered_step code c c' :
  covered code c → loop_step code c c' → covered code c'.
Proof.
  intros Hcov Hstep. unfold loop_step in Hstep.
  pose proof (dfs_iteration_cases code c) as Hc.
  destruct (pop (stack c)) as [[[s sid] rest]|] eqn:Hpop;
    [|by rewrite Hc in Hstep].
  apply pop_Some in Hpop.
  assert (∀ x, x ∈ (stack c).*1 → x = s ∨ x ∈ rest.*1) as Hsplit.
  { intros x. rewrite Hpop, fmap_app, elem_of_app. simpl.
    rewrite list_elem_of_singleton. tauto. }
  destruct Hc as [[Hin Hit]|[(Hnin & Hfin & [[_ Hit]|[[_ Hit]
                                                     |(v & Hv & Hv0 & Hit)]])
                            |(Hnin & Hlt & instr & Hi & [[_ Hit]
                                                       |(succs & He & Hit)])]];
    rewrite Hit in Hstep; try done; injection Hstep as <-.
  - split; cbn [states stack].
    + destruct (cov_start code c Hcov) as [?|[->|?]%Hsplit]; auto.
    + intros x x' Hx Hn.
      destruct (cov_next code c Hcov x x' Hx Hn) as [?|[->|?]%Hsplit]; auto.
    + apply (cov_final code c Hcov).
  - split; cbn [states stack].
    + destruct (cov_start code c Hcov) as [?|[->|?]%Hsplit];
        [left | left | right]; set_solver.
    + intros x x' [Hx|Hx%elem_of_singleton]%elem_of_union Hn.
      * destruct (cov_next code c Hcov x x' Hx Hn) as [?|[->|?]%Hsplit];
          [left | left | right]; set_solver.
      * subst x. destruct Hn as (sid1 & sid2 & instr & succs & Hi & _).
        apply lookup_lt_Some in Hi. simpl in Hi. lia.
    + intros x [Hx|Hx%elem_of_singleton]%elem_of_union.
      * by apply (cov_final code c Hcov).
      * subst x. intros [_ Hz]. rewrite Hv in Hz. by injection Hz.
  - split; cbn [states stack].
    + destruct (cov_start code c Hcov) as [?|[->|?]%Hsplit].
      * left. set_solver.
      * left. set_solver.
      * right. rewrite fmap_app, elem_of_app. by left.
    + intros x x' [Hx|Hx%elem_of_singleton]%elem_of_union Hn.
      * destruct (cov_next code c Hcov x x' Hx Hn) as [?|[->|?]%Hsplit].
        -- left. set_solver.
        -- left. set_solver.
        -- right. rewrite fmap_app, elem_of_app. by left.
      * subst x. right. rewrite fmap_app, elem_of_app. right.
        destruct Hn as (sid1 & sid2 & instr' & succs' & Hi' & He' & Hin').
        simpl in Hi', He', Hin'. rewrite Hi in Hi'. injection Hi' as <-.
        destruct (execute_states instr s sid1 sid succs' He')
          as (succs2 & He2 & Heq).
        rewrite He in He2. injection He2 as <-. rewrite Heq.
        apply list_elem_of_fmap. by exists (x', sid2).
    + intros x [Hx|Hx%elem_of_singleton]%elem_of_union.
      * by apply (cov_final code c Hcov).
      * subst x. intros [Hge _]. lia.
Qed.

(** X25.  When the loop ends without printing, no accepted run exists: no
    state reachable from [(0, (0, 0, 0, 0))] by executing the program,
    whatever digits are chosen, lies past the last instruction with
    [z = 0]. *)
Theorem silent_means_rejected code fuel s :
  main fuel code = Silent → rtc (next code) start s → ¬ accepting code s.
Proof.
  intros (cf & Hrtc & Hit)%run_Silent Hreach.
  assert (covered code cf) as Hcov.
  { apply (rtc_ind_r (R := loop_step code) (covered code) initial);
      [apply covered_initial | | exact Hrtc].
    intros c c' _ Hstep IH. by eapply covered_step. }
  assert (stack cf = []) as Hempty.
  { pose proof (dfs_iteration_cases code cf) as Hc.
    destruct (pop (stack cf)) as [[[s0 sid] rest]|] eqn:Hpop;
      [|by apply pop_None].
    destruct Hc as [[_ Hit']|[(_ & _ & [[_ Hit']|[[_ Hit']
                                                 |(v & _ & _ & Hit')]])
                             |(_ & _ & instr & _ & [[_ Hit']
                                                   |(succs & _ & Hit')])]];
      rewrite Hit' in Hit; done. }
  assert (s ∈ states cf) as Hs.
  { apply (rtc_ind_r (R := next code) (λ s, s ∈ states cf) start);
      [| |exact Hreach].
    - destruct (cov_start code cf Hcov) as [?|Hin]; [done|].
      rewrite Hempty in Hin. by inversion Hin.
    - intros s1 s2 _ Hn IH.
      destruct (cov_next code cf Hcov s1 s2 IH Hn) as [?|Hin]; [done|].
      rewrite Hempty in Hin. by inversion Hin. }
  by apply (cov_final code cf Hcov).
Qed.

Lemma silent_means_rejected_witness :
  ¬ accepting [BinOp Add 3 (FromConstant 1)] start.
Proof.
  apply (silent_means_rejected [BinOp Add 3 (FromConstant 1)] 5 start).
  - vm_compute. reflexivity.
  - apply rtc_refl.
Defined.

(** *** The loop ends *)

Lemma execute_ip instr s sid succs x :
  execute instr s sid = Some succs → x ∈ succs → ip x.1 = (ip s + 1)%nat.
Proof.
  destruct instr as [dst|op dst src]; unfold execute.
  - intros [= <-] Hx.
    repeat (apply elem_of_cons in Hx as [->|Hx]; [reflexivity|]).
    inversion Hx.
  - destruct (variables s !! dst) as [lhs|]; [|done]. cbn [mbind option_bind].
    destruct (_accessor src s) as [rhs|]; [|done]. cbn [mbind option_bind].
    destruct (_get_result op lhs rhs); [|done]. cbn [mbind option_bind].
    intros [= <-] ->%list_elem_of_singleton. reflexivity.
Qed.

Definition depths (c : Config) : list Z :=
  (λ x : State * string, Z.of_nat (ip x.1)) <$> stack c.

Lemma dfs_step_shrinks code c c' :
  loop_step code c c' →
  shrinks (Z.of_nat (length code)) (depths c') (depths c).
Proof.
  intros Hstep. unfold loop_step in Hstep.
  pose proof (dfs_iteration_cases code c) as Hc.
  destruct (pop (stack c)) as [[[s sid] rest]|] eqn:Hpop;
    [|by rewrite Hc in Hstep].
  apply pop_Some in Hpop.
  exists (Z.of_nat (ip s)), ((λ x : State * string, Z.of_nat (ip x.1)) <$> rest).
  assert (depths c ≡ₚ Z.of_nat (ip s)
                      :: ((λ x : State * string, Z.of_nat (ip x.1)) <$> rest))
    as Hperm.
  { unfold depths. rewrite Hpop, fmap_app. simpl.
    by rewrite Permutation_app_comm. }
  destruct Hc as [[_ Hit]|[(_ & _ & [[_ Hit]|[[_ Hit]|(v & _ & _ & Hit)]])
                          |(_ & Hlt & instr & Hi & [[_ Hit]
                                                  |(succs & He & Hit)])]];
    rewrite Hit in Hstep; try done; injection Hstep as <-.
  - exists []. split; [done|]. split; [done | by left].
  - exists []. split; [done|]. split; [done | by left].
  - exists ((λ x : State * string, Z.of_nat (ip x.1)) <$> succs).
    split; [done|]. split.
    + unfold depths. cbn [stack]. rewrite fmap_app.
      by rewrite Permutation_app_comm.
    + right. split; [lia|].
      intros n (x & -> & Hx)%list_elem_of_fmap.
      rewrite (execute_ip instr s sid succs x He Hx). lia.
Qed.

(** X26.  The depth-first loop ends for every program: after finitely many
    iterations [main] has printed an input, ended without printing, or
    raised.  What makes it end: an iteration that goes on takes the last
    entry from the stack and leaves the rest as it is, or pushes on the
    rest successors whose instruction pointer is one above that of the
    entry taken, which is itself below the length of the program. *)
Theorem main_terminates code :
  (∃ fuel, main fuel code ≠ OutOfFuel) ∧
  ∀ c c', loop_step code c c' →
    ∃ s sid rest,
      stack c = rest ++ [(s, sid)] ∧
      (stack c' = rest
       ∨ ∃ succs, stack c' = rest ++ succs ∧ (ip s < length code)%nat ∧
                  ∀ x, x ∈ succs → ip x.1 = (ip s + 1)%nat).
Proof.
  split; cycle 1.
  { intros c c' Hstep. unfold loop_step in Hstep.
    pose proof (dfs_iteration_cases code c) as Hc.
    destruct (pop (stack c)) as [[[s sid] rest]|] eqn:Hpop;
      [|by rewrite Hc in Hstep].
    apply pop_Some in Hpop. exists s, sid, rest. split; [done|].
    destruct Hc as [[_ Hit]|[(_ & _ & [[_ Hit]|[[_ Hit]|(v & _ & _ & Hit)]])
                            |(_ & Hlt & instr & Hi & [[_ Hit]
                                                    |(succs & He & Hit)])]];
      rewrite Hit in Hstep; try done; injection Hstep as <-;
      [by left | by left |].
    right. exists succs. split; [done|]. split; [done|].
    intros x Hx. by apply (execute_ip instr s sid succs). }
  unfold main. generalize {| states := ∅; stack := [(start, EmptyString)] |}.
  intros c. remember (depths c) as l eqn:Hl. revert c Hl.
  induction (shrinks_wf (Z.of_nat (length code)) l) as [l _ IH].
  intros c ->. destruct (iteration code c) as [sid| |c'|] eqn:Hit.
  - exists 1%nat. simpl. by rewrite Hit.
  - exists 1%nat. simpl. by rewrite Hit.
  - destruct (IH (depths c') (dfs_step_shrinks code c c' Hit) c' eq_refl)
      as [fuel Hrun].
    exists (S fuel). simpl. by rewrite Hit.
  - exists 1%nat. simpl. by rewrite Hit.
Qed.

(** *** The largest accepted input is printed *)

Definition is_inp (instr : Instruction) : bool :=
  match instr with Inp _ => true | BinOp _ _ _ => false end.

(** The number of [inp] instructions in a piece of the program. *)
Fixpoint count_inp (code : list Instruction) : nat :=
  match code with
  | [] => 0
  | instr :: code' =>
      if is_inp instr then S (count_inp code') else count_inp code'
  end.

(** The decimal reading of an input string. *)
Fixpoint number_from (acc : Z) (sid : string) : Z :=
  match sid with
  | EmptyString => acc
  | String c sid' =>
      number_from (10 * acc + (Z.of_nat (nat_of_ascii c) - 48)) sid'
  end.

Definition number (sid : string) : Z := number_from 0 sid.

(** Ten to the number of digits still to be read from a state on. *)
Definition scale (code : list Instruction) (s : State) : Z :=
  10 ^ Z.of_nat (count_inp (drop (ip s) code)).

(** The numbers that the inputs of the runs through [x] lie between. *)
Definition lo (code : list Instruction) (x : State * string) : Z :=
  number x.2 * scale code x.1.

Definition hi (code : list Instruction) (x : State * string) : Z :=
  (number x.2 + 1) * scale code x.1.

Definition before (code : list Instruction) (x y : State * string) : Prop :=
  hi code x ≤ lo code y.

Lemma number_from_app acc s t :
  number_from acc (s +:+ t) = number_from (number_from acc s) t.
Proof. revert acc. induction s as [|c s IH]; intros acc; simpl; auto. Qed.

Lemma number_digit sid d :
  (d < 10)%nat → number (sid +:+ str_digit d) = 10 * number sid + Z.of_nat d.
Proof.
  intros Hd. unfold number. rewrite number_from_app. unfold str_digit.
  simpl. rewrite nat_ascii_embedding by lia. lia.
Qed.

Lemma scale_pos code s : 0 < scale code s.
Proof. unfold scale. apply Z.pow_pos_nonneg; lia. Qed.

Lemma scale_final code s : (length code ≤ ip s)%nat → scale code s = 1.
Proof. intros H. unfold scale. by rewrite drop_ge. Qed.

Lemma scale_step code s instr s' :
  code !! ip s = Some instr → ip s' = (ip s + 1)%nat →
  scale code s = (if is_inp instr then 10 else 1) * scale code s'.
Proof.
  intros Hi Hip. unfold scale. rewrite (drop_S _ _ _ Hi), Hip.
  replace (ip s + 1)%nat with (S (ip s)) by lia. simpl.
  destruct (is_inp instr); [|lia].
  rewrite Nat2Z.inj_succ, Z.pow_succ_r by lia. reflexivity.
Qed.

Lemma execute_Inp_elem dst s sid succs y :
  execute (Inp dst) s sid = Some succs → y ∈ succs →
  ∃ d, (1 ≤ d < 10)%nat ∧
       y = (transform s dst (Z.of_nat d), sid +:+ str_digit d).
Proof.
  unfold execute. intros He Hy. apply (inj Some) in He. subst succs.
  apply list_elem_of_fmap in Hy as (d & -> & Hd). exists d.
  split; [|done]. apply elem_of_seq in Hd. lia.
Qed.

Lemma execute_BinOp_elem op dst src s sid succs y :
  execute (BinOp op dst src) s sid = Some succs → y ∈ succs →
  ∃ r, succs = [(transform s dst r, sid)] ∧ y = (transform s dst r, sid).
Proof.
  unfold execute.
  destruct (variables s !! dst) as [lhs|]; [|done]. cbn [mbind option_bind].
  destruct (_accessor src s) as [rhs|]; [|done]. cbn [mbind option_bind].
  destruct (_get_result op lhs rhs) as [r|]; [|done]. cbn [mbind option_bind].
  intros He Hy. apply (inj Some) in He. subst succs.
  apply list_elem_of_singleton in Hy. by exists r.
Qed.

Lemma step_interval code x y :
  step code x y → lo code x ≤ lo code y ∧ hi code y ≤ hi code x.
Proof.
  destruct x as [s sid]. intros (instr & succs & Hi & He & Hy).
  cbn [fst snd] in Hi, He. unfold lo, hi. cbn [fst snd].
  pose proof (execute_ip instr s sid succs y He Hy) as Hip.
  rewrite (scale_step code s instr y.1 Hi Hip).
  pose proof (scale_pos code y.1) as Hpos.
  destruct instr as [dst|op dst src].
  - destruct (execute_Inp_elem dst s sid succs y He Hy) as (d & Hd & ->).
    cbn [fst snd is_inp] in *. rewrite number_digit by lia. nia.
  - destruct (execute_BinOp_elem op dst src s sid succs y He Hy)
      as (r & _ & ->).
    cbn [fst snd is_inp] in *. lia.
Qed.

Lemma rtc_interval code x y :
  rtc (step code) x y → lo code x ≤ lo code y ∧ hi code y ≤ hi code x.
Proof.
  induction 1 as [x|x y z Hxy _ IH]; [lia|].
  apply step_interval in Hxy. lia.
Qed.

(** The entries of a list lie in increasing order. *)
Fixpoint increasing (code : list Instruction) (l : list (State * string))
  : Prop :=
  match l with
  | [] => True
  | x :: l' => Forall (before code x) l' ∧ increasing code l'
  end.

Lemma increasing_app code l1 l2 :
  increasing code (l1 ++ l2) ↔
    (∀ x1 x2, x1 ∈ l1 → x2 ∈ l2 → before code x1 x2) ∧
    increasing code l1 ∧ increasing code l2.
Proof.
  induction l1 as [|x l1 IH]; simpl.
  - split; [intros H|tauto]. split; [|done].
    intros x1 x2 Hx. inversion Hx.
  - rewrite IH, Forall_app, !Forall_forall. split.
    + intros ((H1 & H2) & H3 & H4 & H5). split; [|done].
      intros x1 x2 [->|Hx]%elem_of_cons Hx2; [by apply H2 | by apply H3].
    + intros (H1 & (H2 & H3) & H4). split; [split; [done|]|].
      * intros y Hy. apply H1; [by left | done].
      * split; [|done]. intros x1 x2 Hx1 Hx2. apply H1; [by right | done].
Qed.

Lemma increasing_fmap_seq code (f : nat → State * string) a n :
  (∀ i j, (a ≤ i)%nat → (i < j)%nat → (j < a + n)%nat →
          before code (f i) (f j)) →
  increasing code (f <$> seq a n).
Proof.
  revert a. induction n as [|n IH]; intros a HR; simpl; [done|]. split.
  - apply Forall_forall. intros y Hy.
    apply list_elem_of_fmap in Hy as (j & -> & Hj).
    apply elem_of_seq in Hj. apply HR; lia.
  - apply IH. intros i j ???. apply HR; lia.
Qed.

Lemma succs_sorted code s sid instr succs :
  code !! ip s = Some instr → execute instr s sid = Some succs →
  increasing code succs.
Proof.
  intros Hi He. destruct instr as [dst|op dst src].
  - unfold execute in He. apply (inj Some) in He. subst succs.
    apply increasing_fmap_seq. intros i j Hi1 Hij Hj.
    unfold before, lo, hi. cbn [fst snd].
    rewrite !number_digit by lia.
    assert (scale code (transform s dst (Z.of_nat i))
            = scale code (transform s dst (Z.of_nat j))) as ->.
    { unfold scale. reflexivity. }
    pose proof (scale_pos code (transform s dst (Z.of_nat j))). nia.
  - assert (∃ y, y ∈ succs) as [y Hy].
    { unfold execute in He.
      destruct (variables s !! dst) as [lhs|]; [|done].
      cbn [mbind option_bind] in He.
      destruct (_accessor src s) as [rhs|]; [|done].
      cbn [mbind option_bind] in He.
      destruct (_get_result op lhs rhs) as [r|]; [|done].
      cbn [mbind option_bind] in He. apply (inj Some) in He. subst succs.
      eexists. by left. }
    destruct (execute_BinOp_elem op dst src s sid succs y He Hy)
      as (r & -> & _).
    simpl. split; [constructor | done].
Qed.

Lemma step_next code x y : step code x y → next code x.1 y.1.
Proof. destruct x, y. intros H. by eexists _, _. Qed.

Lemma rtc_step_next code x y :
  rtc (step code) x y → rtc (next code) x.1 y.1.
Proof.
  induction 1 as [x|x y z Hxy _ IH]; [apply rtc_refl|].
  eapply rtc_l; [by apply step_next | done].
Qed.

Lemma next_lookup code s s' : next code s s' → (ip s < length code)%nat.
Proof.
  intros (sid & sid' & instr & succs & Hi & _).
  by apply lookup_lt_Some in Hi.
Qed.

Lemma snoc_split {A} (l1 : list A) e l2 rest top :
  l1 ++ e :: l2 = rest ++ [top] →
  (l2 = [] ∧ e = top ∧ l1 = rest)
  ∨ (∃ l2', l2 = l2' ++ [top] ∧ rest = l1 ++ e :: l2').
Proof.
  destruct l2 as [|z l2 _] using rev_ind; intros H.
  - left. apply app_inj_tail in H as [-> ->]. done.
  - right. exists l2.
    change (l1 ++ e :: l2 ++ [z]) with (l1 ++ (e :: l2) ++ [z]) in H.
    rewrite app_assoc in H. apply app_inj_tail in H as [<- ->]. done.
Qed.

(** What holds between two iterations: every accepted run goes through an
    entry of the stack; the entries are in increasing order of the numbers
    they lead to; and what a visited state still leads to is above every
    other entry for that state. *)
Record searching (code : list Instruction) (c : Config) : Prop := {
  s_cover :
    ∀ y, rtc (step code) (start, EmptyString) y → accepting code y.1 →
         ∃ e, e ∈ stack c ∧ rtc (step code) e y;
  s_sorted : increasing code (stack c);
  s_pending :
    ∀ t t', t ∈ states c → rtc (next code) t t' → accepting code t' →
            ∃ l1 e l2, stack c = l1 ++ e :: l2 ∧ rtc (next code) e.1 t' ∧
                       ∀ y, y ∈ e :: l2 → (ip t < ip y.1)%nat
}.

Lemma searching_initial code : searching code initial.
Proof.
  split; cbn [states stack initial].
  - intros y Hy _. exists (start, EmptyString). split; [by left | done].
  - split; [constructor | done].
  - intros t t' Ht. by apply not_elem_of_empty in Ht.
Qed.

(** A visited state on top of the stack leads to nothing accepted. *)
Lemma visited_top_dead code c rest s sid t' :
  searching code c → stack c = rest ++ [(s, sid)] → s ∈ states c →
  rtc (next code) s t' → ¬ accepting code t'.
Proof.
  intros Hinv Hst Hs Hrtc Hacc.
  destruct (s_pending code c Hinv s t' Hs Hrtc Hacc)
    as (l1 & e & l2 & Heq & _ & Hip).
  rewrite Hst in Heq. symmetry in Heq.
  assert ((s, sid) ∈ e :: l2) as Hin.
  { destruct (snoc_split l1 e l2 rest (s, sid) Heq)
      as [(-> & -> & _)|(l2' & -> & _)].
    - by left.
    - right. apply elem_of_app. right. by left. }
  apply Hip in Hin. simpl in Hin. lia.
Qed.

(** What a state that is expanded leads to goes through a successor. *)
Lemma through_successor code s sid instr succs t' :
  code !! ip s = Some instr → execute instr s sid = Some succs →
  rtc (next code) s t' → accepting code t' →
  ∃ k1 e k2, succs = k1 ++ e :: k2 ∧ rtc (next code) e.1 t'.
Proof.
  intros Hi He Hrtc Hacc.
  apply rtc_inv in Hrtc as [->|(s1 & Hn & Hrtc)].
  { destruct Hacc as [Hge _]. apply lookup_lt_Some in Hi. lia. }
  destruct Hn as (sid1 & sid2 & instr' & succs' & Hi' & He' & Hin').
  cbn [fst snd] in Hi', He', Hin'. rewrite Hi in Hi'. injection Hi' as <-.
  destruct (execute_states instr s sid1 sid succs' He')
    as (succs2 & He2 & Heq).
  rewrite He in He2. injection He2 as <-.
  assert (s1 ∈ succs.*1) as Hs1.
  { rewrite Heq. apply list_elem_of_fmap. by exists (s1, sid2). }
  apply list_elem_of_fmap in Hs1 as (e & -> & He1).
  apply list_elem_of_split in He1 as (k1 & k2 & ->).
  by exists k1, e, k2.
Qed.

Lemma searching_step code c c' :
  searching code c → loop_step code c c' → searching code c'.
Proof.
  intros Hinv Hstep. unfold loop_step in Hstep.
  pose proof (dfs_iteration_cases code c) as Hc.
  destruct (pop (stack c)) as [[[s sid] rest]|] eqn:Hpop;
    [|by rewrite Hc in Hstep].
  apply pop_Some in Hpop.
  pose proof (s_sorted code c Hinv) as Hsorted. rewrite Hpop in Hsorted.
  apply increasing_app in Hsorted as (Hbelow & Hrest & _).
  assert (∀ y, rtc (step code) (start, EmptyString) y → accepting code y.1 →
               (∃ e, e ∈ rest ∧ rtc (step code) e y)
               ∨ rtc (step code) (s, sid) y) as Hcover.
  { intros y Hy Hacc.
    destruct (s_cover code c Hinv y Hy Hacc) as (e & He & Hrtc).
    rewrite Hpop in He. apply elem_of_app in He as [He|He].
    - left. by exists e.
    - right. by apply list_elem_of_singleton in He as ->. }
  assert (∀ t t', t ∈ states c → rtc (next code) t t' → accepting code t' →
                  (ip t < ip s)%nat ∧
                  (rtc (next code) s t'
                   ∨ ∃ l1 e l2, rest = l1 ++ e :: l2 ∧
                       rtc (next code) e.1 t' ∧
                       ∀ y, y ∈ e :: l2 → (ip t < ip y.1)%nat)) as Hpending.
  { intros t t' Ht Hrtc Hacc.
    destruct (s_pending code c Hinv t t' Ht Hrtc Hacc)
      as (l1 & e & l2 & Heq & Hrtc' & Hip).
    rewrite Hpop in Heq. symmetry in Heq.
    destruct (snoc_split l1 e l2 rest (s, sid) Heq)
      as [(-> & -> & ->)|(l2' & -> & ->)].
    - split; [apply (Hip (s, sid)); by left|]. by left.
    - split.
      + apply (Hip (s, sid)). right. apply elem_of_app. right. by left.
      + right. exists l1, e, l2'. split; [done|]. split; [done|].
        intros y Hy. apply Hip.
        apply elem_of_cons in Hy as [->|Hy]; [by left|].
        right. apply elem_of_app. by left. }
  destruct Hc as [[Hin Hit]|[(Hnin & Hfin & [[_ Hit]|[[_ Hit]
                                                     |(v & Hv & Hv0 & Hit)]])
                            |(Hnin & Hlt & instr & Hi & [[_ Hit]
                                                       |(succs & He & Hit)])]];
    rewrite Hit in Hstep; try done; injection Hstep as <-.
  - (* the state has been seen before *)
    assert (∀ t', rtc (next code) s t' → ¬ accepting code t') as Hdead.
    { intros t'. by apply (visited_top_dead code c rest s sid). }
    split; cbn [states stack].
    + intros y Hy Hacc. destruct (Hcover y Hy Hacc) as [?|Hrtc]; [done|].
      apply rtc_step_next in Hrtc. by destruct (Hdead y.1).
    + done.
    + intros t t' Ht Hrtc Hacc.
      destruct (Hpending t t' Ht Hrtc Hacc) as [_ [Hs|?]]; [|done].
      by destruct (Hdead t').
  - (* past the last instruction, [z] is not 0 *)
    assert (∀ t', rtc (next code) s t' → ¬ accepting code t') as Hdead.
    { intros t' [->|(s1 & Hn & _)]%rtc_inv.
      - intros [_ Hz]. rewrite Hv in Hz. by injection Hz.
      - apply next_lookup in Hn. lia. }
    split; cbn [states stack].
    + intros y Hy Hacc. destruct (Hcover y Hy Hacc) as [?|Hrtc]; [done|].
      apply rtc_step_next in Hrtc. by destruct (Hdead y.1).
    + done.
    + intros t t' [Ht|Ht%elem_of_singleton]%elem_of_union Hrtc Hacc.
      * destruct (Hpending t t' Ht Hrtc Hacc) as [_ [Hs|?]]; [|done].
        by destruct (Hdead t').
      * subst t. by destruct (Hdead t').
  - (* the successors are pushed *)
    split; cbn [states stack].
    + intros y Hy Hacc. destruct (Hcover y Hy Hacc) as [(e & ? & ?)|Hrtc].
      { exists e. split; [|done]. apply elem_of_app. by left. }
      apply rtc_inv in Hrtc as [<-|(z & Hz & Hrtc)].
      { destruct Hacc as [Hge _]. simpl in Hge. lia. }
      exists z. split; [|done]. apply elem_of_app. right.
      destruct Hz as (instr' & succs' & Hi' & He' & Hin').
      cbn [fst snd] in Hi', He'. rewrite Hi in Hi'. injection Hi' as <-.
      rewrite He in He'. by injection He' as <-.
    + apply increasing_app. split; [|split; [done|]].
      * intros x y Hx Hy.
        assert (before code x (s, sid)) as Hxs.
        { apply Hbelow; [done | by left]. }
        assert (step code (s, sid) y) as Hsy by (by exists instr, succs).
        apply step_interval in Hsy. unfold before in *. lia.
      * by eapply succs_sorted.
    + assert (∀ t t', (ip t ≤ ip s)%nat → rtc (next code) s t' →
                      accepting code t' →
                ∃ l1 e l2, rest ++ succs = l1 ++ e :: l2 ∧
                  rtc (next code) e.1 t' ∧
                  ∀ y, y ∈ e :: l2 → (ip t < ip y.1)%nat) as Hnew.
      { intros t t' Hle Hrtc Hacc.
        destruct (through_successor code s sid instr succs t' Hi He Hrtc Hacc)
          as (k1 & e & k2 & -> & Hrtc').
        exists (rest ++ k1), e, k2. split; [by rewrite <- app_assoc|].
        split; [done|]. intros y Hy.
        rewrite (execute_ip instr s sid (k1 ++ e :: k2) y He); [lia|].
        apply elem_of_app. by right. }
      intros t t' [Ht|Ht%elem_of_singleton]%elem_of_union Hrtc Hacc.
      * destruct (Hpending t t' Ht Hrtc Hacc)
          as [Hts [Hs|(l1 & e & l2 & -> & Hrtc' & Hip)]].
        -- apply Hnew; [lia | done | done].
        -- exists l1, e, (l2 ++ succs). split; [by rewrite <- app_assoc|].
           split; [done|]. intros y Hy.
           rewrite app_comm_cons in Hy. apply elem_of_app in Hy as [Hy|Hy].
           ++ by apply Hip.
           ++ rewrite (execute_ip instr s sid succs y He Hy). lia.
      * subst t. apply Hnew; [lia | done | done].
Qed.

(** X27.  The printed input is the largest accepted one: read as a decimal
    number, no input of an accepted run is greater than what [main]
    prints. *)
Theorem printed_is_largest code fuel sid s' sid' :
  main fuel code = Printed sid →
  rtc (step code) (start, EmptyString) (s', sid') → accepting code s' →
  number sid' ≤ number sid.
Proof.
  intros (cf & Hrtc & Hit)%dfs_run_Printed Hrun Hacc.
  assert (searching code cf) as Hinv.
  { apply (rtc_ind_r (R := loop_step code) (searching code) initial);
      [apply searching_initial | | exact Hrtc].
    intros c c' _ Hstep IH. by eapply searching_step. }
  pose proof (dfs_iteration_cases code cf) as Hc.
  destruct (pop (stack cf)) as [[[s sid0] rest]|] eqn:Hpop;
    [|by rewrite Hc in Hit].
  apply pop_Some in Hpop.
  destruct Hc as [[_ Hit']|[(_ & Hfin & [[_ Hit']|[[Hz Hit']
                                                  |(v & _ & _ & Hit')]])
                           |(_ & _ & instr & Hi & [[_ Hit']
                                                  |(succs & He & Hit')])]];
    rewrite Hit' in Hit; try done.
  injection Hit as ->.
  assert (lo code (s', sid') = number sid') as Hlo'.
  { unfold lo. cbn [fst snd]. rewrite scale_final; [lia | apply Hacc]. }
  assert (lo code (s, sid) = number sid) as Hlo.
  { unfold lo. cbn [fst snd]. rewrite scale_final; [lia | done]. }
  assert (hi code (s', sid') = number sid' + 1) as Hhi'.
  { unfold hi. cbn [fst snd]. rewrite scale_final; [lia | apply Hacc]. }
  assert (hi code (s, sid) = number sid + 1) as Hhi.
  { unfold hi. cbn [fst snd]. rewrite scale_final; [lia | done]. }
  destruct (s_cover code cf Hinv (s', sid') Hrun Hacc) as (e & He & Hrtc').
  apply rtc_interval in Hrtc'. rewrite Hpop in He.
  apply elem_of_app in He as [He|He].
  - pose proof (s_sorted code cf Hinv) as Hsorted. rewrite Hpop in Hsorted.
    apply increasing_app in Hsorted as (Hbelow & _ & _).
    assert (before code e (s, sid)) as Hb by (apply Hbelow; [done | by left]).
    unfold before in Hb. lia.
  - apply list_elem_of_singleton in He as ->. lia.
Qed.

Lemma printed_is_largest_witness :
  number (String "1" EmptyString) ≤ number (String "9" EmptyString).
Proof.
  pose proof (printed_is_largest [Inp 0] 20 (String "9" EmptyString)
                (transform start 0 1) (String "1" EmptyString)) as H.
  apply H.
  - vm_compute. reflexivity.
  - eapply rtc_l; [|apply rtc_refl].
    exists (Inp 0). eexists. split; [reflexivity|]. split; [reflexivity|].
    left.
  - split; [simpl; lia | reflexivity].
Defined.

Lemma length_snoc sid c :
  String.length (sid +:+ String c EmptyString) = (String.length sid + 1)%nat.
Proof. induction sid as [|c' sid IH]; simpl; [done | by rewrite IH]. Qed.

Lemma list_ascii_snoc sid c :
  String.list_ascii_of_string (sid +:+ String c EmptyString)
  = String.list_ascii_of_string sid ++ [c].
Proof. induction sid as [|c' sid IH]; simpl; [done | by rewrite IH]. Qed.

(** X28.  An input is built one digit per [inp]: in every run, what has been
    read so far has as many characters as there are [inp] instructions
    before the instruction pointer, and every character is one of the
    digits 1 to 9. *)
Theorem input_so_far code s sid :
  rtc (step code) (start, EmptyString) (s, sid) →
  String.length sid = count_inp (take (ip s) code)
  ∧ (ip s ≤ length code)%nat
  ∧ Forall (λ c, (49 ≤ nat_of_ascii c ≤ 57)%nat)
           (String.list_ascii_of_string sid).
Proof.
  intros Hrtc.
  change ((λ x : State * string,
             String.length x.2 = count_inp (take (ip x.1) code)
             ∧ (ip x.1 ≤ length code)%nat
             ∧ Forall (λ c, (49 ≤ nat_of_ascii c ≤ 57)%nat)
                      (String.list_ascii_of_string x.2)) (s, sid)).
  apply (rtc_ind_r (R := step code) _ (start, EmptyString));
    [| |exact Hrtc].
  - cbn [fst snd]. split; [reflexivity|]. split; [simpl; lia | constructor].
  - clear s sid Hrtc. intros [s sid] y _ Hstep (IHl & IHi & IHd).
    cbn [fst snd] in IHl, IHi, IHd.
    destruct Hstep as (instr & succs & Hi & He & Hy).
    cbn [fst snd] in Hi, He.
    pose proof (execute_ip instr s sid succs y He Hy) as Hip.
    pose proof (lookup_lt_Some _ _ _ Hi) as Hlt. cbn [fst] in Hip.
    assert (count_inp (take (ip y.1) code)
            = (count_inp (take (ip s) code)
               + if is_inp instr then 1 else 0)%nat) as Hcount.
    { rewrite Hip. replace (ip s + 1)%nat with (S (ip s)) by lia.
      rewrite (take_S_r _ _ _ Hi).
      generalize (take (ip s) code). intros l.
      induction l as [|i l IH]; simpl.
      - destruct (is_inp instr); reflexivity.
      - rewrite IH. destruct (is_inp i); reflexivity. }
    rewrite Hcount. split; [|split; [lia|]].
    + destruct instr as [dst|op dst src].
      * destruct (execute_Inp_elem dst s sid succs y He Hy) as (d & Hd & ->).
        cbn [fst snd is_inp]. rewrite <- IHl. apply length_snoc.
      * destruct (execute_BinOp_elem op dst src s sid succs y He Hy)
          as (r & _ & ->).
        cbn [fst snd is_inp]. lia.
    + destruct instr as [dst|op dst src].
      * destruct (execute_Inp_elem dst s sid succs y He Hy) as (d & Hd & ->).
        cbn [fst snd]. unfold str_digit. rewrite list_ascii_snoc.
        apply Forall_app. split; [done|]. constructor; [|constructor].
        rewrite nat_ascii_embedding by lia. lia.
      * destruct (execute_BinOp_elem op dst src s sid succs y He Hy)
          as (r & _ & ->).
        done.
Qed.

Lemma input_so_far_witness :
  String.length (String "7" EmptyString)
  = count_inp (take (ip (transform start 0 7)) [Inp 0])
  ∧ (ip (transform start 0 7) ≤ length [Inp 0])%nat
  ∧ Forall (λ c, (49 ≤ nat_of_ascii c ≤ 57)%nat)
           (String.list_ascii_of_string (String "7" EmptyString)).
Proof.
  apply (input_so_far [Inp 0] (transform start 0 7) (String "7" EmptyString)).
  eapply rtc_l; [|apply rtc_refl].
  exists (Inp 0). eexists. split; [reflexivity|]. split; [reflexivity|].
  do 6 right. left.
Defined.

End Alu.

(** * The sea floor ([2021/25/src/python/main/seacucumber.py])

    The two arrays of a [SeaFloor] and one move of both herds.  The loop of
    [simulate] compares SHA-256 digests and is not modelled. *)

Module SeaFloor.

(** One line of [_move_transpose]: the body of the loop over
    [element_index], on the running [element], [next_element] and
    [data_out]. *)
Definition element_step (data_in : list ascii) (width height : nat)
    (symbol : ascii) (line_index : nat)
    (acc : ascii * ascii * list ascii) (element_index : nat)
  : option (ascii * ascii * list ascii) :=
  let '(element, next_element, data_out) := acc in
  let prev_element := element in
  let element := next_element in
  next_element ←
    py_getitem data_in
      (Z.of_nat (line_index * width + (element_index + 1) `mod` width));
  data_out ←
    py_setitem data_out (element_index * height + line_index)
      (if bool_decide (element = symbol)
          && bool_decide (next_element = "."%char)
       then "."%char
       else if bool_decide (element = "."%char)
               && bool_decide (prev_element = symbol)
            then symbol
            else element);
  Some (element, next_element, data_out).

Definition line_step (data_in : list ascii) (width height : nat)
    (symbol : ascii) (data_out : list ascii) (line_index : nat)
  : option (list ascii) :=
  element ← py_getitem data_in (Z.of_nat ((line_index + 1) * width) - 1);
  next_element ← py_getitem data_in (Z.of_nat (line_index * width));
  r ← for_each (element_step data_in width height symbol line_index)
         (element, next_element, data_out) (seq 0 width);
  Some r.2.

(** [_move_transpose]; the result is the final content of [data_out]. *)
Definition _move_transpose (data_in data_out : list ascii)
    (width height : nat) (symbol : ascii) : option (list ascii) :=
  for_each (line_step data_in width height symbol) data_out (seq 0 height).

Record SeaFloor := {
  _width : nat;
  _height : nat;
  _data : list ascii;
  _buffer : list ascii
}.

(** [__init__]; [data[0]] raises on an empty list of lines. *)
Definition __init__ (data : list string) : option SeaFloor :=
  first ← data !! 0%nat;
  let chars := mjoin (String.list_ascii_of_string <$> data) in
  Some {| _width := String.length first; _height := length data;
          _data := chars; _buffer := chars |}.

Definition _move (self : SeaFloor) : option SeaFloor :=
  buffer ← _move_transpose (_data self) (_buffer self)
              (_width self) (_height self) ">"%char;
  data ← _move_transpose buffer (_data self)
            (_height self) (_width self) "v"%char;
  Some {| _width := _width self; _height := _height self;
          _data := data; _buffer := buffer |}.

(** ** Properties *)

(** The element of line [y] at column [x], columns taken around the line. *)
Definition cell (data : list ascii) (width : nat) (y x : nat) : ascii :=
  default "."%char (data !! (y * width + x `mod` width)%nat).

(** What a place holds after the herd [symbol] has moved, from what the
    place before it, the place itself and the place after it held. *)
Definition moved (symbol prev_element element next_element : ascii) : ascii :=
  if bool_decide (element = symbol) && bool_decide (next_element = "."%char)
  then "."%char
  else if bool_decide (element = "."%char)
          && bool_decide (prev_element = symbol)
       then symbol
       else element.

Definition after (data : list ascii) (width : nat) (symbol : ascii)
    (y x : nat) : ascii :=
  moved symbol (cell data width y (x + width - 1)) (cell data width y x)
    (cell data width y (x + 1)).

Lemma for_each_seq {B} (f : B → nat → option B) (P : nat → B → Prop) n acc :
  P 0%nat acc →
  (∀ k b, (k < n)%nat → P k b → ∃ b', f b k = Some b' ∧ P (S k) b') →
  ∃ b', for_each f acc (seq 0 n) = Some b' ∧ P n b'.
Proof.
  intros H0 Hstep.
  assert (∀ m a b, (a + m = n)%nat → P a b →
                   ∃ b', for_each f b (seq a m) = Some b' ∧ P n b') as Hgen.
  { induction m as [|m IH]; intros a b Ham Hb; simpl.
    - exists b. split; [done|]. by replace n with a by lia.
    - destruct (Hstep a b) as (b' & -> & Hb'); [lia | done |]. simpl.
      apply IH; [lia | done]. }
  by apply Hgen.
Qed.

Lemma place_lt (width height x y : nat) :
  (x < width)%nat → (y < height)%nat → (x * height + y < width * height)%nat.
Proof.
  intros Hx Hy.
  assert ((x + 1) * height ≤ width * height)%nat
    by (apply Nat.mul_le_mono_r; lia).
  lia.
Qed.

Lemma place_inj (height x y x' y' : nat) :
  (y < height)%nat → (y' < height)%nat →
  (x * height + y = x' * height + y')%nat → x = x' ∧ y = y'.
Proof.
  intros Hy Hy' Heq. destruct (Nat.lt_total x x') as [H|[->|H]].
  - assert ((x + 1) * height ≤ x' * height)%nat
      by (apply Nat.mul_le_mono_r; lia).
    lia.
  - split; [done | lia].
  - assert ((x' + 1) * height ≤ x * height)%nat
      by (apply Nat.mul_le_mono_r; lia).
    lia.
Qed.

Lemma cell_lookup data width height y x :
  length data = (width * height)%nat → (0 < width)%nat → (y < height)%nat →
  data !! (y * width + x `mod` width)%nat = Some (cell data width y x).
Proof.
  intros Hlen Hw Hy. unfold cell.
  destruct (lookup_lt_is_Some_2 data (y * width + x `mod` width)) as [c Hc].
  - pose proof (Nat.mod_upper_bound x width). nia.
  - by rewrite Hc.
Qed.

Section line.
Context (data_in : list ascii) (width height : nat) (symbol : ascii).
Context (Hlen : length data_in = (width * height)%nat).
Context (Hw : (0 < width)%nat).

(** The state of the loop over [element_index] before index [k]. *)
Definition line_inv (out0 : list ascii) (y k : nat)
    (acc : ascii * ascii * list ascii) : Prop :=
  acc.1.1 = cell data_in width y (k + width - 1) ∧
  acc.1.2 = cell data_in width y k ∧
  length acc.2 = length out0 ∧
  (∀ x, (x < k)%nat →
        acc.2 !! (x * height + y)%nat
        = Some (after data_in width symbol y x)) ∧
  (∀ j, (∀ x, (x < k)%nat → j ≠ (x * height + y)%nat) →
        acc.2 !! j = out0 !! j).

Lemma element_step_inv out0 y k acc :
  length out0 = (width * height)%nat → (y < height)%nat → (k < width)%nat →
  line_inv out0 y k acc →
  ∃ acc', element_step data_in width height symbol y acc k = Some acc'
          ∧ line_inv out0 y (S k) acc'.
Proof.
  intros Hout Hy Hk (He & Hn & Hl & Hdone & Hrest).
  destruct acc as [[element next_element] data_out]. cbn [fst snd] in *.
  unfold element_step.
  assert (py_getitem data_in
            (Z.of_nat (y * width + (k + 1) `mod` width))
          = Some (cell data_in width y (k + 1))) as ->.
  { unfold py_getitem. rewrite (proj2 (Z.leb_le _ _)) by lia.
    rewrite Nat2Z.id. by apply (cell_lookup _ _ height). }
  cbn [mbind option_bind]. unfold py_setitem.
  pose proof (place_lt width height k y Hk Hy) as Hplace.
  destruct (decide (k * height + y < length data_out)%nat) as [_|Hno];
    [|lia].
  cbn [mbind option_bind]. eexists. split; [reflexivity|].
  unfold line_inv. cbn [fst snd].
  split; [|split; [|split; [|split]]].
  - rewrite Hn. unfold cell. f_equal. f_equal. f_equal.
    replace (S k + width - 1)%nat with (k + 1 * width)%nat by lia.
    by rewrite Nat.Div0.mod_add.
  - f_equal. lia.
  - by rewrite length_insert.
  - intros x Hx. destruct (decide (x = k)) as [->|Hne].
    + rewrite list_lookup_insert_eq by lia.
      unfold after, moved. by rewrite He, Hn.
    + rewrite list_lookup_insert_ne.
      * apply Hdone. lia.
      * intros Heq. apply place_inj in Heq; [|done|done]. lia.
  - intros j Hj. rewrite list_lookup_insert_ne.
    + apply Hrest. intros x Hx. apply Hj. lia.
    + intros Heq. by apply (Hj k); [lia|].
Qed.

Lemma line_step_inv out0 y :
  length out0 = (width * height)%nat → (y < height)%nat →
  ∃ out, line_step data_in width height symbol out0 y = Some out ∧
         length out = length out0 ∧
         (∀ x, (x < width)%nat →
               out !! (x * height + y)%nat
               = Some (after data_in width symbol y x)) ∧
         (∀ j, (∀ x, (x < width)%nat → j ≠ (x * height + y)%nat) →
               out !! j = out0 !! j).
Proof.
  intros Hout Hy. unfold line_step.
  assert (py_getitem data_in (Z.of_nat ((y + 1) * width) - 1)
          = Some (cell data_in width y (width - 1))) as ->.
  { unfold py_getitem. rewrite (proj2 (Z.leb_le _ _)) by nia.
    replace (Z.to_nat (Z.of_nat ((y + 1) * width) - 1))
      with (y * width + (width - 1) `mod` width)%nat.
    - by apply (cell_lookup _ _ height).
    - rewrite Nat.mod_small by lia. nia. }
  assert (py_getitem data_in (Z.of_nat (y * width))
          = Some (cell data_in width y 0)) as ->.
  { unfold py_getitem. rewrite (proj2 (Z.leb_le _ _)) by lia.
    rewrite Nat2Z.id.
    replace (y * width)%nat with (y * width + 0 `mod` width)%nat at 1.
    - by apply (cell_lookup _ _ height).
    - rewrite Nat.Div0.mod_0_l. lia. }
  cbn [mbind option_bind].
  destruct (for_each_seq
              (element_step data_in width height symbol y)
              (line_inv out0 y) width
              (cell data_in width y (width - 1), cell data_in width y 0,
               out0)) as (acc & -> & Hacc).
  - unfold line_inv. cbn [fst snd]. split; [done|]. split; [done|].
    split; [done|]. split; [intros x Hx; lia | done].
  - intros k b Hk Hb. by apply element_step_inv.
  - cbn [mbind option_bind]. eexists. split; [reflexivity|].
    destruct Hacc as (_ & _ & Hl & Hdone & Hrest). done.
Qed.

(** The cells of the result, which is stored transposed. *)
Lemma move_transpose_run data_out :
  length data_out = (width * height)%nat →
  ∃ out, _move_transpose data_in data_out width height symbol = Some out ∧
         length out = length data_out ∧
         ∀ x y, (x < width)%nat → (y < height)%nat →
                out !! (x * height + y)%nat
                = Some (after data_in width symbol y x).
Proof.
  intros Hout. unfold _move_transpose.
  destruct (for_each_seq
              (line_step data_in width height symbol)
              (λ m out, length out = length data_out ∧
                        ∀ x y, (x < width)%nat → (y < m)%nat →
                               out !! (x * height + y)%nat
                               = Some (after data_in width symbol y x))
              height data_out) as (out & Hrun & Hl & Hcells).
  - split; [done|]. intros x y _ Hy. lia.
  - intros m b Hm [Hbl Hb].
    destruct (line_step_inv b m) as (out & Hstep & Hl & Hdone & Hrest);
      [lia | done |].
    exists out. split; [done|]. split; [lia|].
    intros x y Hx Hy. destruct (decide (y = m)) as [->|Hne].
    + by apply Hdone.
    + rewrite Hrest; [apply Hb; [done | lia]|].
      intros x' Hx' Heq. apply place_inj in Heq; [|lia|lia]. lia.
  - exists out. split; [done|]. split; [done|].
    intros x y Hx Hy. by apply Hcells.
Qed.

End line.

(** X29.  [_move_transpose] on a grid of [height] lines of [width > 0]
    elements never raises and fills [data_out] with the transposed grid
    after one move of the herd [symbol]: the element of line [y] and
    column [x] is stored at [x * height + y], and is what the rule gives
    from the elements before and after it on the line, the line being
    closed into a ring. *)
Theorem move_transpose_cells data_in data_out width height symbol :
  length data_in = (width * height)%nat →
  length data_out = (width * height)%nat → (0 < width)%nat →
  ∃ out, _move_transpose data_in data_out width height symbol = Some out ∧
         length out = (height * width)%nat ∧
         ∀ x y, (x < width)%nat → (y < height)%nat →
                cell out height x y
                = moved symbol (cell data_in width y (x + width - 1))
                    (cell data_in width y x) (cell data_in width y (x + 1)).
Proof.
  intros Hin Hout Hw.
  destruct (move_transpose_run data_in width height symbol Hin Hw
              data_out Hout) as (out & Hrun & Hl & Hcells).
  exists out. split; [done|]. split; [lia|].
  intros x y Hx Hy. unfold cell at 1.
  rewrite Nat.mod_small by done. by rewrite (Hcells x y Hx Hy).
Qed.

Lemma move_transpose_cells_witness :
  ∃ out, _move_transpose [">"; "."; "."]%char ["."; "."; "."]%char 3 1
           ">"%char = Some out ∧
         length out = (1 * 3)%nat ∧
         ∀ x y, (x < 3)%nat → (y < 1)%nat →
                cell out 1 x y
                = moved ">"%char
                    (cell [">"; "."; "."]%char 3 y (x + 3 - 1))
                    (cell [">"; "."; "."]%char 3 y x)
                    (cell [">"; "."; "."]%char 3 y (x + 1)).
Proof.
  apply (move_transpose_cells [">"; "."; "."]%char ["."; "."; "."]%char 3 1
           ">"%char); [reflexivity | reflexivity | lia].
Defined.

Lemma length_list_ascii_of_string s :
  length (String.list_ascii_of_string s) = String.length s.
Proof. induction s as [|c s IH]; simpl; [done | by rewrite IH]. Qed.

Lemma init_data lines w :
  Forall (λ l, String.length l = w) lines →
  Forall (λ l : list ascii, length l = w)
         (String.list_ascii_of_string <$> lines).
Proof.
  intros H. apply Forall_fmap. eapply Forall_impl; [exact H|].
  intros l Hl. simpl. by rewrite length_list_ascii_of_string.
Qed.

Lemma init_length lines w :
  Forall (λ l, String.length l = w) lines →
  length (mjoin (String.list_ascii_of_string <$> lines))
  = (w * length lines)%nat.
Proof.
  intros H. rewrite length_join.
  rewrite (sum_list_fmap_same w) by by apply init_data.
  rewrite length_fmap. lia.
Qed.

(** X30.  A floor built from at least one line, all lines of the same
    length [w > 0], holds the lines one after another, and one [_move] on
    it never raises: it keeps the dimensions, and leaves in [_data], in
    the layout it had, the grid after the herd [>] has moved along the
    lines and then the herd [v] along the columns of what this gave, lines
    and columns being closed into rings. *)
Theorem move_cells lines w :
  (0 < length lines)%nat → (0 < w)%nat →
  Forall (λ l, String.length l = w) lines →
  ∃ self self',
    __init__ lines = Some self ∧ _move self = Some self' ∧
    _width self' = w ∧ _height self' = length lines ∧
    (∀ y x l c, lines !! y = Some l →
                String.list_ascii_of_string l !! x = Some c →
                cell (_data self) w y x = c) ∧
    ∀ y x, (y < length lines)%nat → (x < w)%nat →
           cell (_data self') w y x
           = moved "v"%char
               (after (_data self) w ">"%char
                      ((y + length lines - 1) `mod` length lines) x)
               (after (_data self) w ">"%char y x)
               (after (_data self) w ">"%char
                      ((y + 1) `mod` length lines) x).
Proof.
  intros Hh Hw Hall. set (h := length lines) in *.
  set (chars := mjoin (String.list_ascii_of_string <$> lines)).
  assert (length chars = (w * h)%nat) as Hchars by by apply init_length.
  destruct (lookup_lt_is_Some_2 lines 0) as [first Hlookup]; [done|].
  assert (String.length first = w) as Hfirst.
  { rewrite Forall_forall in Hall. apply Hall.
    by eapply list_elem_of_lookup_2. }
  destruct (move_transpose_run chars w h ">"%char Hchars Hw chars Hchars)
    as (buffer & Heast & Hbl & Hbuffer).
  assert (length buffer = (h * w)%nat) as Hbl' by lia.
  assert (length chars = (h * w)%nat) as Hchars' by lia.
  destruct (move_transpose_run buffer h w "v"%char Hbl' Hh chars Hchars')
    as (data & Hsouth & Hdl & Hdata).
  exists {| _width := w; _height := h; _data := chars; _buffer := chars |}.
  exists {| _width := w; _height := h; _data := data; _buffer := buffer |}.
  split; [|split; [|split; [done|split; [done|split]]]].
  - unfold __init__. rewrite Hlookup. cbn [mbind option_bind].
    rewrite Hfirst. reflexivity.
  - unfold _move. cbn [_data _buffer _width _height]. rewrite Heast.
    cbn [mbind option_bind]. rewrite Hsouth. reflexivity.
  - intros y x l c Hl Hc. cbn [_data]. unfold cell.
    assert (x < w)%nat as Hx.
    { apply lookup_lt_Some in Hc.
      rewrite length_list_ascii_of_string in Hc.
      rewrite Forall_forall in Hall.
      rewrite <- (Hall l); [done|]. by eapply list_elem_of_lookup_2. }
    rewrite Nat.mod_small by done.
    assert (chars !! (y * w + x)%nat = Some c) as ->; [|done].
    apply (join_lookup_Some_same_length' w); [by apply init_data | done |].
    exists (String.list_ascii_of_string l). split; [|done].
    by rewrite list_lookup_fmap, Hl.
  - intros y x Hy Hx. cbn [_data]. unfold cell at 1.
    rewrite Nat.mod_small by done. rewrite (Hdata y x Hy Hx). cbn [default].
    assert (∀ i, cell buffer h x i = after chars w ">"%char (i `mod` h) x)
      as Hcell.
    { intros i. unfold cell at 1.
      rewrite (Hbuffer x (i `mod` h)%nat Hx); [done|].
      by apply Nat.mod_upper_bound; lia. }
    unfold after at 1. rewrite !Hcell.
    by rewrite (Nat.mod_small y h Hy).
Qed.

Lemma move_cells_witness :
  ∃ self self',
    __init__ [String ">" (String "." EmptyString);
              String "v" (String "." EmptyString)] = Some self ∧
    _move self = Some self' ∧ _width self' = 2%nat ∧ _height self' = 2%nat ∧
    (∀ y x l c, [String ">" (String "." EmptyString);
                 String "v" (String "." EmptyString)] !! y = Some l →
                String.list_ascii_of_string l !! x = Some c →
                cell (_data self) 2 y x = c) ∧
    ∀ y x, (y < 2)%nat → (x < 2)%nat →
           cell (_data self') 2 y x
           = moved "v"%char
               (after (_data self) 2 ">"%char ((y + 2 - 1) `mod` 2) x)
               (after (_data self) 2 ">"%char y x)
               (after (_data self) 2 ">"%char ((y + 1) `mod` 2) x).
Proof.
  apply (move_cells [String ">" (String "." EmptyString);
                     String "v" (String "." EmptyString)] 2).
  - simpl. lia.
  - lia.
  - repeat constructor.
Defined.

End SeaFloor.
